(** * Galactus: the mute/deafen dispatch service (internal/server.go)

    A shallow embedding of the rate gate, the secondary-session selection,
    the capture acknowledgement wait and the /modify batch handler, with
    the properties of the specification proved (or refuted) on it. *)

From Stdlib Require Import ZArith Lia Ascii.
From stdpp Require Import gmap strings list.

Local Open Scope Z_scope.

Set Warnings "-clear-no-such-hyp".

(** ** Go's [time.Duration]: a signed count of nanoseconds *)

Module Time.
Definition Duration := Z.
Definition Nanosecond : Duration := 1.
Definition Microsecond : Duration := 1000 * Nanosecond.
Definition Millisecond : Duration := 1000 * Microsecond.
Definition Second : Duration := 1000 * Millisecond.
Definition Minute : Duration := 60 * Second.
End Time.

(** 64-bit signed wrap-around, for Go's [int64] arithmetic. *)
Definition wrap64 (z : Z) : Z := (z + 2 ^ 63) mod 2 ^ 64 - 2 ^ 63.

(** Go's [error] values, as far as the service tells them apart: it only
    tests them against [nil] and logs them. *)
Inductive error := StoreError | ApiError | DecodeError | ParseError.

(** ** The shared store, as the service uses it

    The store is an external collaborator; this is the interface the code
    relies on.  A string key holds an integer with an optional absolute
    deadline (its TTL), a set key holds its members.  [clock] is the store's
    time in nanoseconds.  [faults] is the fate of the coming commands: a
    [true] at the head makes the next command fail, whatever the cause
    (connection loss, wrong type, overflow); an exhausted list means a
    healthy store.  A failed command changes nothing and the client hands
    back the zero value of its reply together with the error. *)

Module Redis.

Record item := Item { value : Z; deadline : option Z }.

Record client := Client {
  clock : Z;
  strings : gmap string item;
  sets : gmap string (list string);
  faults : list bool
}.

(** A key is visible while its deadline, if any, is in the future. *)
Definition fresh (now : Z) (it : item) : bool :=
  match deadline it with
  | Some d => now <? d
  | None => true
  end.

Definition live (c : client) (key : string) : option item :=
  match strings c !! key with
  | Some it => if fresh (clock c) it then Some it else None
  | None => None
  end.

(** Consume the fate of the next command. *)
Definition next_fault (c : client) : bool * client :=
  match faults c with
  | [] => (false, c)
  | f :: fs => (f, Client (clock c) (strings c) (sets c) fs)
  end.

Definition with_strings (c : client) (m : gmap string item) : client :=
  Client (clock c) m (sets c) (faults c).

Definition with_sets (c : client) (m : gmap string (list string)) : client :=
  Client (clock c) (strings c) m (faults c).

(** INCR: an absent (or expired) key counts from 0 and gets no deadline;
    a live key keeps its deadline. *)
Definition Incr (key : string) (c : client) : (Z * option error) * client :=
  let '(f, c) := next_fault c in
  if f then ((0, Some StoreError), c)
  else
    let it := match live c key with
              | Some it => Item (value it + 1) (deadline it)
              | None => Item 1 None
              end in
    ((value it, None), with_strings c (<[key := it]> (strings c))).

(** EXPIRE: gives a live key the deadline [now + d]. *)
Definition Expire (key : string) (d : Time.Duration) (c : client)
  : option error * client :=
  let '(f, c) := next_fault c in
  if f then (Some StoreError, c)
  else
    match live c key with
    | Some it =>
        (None, with_strings c (<[key := Item (value it) (Some (clock c + d))]> (strings c)))
    | None => (None, c)
    end.

Definition KeepTTL : Time.Duration := -1.

(** SET with an expiration: a positive one becomes the deadline, [KeepTTL]
    keeps the one the key has, anything else stores the key without one. *)
Definition Set_ (key : string) (v : Z) (d : Time.Duration) (c : client)
  : option error * client :=
  let '(f, c) := next_fault c in
  if f then (Some StoreError, c)
  else
    let dl := if 0 <? d then Some (clock c + d)
              else if d =? KeepTTL then
                     match live c key with
                     | Some it => deadline it
                     | None => None
                     end
                   else None in
    (None, with_strings c (<[key := Item v dl]> (strings c))).

(** SMEMBERS: the members of a set key, none when the key is absent. *)
Definition SMembers (key : string) (c : client)
  : (list string * option error) * client :=
  let '(f, c) := next_fault c in
  if f then (([], Some StoreError), c)
  else ((default [] (sets c !! key), None), c).

(** SREM: removes a member from a set key. *)
Definition SRem (key : string) (member : string) (c : client)
  : option error * client :=
  let '(f, c) := next_fault c in
  if f then (Some StoreError, c)
  else
    match sets c !! key with
    | Some ms =>
        (None, with_sets c (<[key := filter (λ m, m ≠ member) ms]> (sets c)))
    | None => (None, c)
    end.

(** Time passing at the store. *)
Definition tick (d : N) (c : client) : client :=
  Client (clock c + Z.of_N d) (strings c) (sets c) (faults c).

Definition healthy (c : client) : Prop := faults c = [].

End Redis.

(** ** Keys of the shared store *)

(** Modelled from the spec: the key builders of the [rediskey] package are
    not part of the source; the keyspace section gives the rate counter as
    [ratelimit:{guildID}:{identityHash}]. *)
Definition GuildTokenLock (guildID hashToken : string) : string :=
  "ratelimit:" +:+ guildID +:+ ":" +:+ hashToken.

(** Modelled from the spec: the keyspace section gives the guild's token
    set as [guild:{guildID}:tokens]. *)
Definition GuildTokensKey (guildID : string) : string :=
  "guild:" +:+ guildID +:+ ":tokens".

(** ** The service state *)

(** A chat-service session, identified by the credential it was opened
    with. *)
Inductive Session := SessionOf (botToken : string).

(** What the code writes to the standard logger. *)
Inductive LogLine :=
| LogErr (e : error)
| LogTokenCount (hashToken guildID : string) (count : Z) (usable : bool)
| LogSecondarySkipped.

Record GalactusAPI := MkAPI {
  client : Redis.client;
  activeSessions : gmap string Session;
  maxRequests5Seconds : Z;
  stdlog : list LogLine
}.

(** The methods of [GalactusAPI] thread the service state. *)
Definition M (A : Type) : Type := GalactusAPI → A * GalactusAPI.

Definition ret {A} (a : A) : M A := λ s, (a, s).
Definition bind {A B} (m : M A) (k : A → M B) : M B :=
  λ s, let '(a, s') := m s in k a s'.

Notation "x <~ c ;; k" := (bind c (λ x, k))
  (at level 100, c at next level, right associativity, only parsing).
Notation "c ;;; k" := (bind c (λ _, k))
  (at level 100, right associativity, only parsing).

(** Run a store command on the service's client. *)
Definition on_client {A} (cmd : Redis.client → A * Redis.client) : M A :=
  λ s, let '(a, c) := cmd (client s) in
       (a, MkAPI c (activeSessions s) (maxRequests5Seconds s) (stdlog s)).

Definition log_line (l : LogLine) : M unit :=
  λ s, (tt, MkAPI (client s) (activeSessions s) (maxRequests5Seconds s)
                  (stdlog s ++ [l])).

(** [if err != nil { log.Println(err) }] *)
Definition log_if_err (err : option error) : M unit :=
  match err with
  | Some e => log_line (LogErr e)
  | None => ret tt
  end.

Definition get_maxRequests : M Z := λ s, (maxRequests5Seconds s, s).
Definition lookup_session (hToken : string) : M (option Session) :=
  λ s, (activeSessions s !! hToken, s).

(** Time passing while the service waits. *)
Definition tick_api (d : N) : M unit :=
  λ s, (tt, MkAPI (Redis.tick d (client s)) (activeSessions s)
                  (maxRequests5Seconds s) (stdlog s)).

(** ** RateGate *)

Definition IncrAndTestGuildTokenComboLock (guildID hashToken : string) : M bool :=
  r <~ on_client (Redis.Incr (GuildTokenLock guildID hashToken)) ;;
  log_if_err (snd r) ;;;
  maxReq <~ get_maxRequests ;;
  let usable := fst r <? maxReq in
  log_line (LogTokenCount hashToken guildID (fst r) usable) ;;;
  if negb usable then ret false
  else
    err <~ on_client (Redis.Expire (GuildTokenLock guildID hashToken) (5 * Time.Second)) ;;
    log_if_err err ;;;
    ret true.

Definition BlacklistTokenForDuration (guildID hashToken : string)
    (duration : Time.Duration) : M (option error) :=
  maxReq <~ get_maxRequests ;;
  on_client (Redis.Set_ (GuildTokenLock guildID hashToken) maxReq duration).

Definition UnresponsiveCaptureBlacklistDuration : Time.Duration := Time.Minute * 5.

(** ** Secondary sessions *)

Definition PremiumBotConstraints : gmap Z Z :=
  list_to_map [(0, 0); (1, 0); (2, 1); (3, 3); (4, 10); (5, 100)].

(** Indexing a Go map with a key it lacks gives the zero value. *)
Definition premium_limit (tier : Z) : Z :=
  default 0 (PremiumBotConstraints !! tier).

Definition getAllTokensForGuild (guildID : string) : M (list string) :=
  r <~ on_client (Redis.SMembers (GuildTokensKey guildID)) ;;
  match snd r with
  | Some _ => ret []
  | None => ret (fst r)
  end.

(** The loop of [getAnySession], entered at index [i] of the range. *)
Fixpoint getAnySession_from (i : nat) (guildID : string) (tokens : list string)
    (limit : Z) : M (option Session * string) :=
  match tokens with
  | [] => ret (None, "")
  | hToken :: rest =>
      if Z.of_nat i =? limit then ret (None, "")
      else
        admitted <~ IncrAndTestGuildTokenComboLock guildID hToken ;;
        if admitted then
          sess <~ lookup_session hToken ;;
          match sess with
          | Some s => ret (Some s, hToken)
          | None =>
              on_client (Redis.SRem (GuildTokensKey guildID) hToken) ;;;
              getAnySession_from (S i) guildID rest limit
          end
        else
          log_line LogSecondarySkipped ;;;
          getAnySession_from (S i) guildID rest limit
  end.

Definition getAnySession (guildID : string) (tokens : list string) (limit : Z)
  : M (option Session * string) :=
  getAnySession_from 0 guildID tokens limit.

(** The identities of the counter lines [IncrAndTestGuildTokenComboLock]
    has logged: one per identity tried, in order. *)
Definition tried_tokens (log : list LogLine) : list string :=
  omap (λ l, match l with
             | LogTokenCount h _ _ _ => Some h
             | _ => None
             end) log.

(** ** Waiting for the capture worker's acknowledgement *)

Record PubSub := MkPubSub { channelName : string; closed : bool }.

Definition PubSub_Close (p : PubSub) : PubSub := MkPubSub (channelName p) true.

(** What the [select] of [waitForAck] picks. *)
Inductive selected := TimerFired | Received (payload : string).

(** The first message on the acknowledgement channel, if any: the time
    after the start of the wait at which it is delivered, and its
    payload. *)
Definition Arrival : Type := option (Time.Duration * string).

(** A goroutine blocked in [select] is woken by the case that becomes ready
    first; when both are ready at once Go picks either ([coin]). *)
Definition select_ready (waitTime : Time.Duration) (ack : Arrival) (coin : bool)
  : selected :=
  match ack with
  | None => TimerFired
  | Some (at_, payload) =>
      if at_ <? waitTime then Received payload
      else if waitTime <? at_ then TimerFired
      else if coin then Received payload else TimerFired
  end.

(** [waitForAck]: the value sent on [result], and the subscription after
    the deferred [pubsub.Close()]. Both cases of the [select] return, so the
    loop body runs once. *)
Definition waitForAck (pubsub : PubSub) (waitTime : Time.Duration)
    (ack : Arrival) (coin : bool) : bool * PubSub :=
  let result :=
    match select_ready waitTime ack coin with
    | TimerFired => false
    | Received payload => bool_decide (payload = "true")
    end in
  (result, PubSub_Close pubsub).

(** How long [waitForAck] has waited when it returns. *)
Definition ack_wait_time (waitTime : Time.Duration) (ack : Arrival) (coin : bool)
  : Time.Duration :=
  match select_ready waitTime ack coin, ack with
  | Received _, Some (at_, _) => at_
  | _, _ => waitTime
  end.

Definition DefaultCaptureBotTimeout : Time.Duration := Time.Second.
Definition DefaultMaxWorkers : Z := 8.

(** ** Decimal parsing ([strconv]) *)

Definition digit (c : ascii) : option Z :=
  let n := Z.of_nat (Ascii.nat_of_ascii c) in
  if (48 <=? n) && (n <=? 57) then Some (n - 48) else None.

(** Digits only, accumulated while the value stays at or below [bound]. *)
Fixpoint parse_digits (bound acc : Z) (cs : list ascii) : option Z :=
  match cs with
  | [] => Some acc
  | c :: cs =>
      match digit c with
      | Some d =>
          let acc' := acc * 10 + d in
          if acc' <=? bound then parse_digits bound acc' cs else None
      | None => None
      end
  end.

(** [strconv.ParseUint(s, 10, 64)] *)
Definition ParseUint (s : string) : option Z :=
  match String.list_ascii_of_string s with
  | [] => None
  | cs => parse_digits (2 ^ 64 - 1) 0 cs
  end.

(** [strconv.ParseInt(s, 10, 64)] *)
Definition ParseInt (s : string) : option Z :=
  match String.list_ascii_of_string s with
  | [] => None
  | c :: cs =>
      if bool_decide (c = "-"%char) then
        match cs with
        | [] => None
        | _ => Z.opp <$> parse_digits (2 ^ 63) 0 cs
        end
      else if bool_decide (c = "+"%char) then
        match cs with
        | [] => None
        | _ => parse_digits (2 ^ 63 - 1) 0 cs
        end
      else parse_digits (2 ^ 63 - 1) 0 (c :: cs)
  end.

(** The two settings [Run] reads from the environment; an unset variable
    reads as the empty string, which does not parse. *)
Record Env := MkEnv { ACK_TIMEOUT_MS : string; MAX_WORKERS : string }.

Definition taskTimeout (env : Env) : Time.Duration :=
  match ParseInt (ACK_TIMEOUT_MS env) with
  | Some num => wrap64 (Time.Millisecond * num)
  | None => DefaultCaptureBotTimeout
  end.

Definition maxWorkers (env : Env) : Z :=
  match ParseInt (MAX_WORKERS env) with
  | Some num => num
  | None => DefaultMaxWorkers
  end.

(** ** The batch and its counters *)

Record UserModify := MkUserModify { UserID : Z; Mute : bool; Deaf : bool }.

Record UserModifyRequest := MkUserModifyRequest {
  Premium : Z;
  Users : list UserModify
}.

Record MuteDeafenSuccessCounts := MkCounts {
  Worker : Z;
  Capture : Z;
  Official : Z;
  RateLimit : Z
}.

Definition no_counts : MuteDeafenSuccessCounts := MkCounts 0 0 0 0.

(** ** The capture bridge *)

(** Modelled from the spec: [attemptOnCaptureBot] is called by the /modify
    handler but defined outside the source at hand.  Section 4.3: subscribe
    to the acknowledgement channel, publish the request, await the payload
    with the timeout; on success return true; on timeout or any other
    payload blacklist [(guildID, captureSentinel)] for 5 minutes and return
    false; the subscription is released on every path.  The wait, the
    blacklist and its duration are the source's [waitForAck],
    [BlacklistTokenForDuration] and [UnresponsiveCaptureBlacklistDuration].
    The capture worker's answer ([ack], [coin]) is the environment; the
    sentinel is a constant the spec leaves open.  The store's time moves on
    by the time spent waiting. *)
Definition attemptOnCaptureBot (captureSentinel : string)
    (guildID connectCode : string) (gid : Z) (timeout : Time.Duration)
    (request : UserModify) (ack : Arrival) (coin : bool) : M (bool * PubSub) :=
  let pubsub := MkPubSub ("ack:" +:+ connectCode) false in
  let '(acked, pubsub) := waitForAck pubsub timeout ack coin in
  tick_api (Z.to_N (ack_wait_time timeout ack coin)) ;;;
  if acked then ret (true, pubsub)
  else
    BlacklistTokenForDuration guildID captureSentinel
      UnresponsiveCaptureBlacklistDuration ;;;
    ret (false, pubsub).

(** ** POST /modify/{guildID}/{connectCode} *)

Inductive Payload :=
| Text (s : string)
| ErrorText (e : error)
| CountsJSON (m : MuteDeafenSuccessCounts).

Record Response := MkResponse { status : Z; payload : Payload }.

Definition StatusOK : Z := 200.
Definition StatusBadRequest : Z := 400.

(** A request as the handler sees it: the two path variables, the outcome
    of reading the body, and what [json.Unmarshal] makes of the bytes. *)
Record Request := MkRequest {
  guildID_var : string;
  connectCode_var : string;
  readBody : error + string;
  unmarshal : string → error + UserModifyRequest
}.

(** A request of the batch together with its position in [Users]. The code
    sends the [UserModify] alone; the position only tells the entries of a
    batch apart. *)
Definition Job : Type := nat * UserModify.

Inductive Tier := Secondary | CaptureBot | Primary.

#[global] Instance Tier_eq_dec : EqDecision Tier.
Proof. solve_decision. Defined.

(** What a worker does for an entry, in the order it happens. *)
Inductive Event :=
| Attempt (t : Tier) (i : nat)
| Charge (t : Tier) (i : nat)
| Uncounted (i : nat).

(** Program points of a worker goroutine (lines 255 to 282). *)
Inductive wpc :=
| Receiving
| CallSecondary (j : Job)
| IncWorker (j : Job)
| CallCapture (j : Job)
| IncCapture (j : Job)
| CallPrimary (j : Job)
| CheckErr (j : Job)
| IncOfficial (j : Job)
| CallDone (j : Job)
| Exited.

(** Program points of the handler goroutine (lines 286 to 303). *)
Inductive mpc :=
| Feeding (rest : list Job)
| Waiting
| Closing
| Responding
| Responded (r : Response).

(** The state shared by the goroutines of one batch. [err] is the handler's
    variable of that name, which the worker closures assign and test. *)
Record Pool := MkPool {
  main : mpc;
  workers : list wpc;
  tasksChannel : list Job;
  chanClosed : bool;
  wg : Z;
  mdsc : MuteDeafenSuccessCounts;
  err : option error;
  events : list Event
}.

Definition incWorker (m : MuteDeafenSuccessCounts) : MuteDeafenSuccessCounts :=
  MkCounts (wrap64 (Worker m + 1)) (Capture m) (Official m) (RateLimit m).
Definition incCapture (m : MuteDeafenSuccessCounts) : MuteDeafenSuccessCounts :=
  MkCounts (Worker m) (wrap64 (Capture m + 1)) (Official m) (RateLimit m).
Definition incOfficial (m : MuteDeafenSuccessCounts) : MuteDeafenSuccessCounts :=
  MkCounts (Worker m) (Capture m) (wrap64 (Official m + 1)) (RateLimit m).

(** One step of a worker at program point [w]; [outcome] is what the tier
    it calls, if it calls one, returns (success, or a nil error). The
    result is the worker's next program point and the shared state; [None]
    when the worker is blocked or gone. A counter increment is one step:
    it runs under [mdscLock]. *)
Definition step_worker (outcome : bool) (w : wpc) (p : Pool) : option (wpc * Pool) :=
  let emit (e : list Event) (p : Pool) :=
    MkPool (main p) (workers p) (tasksChannel p) (chanClosed p) (wg p)
           (mdsc p) (err p) (events p ++ e) in
  let count (f : MuteDeafenSuccessCounts → MuteDeafenSuccessCounts) (p : Pool) :=
    MkPool (main p) (workers p) (tasksChannel p) (chanClosed p) (wg p)
           (f (mdsc p)) (err p) (events p) in
  match w with
  | Receiving =>
      match tasksChannel p with
      | j :: q =>
          Some (CallSecondary j,
                MkPool (main p) (workers p) q (chanClosed p) (wg p)
                       (mdsc p) (err p) (events p))
      | [] => if chanClosed p then Some (Exited, p) else None
      end
  | CallSecondary j =>
      Some (if outcome then IncWorker j else CallCapture j,
            emit [Attempt Secondary j.1] p)
  | IncWorker j =>
      Some (CallDone j, emit [Charge Secondary j.1] (count incWorker p))
  | CallCapture j =>
      Some (if outcome then IncCapture j else CallPrimary j,
            emit [Attempt CaptureBot j.1] p)
  | IncCapture j =>
      Some (CallDone j, emit [Charge CaptureBot j.1] (count incCapture p))
  | CallPrimary j =>
      Some (CheckErr j,
            MkPool (main p) (workers p) (tasksChannel p) (chanClosed p) (wg p)
                   (mdsc p) (if outcome then None else Some ApiError)
                   (events p ++ [Attempt Primary j.1]))
  | CheckErr j =>
      match err p with
      | Some _ => Some (CallDone j, emit [Uncounted j.1] p)
      | None => Some (IncOfficial j, p)
      end
  | IncOfficial j =>
      Some (CallDone j, emit [Charge Primary j.1] (count incOfficial p))
  | CallDone j =>
      Some (Receiving,
            MkPool (main p) (workers p) (tasksChannel p) (chanClosed p)
                   (wg p - 1) (mdsc p) (err p) (events p))
  | Exited => None
  end.

(** One step of the handler goroutine. [wg.Add(1)] and the send are one
    step: the channel has room for the whole batch, so the send never
    blocks, and only the handler reads [wg]. *)
Definition step_main (p : Pool) : option Pool :=
  let goto (m : mpc) (p : Pool) :=
    MkPool m (workers p) (tasksChannel p) (chanClosed p) (wg p)
           (mdsc p) (err p) (events p) in
  match main p with
  | Feeding (j :: rest) =>
      Some (MkPool (Feeding rest) (workers p) (tasksChannel p ++ [j])
                   (chanClosed p) (wg p + 1) (mdsc p) (err p) (events p))
  | Feeding [] => Some (goto Waiting p)
  | Waiting => if wg p =? 0 then Some (goto Closing p) else None
  | Closing =>
      Some (MkPool Responding (workers p) (tasksChannel p) true (wg p)
                   (mdsc p) (err p) (events p))
  | Responding =>
      Some (goto (Responded (MkResponse StatusOK (CountsJSON (mdsc p)))) p)
  | Responded _ => None
  end.

(** The scheduler's choices: which goroutine runs next, and for a worker
    what the tier it is about to call returns. *)
Inductive action := RunMain | RunWorker (w : nat) (outcome : bool).

Definition step (a : action) (p : Pool) : option Pool :=
  match a with
  | RunMain => step_main p
  | RunWorker i outcome =>
      match workers p !! i with
      | Some w =>
          match step_worker outcome w p with
          | Some (w', p') =>
              Some (MkPool (main p') (<[i := w']> (workers p')) (tasksChannel p')
                           (chanClosed p') (wg p') (mdsc p') (err p') (events p'))
          | None => None
          end
      | None => None
      end
  end.

Fixpoint exec (sched : list action) (p : Pool) : option Pool :=
  match sched with
  | [] => Some p
  | a :: sched =>
      match step a p with
      | Some p' => exec sched p'
      | None => None
      end
  end.

(** The batch after the loop that starts the workers: [maxWorkers]
    goroutines, each about to range over the still empty channel. *)
Definition start_workers (maxWorkers : Z) (users : list UserModify) : Pool :=
  MkPool (Feeding (imap (λ i u, (i, u)) users))
         (replicate (Z.to_nat maxWorkers) Receiving)
         [] false 0 no_counts None [].

(** What the batch runs with. *)
Record Batch := MkBatch {
  guildID : string;
  connectCode : string;
  gid : Z;
  limit : Z;
  tokens : list string;
  pool : Pool
}.

(** The handler up to and including the start of the workers: either an
    early response, or the batch. *)
Definition modify_begin (env : Env) (r : Request) : M (Response + Batch) :=
  match ParseUint (guildID_var r) with
  | None =>
      ret (inl (MkResponse StatusBadRequest
        (Text "Invalid guildID received. Query should be of the form POST `/modify/<guildID>/<conncode>`")))
  | Some gid =>
      match readBody r with
      | inl e =>
          log_line (LogErr e) ;;;
          ret (inl (MkResponse StatusBadRequest (ErrorText e)))
      | inr body =>
          match unmarshal r body with
          | inl e =>
              log_line (LogErr e) ;;;
              ret (inl (MkResponse StatusBadRequest (ErrorText e)))
          | inr userModifications =>
              let limit := premium_limit (Premium userModifications) in
              tokens <~ getAllTokensForGuild (guildID_var r) ;;
              ret (inr (MkBatch (guildID_var r) (connectCode_var r) gid limit tokens
                          (start_workers (maxWorkers env) (Users userModifications))))
          end
      end
  end.

(** ** Observations used by the properties *)

Definition event_entry (e : Event) : nat :=
  match e with
  | Attempt _ i | Charge _ i | Uncounted i => i
  end.

(** What happened to entry [i], in order, with the entry left out. *)
Inductive Mark := Tried (t : Tier) | Charged (t : Tier) | NotCounted.

#[global] Instance Mark_eq_dec : EqDecision Mark.
Proof. solve_decision. Defined.

Definition event_mark (e : Event) : Mark :=
  match e with
  | Attempt t _ => Tried t
  | Charge t _ => Charged t
  | Uncounted _ => NotCounted
  end.

Definition history (i : nat) (evs : list Event) : list Mark :=
  event_mark <$> filter (λ e, event_entry e = i) evs.

Definition unaccounted (evs : list Event) : Z :=
  Z.of_nat (length (filter (λ e, event_mark e = NotCounted) evs)).

Definition charges (t : Tier) (evs : list Event) : Z :=
  Z.of_nat (length (filter (λ e, event_mark e = Charged t) evs)).

(** The four complete courses of an entry through the tiers. *)
Definition complete_histories : list (list Mark) :=
  [ [Tried Secondary; Charged Secondary];
    [Tried Secondary; Tried CaptureBot; Charged CaptureBot];
    [Tried Secondary; Tried CaptureBot; Tried Primary; Charged Primary];
    [Tried Secondary; Tried CaptureBot; Tried Primary; NotCounted] ].

(** ** Bursts of admissions *)

(** A call to the rate gate, or time passing at the store. *)
Inductive GateOp := Tick (d : N) | Admit (guildID hashToken : string).

(** Run the operations in order; for each call, the store's time at the
    call, the pair and the answer. *)
Fixpoint run_gate (ops : list GateOp) : M (list (Z * string * string * bool)) :=
  match ops with
  | [] => ret []
  | Tick d :: ops => tick_api d ;;; run_gate ops
  | Admit g h :: ops =>
      λ s, let now := Redis.clock (client s) in
           (b <~ IncrAndTestGuildTokenComboLock g h ;;
            rs <~ run_gate ops ;;
            ret ((now, g, h, b) :: rs)) s
  end.

(** [k] calls for one pair, the i-th after a pause of [delays !! i]. *)
Definition burst (g h : string) (delays : list N) : list GateOp :=
  flat_map (λ d, [Tick d; Admit g h]) delays.

Definition admitted_count (rs : list (Z * string * string * bool)) : Z :=
  Z.of_nat (length (filter (λ r, r.2 = true) rs)).

(** ** Notions used to state the properties *)

(** The rate counter of a pair as the store shows it now, its count (0 when
    absent) and its deadline. *)
Definition lock_item (s : GalactusAPI) (g h : string) : option Redis.item :=
  Redis.live (client s) (GuildTokenLock g h).

Definition item_count (o : option Redis.item) : Z :=
  match o with
  | Some it => Redis.value it
  | None => 0
  end.

Definition item_deadline (o : option Redis.item) : option Z :=
  o ≫= Redis.deadline.

(** A pair is blacklisted until [until] when every later call for it that
    the store sees before that time is refused, whatever else happens at
    the gate in between. *)
Definition refused_until (g h : string) (until : Z) (s : GalactusAPI) : Prop :=
  ∀ ops t b,
    (t, g, h, b) ∈ (run_gate ops s).1 → t < until → b = false.

(** The stored counter keeps a pair shut: at or above the limit, with a
    deadline of [until]. *)
Definition shut (g h : string) (until : Z) (s : GalactusAPI) : Prop :=
  Redis.healthy (client s) ∧
  (Redis.clock (client s) < until →
   ∃ v, maxRequests5Seconds s ≤ v ∧
        Redis.strings (client s) !! GuildTokenLock g h
        = Some (Redis.Item v (Some until))).

(** The time a sequence of pauses takes. *)
Fixpoint total_delay (ds : list N) : Z :=
  match ds with
  | [] => 0
  | d :: ds => Z.of_N d + total_delay ds
  end.

(** The counter, if it is there, outlives the coming pauses. *)
Definition outlives (s : GalactusAPI) (g h : string) (span : Z) : Prop :=
  match lock_item s g h with
  | Some it =>
      match Redis.deadline it with
      | Some dl => Redis.clock (client s) + span < dl
      | None => True
      end
  | None => True
  end.

(** A store with nothing in it at time 0, and a service on it. *)
Definition empty_store (faults : list bool) : Redis.client :=
  Redis.Client 0 ∅ ∅ faults.

Definition fresh_api (faults : list bool) (maxReq : Z) : GalactusAPI :=
  MkAPI (empty_store faults) ∅ maxReq [].

(** The members of the guild's token set. *)
Definition members (s : GalactusAPI) (g : string) : list string :=
  default [] (Redis.sets (client s) !! GuildTokensKey g).

(** The state after the stale-membership removal, and after the
    rate-limited notice. *)
Definition after_srem (g h : string) (s : GalactusAPI) : GalactusAPI :=
  (on_client (Redis.SRem (GuildTokensKey g) h) s).2.

Definition after_skip (s : GalactusAPI) : GalactusAPI :=
  (log_line LogSecondarySkipped s).2.

(** A guild with two tokens in its set, of which only the second has a
    session. *)
Definition guild_api : GalactusAPI :=
  MkAPI (Redis.Client 0 ∅ {[GuildTokensKey "100" := ["h1"; "h2"]]} [])
        {["h2" := SessionOf "token2"]} 7 [].

(** The entries the handler has still to feed. *)
Definition feeding_rest (m : mpc) : list Job :=
  match m with
  | Feeding rest => rest
  | _ => []
  end.

(** Entries fed or still to be fed that no worker has taken. *)
Definition queued (p : Pool) : list Job :=
  feeding_rest (main p) ++ tasksChannel p.

(** The entry a worker is busy with. *)
Definition wjob (w : wpc) : option Job :=
  match w with
  | Receiving | Exited => None
  | CallSecondary j | IncWorker j | CallCapture j | IncCapture j
  | CallPrimary j | CheckErr j | IncOfficial j | CallDone j => Some j
  end.

(** What has happened to a worker's entry by the time the worker is at a
    program point. *)
Definition wstage_ok (w : wpc) (h : list Mark) : Prop :=
  match w with
  | CallSecondary _ => h = []
  | IncWorker _ | CallCapture _ => h = [Tried Secondary]
  | IncCapture _ | CallPrimary _ => h = [Tried Secondary; Tried CaptureBot]
  | CheckErr _ | IncOfficial _ =>
      h = [Tried Secondary; Tried CaptureBot; Tried Primary]
  | CallDone _ => h ∈ complete_histories
  | Receiving | Exited => True
  end.

(** Workers with an entry in hand count towards [wg]; those that have not
    yet charged it, or given it up, are unfinished. *)
Definition holding (w : wpc) : Z :=
  match wjob w with
  | Some _ => 1
  | None => 0
  end.

Definition unfinished (w : wpc) : Z :=
  match w with
  | Receiving | Exited | CallDone _ => 0
  | _ => 1
  end.

Definition total (f : wpc → Z) (ws : list wpc) : Z :=
  foldr (λ w acc, f w + acc) 0 ws.

(** The positions of the entries the workers are busy with. *)
Definition busy_entries (p : Pool) : list nat := (omap wjob (workers p)).*1.

(** The invariant of a running batch of [N] entries. *)
Record pool_inv (N : nat) (p : Pool) : Prop := MkPoolInv {
  inv_nodup : NoDup ((queued p).*1 ++ busy_entries p);
  inv_queued : ∀ j, j ∈ queued p →
    (j.1 < N)%nat ∧ history j.1 (events p) = [];
  inv_workers : ∀ w j, w ∈ workers p → wjob w = Some j →
    (j.1 < N)%nat ∧ wstage_ok w (history j.1 (events p));
  inv_others : ∀ i, i ∉ (queued p).*1 → i ∉ busy_entries p →
    if decide (i < N)%nat then history i (events p) ∈ complete_histories
    else history i (events p) = [];
  inv_wg : wg p = Z.of_nat (length (tasksChannel p)) + total holding (workers p);
  inv_total :
    Z.of_nat N
    = Z.of_nat (length (queued p)) + total unfinished (workers p)
      + charges Secondary (events p) + charges CaptureBot (events p)
      + charges Primary (events p) + unaccounted (events p);
  inv_counts :
    mdsc p = MkCounts (charges Secondary (events p)) (charges CaptureBot (events p))
                      (charges Primary (events p)) 0;
  inv_main :
    match main p with
    | Feeding _ | Waiting => True
    | Closing | Responding => wg p = 0 ∧ queued p = []
    | Responded r =>
        wg p = 0 ∧ queued p = [] ∧ r = MkResponse StatusOK (CountsJSON (mdsc p))
    end
}.

(** A batch of two: the first entry goes through a secondary bot, the
    second falls through all three tiers. *)
Definition two_users : list UserModify :=
  [MkUserModify 42 true false; MkUserModify 43 false false].

Definition two_users_schedule : list action :=
  [RunMain; RunMain; RunMain;
   RunWorker 0 true; RunWorker 1 true;
   RunWorker 0 true; RunWorker 1 false; RunWorker 0 true; RunWorker 1 false;
   RunWorker 1 false; RunWorker 1 true; RunWorker 0 true; RunWorker 1 true;
   RunMain; RunMain; RunMain].

Definition two_users_final : Pool :=
  Eval vm_compute in
    default (start_workers 2 two_users)
            (exec two_users_schedule (start_workers 2 two_users)).

(** A worker that has nothing in hand. *)
Definition idle (w : wpc) : Prop := w = Receiving ∨ w = Exited.

Definition zero_response : Response := MkResponse StatusOK (CountsJSON no_counts).

(** What holds throughout the run of a batch without entries. *)
Definition empty_inv (n : nat) (p : Pool) : Prop :=
  mdsc p = no_counts ∧ events p = [] ∧ tasksChannel p = [] ∧ wg p = 0
  ∧ Forall idle (workers p) ∧ length (workers p) = n
  ∧ match main p with
    | Feeding rest => rest = []
    | Responded r => r = zero_response
    | _ => True
    end.

(** A request for guild 100 whose body decodes to a batch without users. *)
Definition empty_request : Request :=
  MkRequest "100" "abc" (inr "{}")
            (λ _, inr (MkUserModifyRequest 0 [])).

Definition default_env : Env := MkEnv "" "".

(** The entries of a batch of [N] with a given mark in their history. *)
Definition marked_entries (m : Mark) (N : nat) (evs : list Event) : Z :=
  Z.of_nat (length (filter (λ i, m ∈ history i evs) (seq 0 N))).

Definition occurrences (m : Mark) (h : list Mark) : nat :=
  length (filter (λ x, x = m) h).

(** ** Further notions: the rate gate over time *)

(** No stored value of the pair's counter is negative. *)
Definition counter_nonneg (g h : string) (s : GalactusAPI) : Prop :=
  ∀ it, Redis.strings (client s) !! GuildTokenLock g h = Some it → 0 ≤ Redis.value it.

(** The stored counter keeps a pair shut for good: at or above the limit
    and without a deadline. *)
Definition shut_for_good (g h : string) (s : GalactusAPI) : Prop :=
  Redis.healthy (client s) ∧
  ∃ v, maxRequests5Seconds s ≤ v ∧
       Redis.strings (client s) !! GuildTokenLock g h = Some (Redis.Item v None).

(** Every call for the pair, whenever it comes, is refused. *)
Definition refused_always (g h : string) (s : GalactusAPI) : Prop :=
  ∀ ops t b, (t, g, h, b) ∈ (run_gate ops s).1 → b = false.

(** ** Further notions: what a selection of a secondary session does *)

(** The tokens the loop of [getAnySession] may visit when entered at index
    [i]: those before the index reaches [limit], all of them when it never
    does (a limit below the index). *)
Definition cands_from (i : nat) (limit : Z) (tokens : list string) : list string :=
  if decide (Z.of_nat i ≤ limit)
  then take (Z.to_nat (limit - Z.of_nat i)) tokens
  else tokens.

Definition candidates (limit : Z) (tokens : list string) : list string :=
  cands_from 0 limit tokens.

(** A token whose next increment stays below the limit, and a token with a
    session in the registry. *)
Definition under_quota (s : GalactusAPI) (g h : string) : bool :=
  item_count (lock_item s g h) + 1 <? maxRequests5Seconds s.

Definition registered (s : GalactusAPI) (h : string) : bool :=
  bool_decide (is_Some (activeSessions s !! h)).

(** The first candidate that is under quota and registered. *)
Fixpoint chosen (s : GalactusAPI) (g : string) (cands : list string) : option string :=
  match cands with
  | [] => None
  | h :: rest =>
      if under_quota s g h && registered s h then Some h else chosen s g rest
  end.

(** The candidates up to and including the chosen one. *)
Fixpoint visited (s : GalactusAPI) (g : string) (cands : list string) : list string :=
  match cands with
  | [] => []
  | h :: rest =>
      if under_quota s g h && registered s h then [h] else h :: visited s g rest
  end.

(** The visited tokens that are under quota but have no session. *)
Definition stale (s : GalactusAPI) (g : string) (cands : list string) : list string :=
  filter (λ h, Is_true (under_quota s g h && negb (registered s h)))
         (visited s g cands).

(** What the selection answers when [chosen] picks [o]. *)
Definition selection_answer (s : GalactusAPI) (o : option string)
  : option Session * string :=
  match o with
  | Some h => (activeSessions s !! h, h)
  | None => (None, "")
  end.

(** The counter of a visited token afterwards. *)
Definition charged_item (s : GalactusAPI) (g h : string) : Redis.item :=
  Redis.Item (item_count (lock_item s g h) + 1)
    (if under_quota s g h
     then Some (Redis.clock (client s) + 5 * Time.Second)
     else item_deadline (lock_item s g h)).

(** ** The session registry *)

(** SADD: adds a member to a set key unless it is there already. *)
Definition Redis_SAdd (key member : string) (c : Redis.client)
  : option error * Redis.client :=
  let '(f, c) := Redis.next_fault c in
  if f then (Some StoreError, c)
  else
    let ms := default [] (Redis.sets c !! key) in
    (None, Redis.with_sets c
             (<[key := if decide (member ∈ ms) then ms else ms ++ [member]]>
                (Redis.sets c))).

(** HGETALL on the hash of all tokens. The hash is not among the keys the
    store record holds; its fields, in the order the caller ranges over
    them, are handed in as [stored]. *)
Definition Redis_HGetAll (stored : list (string * string)) (c : Redis.client)
  : (list (string * string) * option error) * Redis.client :=
  let '(f, c) := Redis.next_fault c in
  if f then (([], Some StoreError), c) else ((stored, None), c).

Definition register (k : string) (sess : Session) : M unit :=
  λ s, (tt, MkAPI (client s) (<[k := sess]> (activeSessions s))
                  (maxRequests5Seconds s) (stdlog s)).

Section Sessions.

(** What the registry code takes from its libraries: the hex SHA-256
    digest, the token lock of the utils package (two commands on the
    store), and the chat-service client's constructor and [Open]. *)
Variable sha256_hex : string → string.
Variable WaitForToken : string → Redis.client → Redis.client.
Variable LockForToken : string → Redis.client → Redis.client.
Variable discordgo_New : string → error + Session.
Variable Session_Open : Session → option error.

Definition hashToken (token : string) : string := sha256_hex token.

(** The notice logged on success is not kept in [stdlog]. *)
Definition openAndStartSessionWithToken (botToken : string) : M bool :=
  let k := hashToken botToken in
  found <~ lookup_session k ;;
  match found with
  | Some _ => ret false
  | None =>
      on_client (λ c, (tt, WaitForToken botToken c)) ;;;
      on_client (λ c, (tt, LockForToken botToken c)) ;;;
      match discordgo_New ("Bot " +:+ botToken) with
      | inl e => log_line (LogErr e) ;;; ret false
      | inr sess =>
          match Session_Open sess with
          | Some e => log_line (LogErr e) ;;; ret false
          | None => register k sess ;;; ret true
          end
      end
  end.

(** The range over the stored credentials. *)
Fixpoint start_each (tokens : list string) : M unit :=
  match tokens with
  | [] => ret tt
  | v :: rest => openAndStartSessionWithToken v ;;; start_each rest
  end.

Definition PopulateAndStartSessions (stored : list (string * string)) : M unit :=
  r <~ on_client (Redis_HGetAll stored) ;;
  match snd r with
  | Some e => log_line (LogErr e)
  | None => start_each (fst r).*2
  end.

(** A credential that the chat service accepts, and the session it gets. *)
Definition connects (botToken : string) (sess : Session) : Prop :=
  discordgo_New ("Bot " +:+ botToken) = inr sess ∧ Session_Open sess = None.

End Sessions.

(** [Close]: [stopAll] is what the shard manager's [StopAll] returns. *)
Definition Close (stopAll : option error) : M unit :=
  log_if_err stopAll ;;;
  λ s, (tt, MkAPI (client s) ∅ (maxRequests5Seconds s) (stdlog s)).

(** The range of the handler [newGuild] returns, over the keys of the
    registry. The line it logs is not kept in [stdlog]. *)
Fixpoint newGuild_range (hashedToken guildID : string) (keys : list string) : M unit :=
  match keys with
  | [] => ret tt
  | test :: rest =>
      (if decide (hashedToken = test)
       then on_client (Redis_SAdd (GuildTokensKey guildID) hashedToken) ;;; ret tt
       else ret tt) ;;;
      newGuild_range hashedToken guildID rest
  end.

Definition newGuild (hashedToken guildID : string) : M unit :=
  λ s, newGuild_range hashedToken guildID (map_to_list (activeSessions s)).*1 s.

(** A service with one registered token and nothing in the store. *)
Definition registry_api : GalactusAPI :=
  MkAPI (empty_store []) {["h2" := SessionOf "token2"]} 7 [].

(** ** A batch without workers, and the progress of a batch with workers *)

(** What holds of a non-empty batch for which no worker was started: every
    entry fed stays in the channel, and [wg] counts them. *)
Definition starved (p : Pool) : Prop :=
  workers p = [] ∧ wg p = Z.of_nat (length (tasksChannel p))
  ∧ mdsc p = no_counts ∧ events p = []
  ∧ match main p with
    | Feeding rest => rest ≠ [] ∨ tasksChannel p ≠ []
    | Waiting => tasksChannel p ≠ []
    | _ => False
    end.

(** How many steps a worker at a program point still takes before it is
    back at the channel, and the handler before it has responded. *)
Definition rank (w : wpc) : Z :=
  match w with
  | Receiving | Exited => 0
  | CallSecondary _ => 7
  | CallCapture _ => 6
  | CallPrimary _ => 5
  | CheckErr _ => 4
  | IncWorker _ | IncCapture _ | IncOfficial _ => 2
  | CallDone _ => 1
  end.

Definition mrank (m : mpc) : Z :=
  match m with
  | Feeding _ => 4
  | Waiting => 3
  | Closing => 2
  | Responding => 1
  | Responded _ => 0
  end.

(** A bound on the steps the batch still takes. *)
Definition potential (p : Pool) : Z :=
  9 * Z.of_nat (length (feeding_rest (main p)))
  + 8 * Z.of_nat (length (tasksChannel p))
  + total rank (workers p) + mrank (main p).

(** A batch with workers: the channel is closed only after [wg.Wait()]
    has returned, and no worker leaves its loop before that. *)
Definition open_pool (p : Pool) : Prop :=
  workers p ≠ []
  ∧ match main p with
    | Feeding _ | Waiting | Closing => chanClosed p = false
    | Responding | Responded _ => True
    end
  ∧ (chanClosed p = false → Forall (λ w, w ≠ Exited) (workers p)).

(** The batch of two after the handler has fed both entries and the
    workers have each taken one and tried the secondary bots. *)
Definition two_users_midway : Pool :=
  Eval vm_compute in
    default (start_workers 2 two_users)
            (exec (take 7 two_users_schedule) (start_workers 2 two_users)).

(** * Properties *)

(** ** The rate gate on a healthy store *)

Ltac unfold_m :=
  unfold bind, ret, on_client, log_if_err, log_line, get_maxRequests,
    lookup_session, tick_api in *.

Lemma live_insert_eq c k it m :
  Redis.live (Redis.with_strings c (<[k := it]> m)) k
  = if Redis.fresh (Redis.clock c) it then Some it else None.
Proof.
  unfold Redis.live, Redis.with_strings. simpl. by rewrite lookup_insert_eq.
Qed.

Lemma live_fresh c k it :
  Redis.live c k = Some it → Redis.fresh (Redis.clock c) it = true.
Proof.
  unfold Redis.live. destruct (Redis.strings c !! k) as [it'|]; [|done].
  destruct (Redis.fresh (Redis.clock c) it') eqn:E; [|done]. by intros [= <-].
Qed.

(** The whole effect of one admission on a healthy store. *)
Lemma admit_healthy g h s :
  Redis.healthy (client s) →
  let k := GuildTokenLock g h in
  let before := lock_item s g h in
  let post := item_count before + 1 in
  let b := post <? maxRequests5Seconds s in
  let dl := if b then Some (Redis.clock (client s) + 5 * Time.Second)
            else item_deadline before in
  IncrAndTestGuildTokenComboLock g h s
  = (b, MkAPI (Redis.Client (Redis.clock (client s))
                 (<[k := Redis.Item post dl]> (Redis.strings (client s)))
                 (Redis.sets (client s)) [])
              (activeSessions s) (maxRequests5Seconds s)
              (stdlog s ++ [LogTokenCount h g post b])).
Proof.
  destruct s as [[clk strs sets fl] sess mx lg]. unfold Redis.healthy, lock_item.
  simpl. intros ->.
  unfold IncrAndTestGuildTokenComboLock. unfold_m. simpl.
  unfold Redis.Incr, Redis.next_fault. simpl.
  set (k := GuildTokenLock g h).
  destruct (Redis.live (Redis.Client clk strs sets []) k) as [it|] eqn:Hl; simpl.
  - pose proof (live_fresh _ _ _ Hl) as Hf. simpl in Hf.
    destruct (Redis.value it + 1 <? mx) eqn:Hb; simpl; [|reflexivity].
    unfold Redis.Expire, Redis.next_fault. simpl.
    unfold Redis.with_strings at 1. simpl.
    change (Redis.Client clk (<[k:=Redis.Item (Redis.value it + 1) (Redis.deadline it)]> strs) sets [])
      with (Redis.with_strings (Redis.Client clk strs sets [])
              (<[k:=Redis.Item (Redis.value it + 1) (Redis.deadline it)]> strs)).
    rewrite live_insert_eq. simpl.
    unfold Redis.fresh in Hf |- *. simpl. rewrite Hf. simpl.
    unfold Redis.with_strings. simpl. by rewrite insert_insert_eq.
  - change (0 + 1) with 1.
    destruct (1 <? mx) eqn:Hb; simpl; [|reflexivity].
    unfold Redis.Expire, Redis.next_fault. simpl.
    change (Redis.with_strings (Redis.Client clk strs sets []) (<[k:=Redis.Item 1 None]> strs))
      with (Redis.with_strings (Redis.Client clk strs sets [])
              (<[k:=Redis.Item 1 None]> strs)).
    rewrite live_insert_eq. simpl.
    unfold Redis.with_strings. simpl. by rewrite insert_insert_eq.
Qed.

Lemma admit_healthy_client g h s :
  Redis.healthy (client s) →
  Redis.healthy (client (IncrAndTestGuildTokenComboLock g h s).2)
  ∧ Redis.clock (client (IncrAndTestGuildTokenComboLock g h s).2)
    = Redis.clock (client s)
  ∧ maxRequests5Seconds (IncrAndTestGuildTokenComboLock g h s).2
    = maxRequests5Seconds s.
Proof. intros H. rewrite (admit_healthy g h s H). by simpl. Qed.

Lemma shut_tick g h until d s :
  shut g h until s → shut g h until (tick_api d s).2.
Proof.
  intros [Hh Hs]. split; [exact Hh|]. simpl. intros Hlt. apply Hs. lia.
Qed.

Lemma shut_live g h until s v :
  Redis.clock (client s) < until →
  Redis.strings (client s) !! GuildTokenLock g h = Some (Redis.Item v (Some until)) →
  lock_item s g h = Some (Redis.Item v (Some until)).
Proof.
  intros Hlt Hk. unfold lock_item, Redis.live. rewrite Hk.
  unfold Redis.fresh. simpl. by rewrite (proj2 (Z.ltb_lt _ _) Hlt).
Qed.

Lemma shut_admit g h until g' h' s :
  shut g h until s →
  shut g h until (IncrAndTestGuildTokenComboLock g' h' s).2
  ∧ (GuildTokenLock g' h' = GuildTokenLock g h →
     Redis.clock (client s) < until →
     (IncrAndTestGuildTokenComboLock g' h' s).1 = false).
Proof.
  intros [Hh Hs]. rewrite (admit_healthy g' h' s Hh). simpl.
  destruct (decide (GuildTokenLock g' h' = GuildTokenLock g h)) as [Heq|Hne].
  - destruct (Z_lt_dec (Redis.clock (client s)) until) as [Hlt|Hge].
    + destruct (Hs Hlt) as (v & Hv & Hk).
      assert (Hl : lock_item s g' h' = Some (Redis.Item v (Some until))).
      { unfold lock_item. rewrite Heq. by apply shut_live. }
      rewrite Hl. simpl.
      assert (Hb : (v + 1 <? maxRequests5Seconds s) = false) by (apply Z.ltb_ge; lia).
      rewrite Hb. split; [|done]. split; [done|]. simpl. intros _.
      exists (v + 1). split; [lia|]. rewrite Heq. by rewrite lookup_insert_eq.
    + split; [|intros; lia]. split; [done|]. simpl. intros; lia.
  - split; [|done]. split; [done|]. simpl. intros Hlt.
    destruct (Hs Hlt) as (v & Hv & Hk). exists v. split; [done|].
    by rewrite lookup_insert_ne.
Qed.

Lemma shut_refused g h until s : shut g h until s → refused_until g h until s.
Proof.
  intros Hs ops. revert s Hs.
  induction ops as [|[d|g' h'] ops IH]; intros s Hs t b; simpl.
  - unfold_m. simpl. by intros ?%elem_of_nil.
  - unfold bind at 1. simpl. apply IH. by apply (shut_tick g h until d s).
  - unfold bind at 1.
    destruct (shut_admit g h until g' h' s Hs) as [Hs' Hb].
    destruct (IncrAndTestGuildTokenComboLock g' h' s) as [b' s'] eqn:Ha.
    simpl in Hs', Hb. unfold bind at 1.
    destruct (run_gate ops s') as [rs s''] eqn:Hr. unfold ret. simpl.
    intros [Hhd|Htl]%elem_of_cons Hlt.
    + injection Hhd as -> -> -> ->. by apply Hb.
    + apply (IH s' Hs' t b); [|done]. by rewrite Hr.
Qed.

(** The state a blacklist leaves on a healthy store. *)
Lemma blacklist_healthy g h d s :
  Redis.healthy (client s) → 0 < d →
  BlacklistTokenForDuration g h d s
  = (None, MkAPI (Redis.Client (Redis.clock (client s))
                    (<[GuildTokenLock g h :=
                         Redis.Item (maxRequests5Seconds s)
                                    (Some (Redis.clock (client s) + d))]>
                       (Redis.strings (client s)))
                    (Redis.sets (client s)) [])
                 (activeSessions s) (maxRequests5Seconds s) (stdlog s)).
Proof.
  destruct s as [[clk strs sets fl] sess mx lg]. unfold Redis.healthy. simpl.
  intros -> Hd. unfold BlacklistTokenForDuration. unfold_m. simpl.
  unfold Redis.Set_, Redis.next_fault. simpl.
  by rewrite (proj2 (Z.ltb_lt _ _) Hd).
Qed.

Lemma blacklist_shut g h d s :
  Redis.healthy (client s) → 0 < d →
  shut g h (Redis.clock (client s) + d) (BlacklistTokenForDuration g h d s).2.
Proof.
  intros Hh Hd. rewrite (blacklist_healthy g h d s Hh Hd). simpl.
  split; [done|]. simpl. intros _. exists (maxRequests5Seconds s).
  split; [lia|]. by rewrite lookup_insert_eq.
Qed.

(** After an admission the counter is live, holds the incremented value,
    and has a fresh 5-second deadline exactly when the call was admitted. *)
Lemma admit_lock_after g h s :
  Redis.healthy (client s) →
  let post := item_count (lock_item s g h) + 1 in
  let r := IncrAndTestGuildTokenComboLock g h s in
  lock_item r.2 g h
  = Some (Redis.Item post
            (if r.1 then Some (Redis.clock (client s) + 5 * Time.Second)
             else item_deadline (lock_item s g h))).
Proof.
  intros Hh. simpl. rewrite (admit_healthy g h s Hh). simpl.
  unfold lock_item at 1, Redis.live. simpl. rewrite lookup_insert_eq.
  destruct (item_count (lock_item s g h) + 1 <? maxRequests5Seconds s).
  - unfold Redis.fresh. simpl.
    assert (Hlt : Redis.clock (client s) < Redis.clock (client s) + 5 * Time.Second)
      by (unfold Time.Second, Time.Millisecond, Time.Microsecond, Time.Nanosecond; lia).
    by rewrite (proj2 (Z.ltb_lt _ _) Hlt).
  - destruct (lock_item s g h) as [it|] eqn:Hl; [|done].
    unfold item_deadline. simpl. unfold lock_item in Hl.
    apply live_fresh in Hl. unfold Redis.fresh in *. simpl.
    destruct (Redis.deadline it); [|done]. by rewrite Hl.
Qed.

Lemma total_delay_nonneg ds : 0 ≤ total_delay ds.
Proof. induction ds; simpl; lia. Qed.

Lemma lock_item_tick g h d s span :
  outlives s g h span → Z.of_N d ≤ span →
  lock_item (tick_api d s).2 g h = lock_item s g h.
Proof.
  unfold outlives, lock_item, tick_api, Redis.live, Redis.tick, Redis.fresh.
  simpl. destruct (Redis.strings (client s) !! GuildTokenLock g h) as [it|]; [|done].
  destruct (Redis.deadline it) as [dl|] eqn:Hdl; [|done].
  destruct (Redis.clock (client s) <? dl) eqn:E.
  - intros Ho Hd. simpl in Ho. rewrite Hdl in Ho. apply Z.ltb_lt in E.
    assert (Hlt : Redis.clock (client s) + Z.of_N d < dl) by lia.
    by rewrite (proj2 (Z.ltb_lt _ _) Hlt).
  - intros _ _. apply Z.ltb_ge in E.
    assert (Hge : dl ≤ Redis.clock (client s) + Z.of_N d) by lia.
    by rewrite (proj2 (Z.ltb_ge _ _) Hge).
Qed.

Lemma admitted_count_cons r rs :
  admitted_count (r :: rs) = (if r.2 then 1 else 0) + admitted_count rs.
Proof.
  unfold admitted_count. rewrite filter_cons.
  destruct r as [x b]. simpl. destruct b; case_decide; try done; simpl; lia.
Qed.

(** The number of admissions in a burst that stays within the counter's
    life: the calls see the values [v+1], [v+2], ... and pass while these
    stay below the limit. *)
Lemma burst_count g h ds :
  ∀ s,
    Redis.healthy (client s) →
    outlives s g h (total_delay ds) →
    total_delay (tail ds) < 5 * Time.Second →
    admitted_count (run_gate (burst g h ds) s).1
    = Z.max 0 (Z.min (Z.of_nat (length ds))
                     (maxRequests5Seconds s - 1 - item_count (lock_item s g h))).
Proof.
  induction ds as [|d ds IH]; intros s Hh Ho Hw.
  - simpl. unfold_m. simpl. unfold admitted_count. simpl. lia.
  - simpl in Hw. change (burst g h (d :: ds)) with (Tick d :: Admit g h :: burst g h ds).
    cbn [run_gate]. unfold bind at 1.
    pose proof (total_delay_nonneg ds) as Hnn.
    assert (Hl1 : lock_item (tick_api d s).2 g h = lock_item s g h).
    { apply (lock_item_tick g h d s (total_delay (d :: ds))); [done|]. simpl. lia. }
    assert (Hh1 : Redis.healthy (client (tick_api d s).2)) by exact Hh.
    assert (Hm1 : maxRequests5Seconds (tick_api d s).2 = maxRequests5Seconds s) by done.
    assert (Hc1 : Redis.clock (client (tick_api d s).2)
                  = Redis.clock (client s) + Z.of_N d) by done.
    destruct (tick_api d s) as [[] s1]. cbn [fst snd] in Hl1, Hh1, Hm1, Hc1.
    unfold bind at 1.
    pose proof (admit_lock_after g h s1 Hh1) as Hafter.
    pose proof (admit_healthy_client g h s1 Hh1) as (Hh2 & Hc2 & Hm2).
    assert (Hb : (IncrAndTestGuildTokenComboLock g h s1).1
                 = (item_count (lock_item s g h) + 1 <? maxRequests5Seconds s)).
    { rewrite (admit_healthy g h s1 Hh1). cbn [fst]. by rewrite Hl1, Hm1. }
    destruct (IncrAndTestGuildTokenComboLock g h s1) as [b s2] eqn:Ha.
    simpl in Hafter, Hh2, Hc2, Hm2, Hb.
    assert (Ho2 : outlives s2 g h (total_delay ds)).
    { unfold outlives. rewrite Hafter. simpl. destruct b.
      - rewrite Hc2. lia.
      - rewrite Hl1. unfold outlives in Ho. unfold item_deadline.
        destruct (lock_item s g h) as [it|]; [|done]. simpl.
        destruct (Redis.deadline it); [|done]. simpl in Ho. lia. }
    assert (Hw2 : total_delay (tail ds) < 5 * Time.Second).
    { destruct ds as [|d' ds']; simpl in *; [|lia].
      unfold Time.Second, Time.Millisecond, Time.Microsecond, Time.Nanosecond; lia. }
    specialize (IH s2 Hh2 Ho2 Hw2).
    unfold bind at 1. destruct (run_gate (burst g h ds) s2) as [rs s3] eqn:Hr.
    unfold ret. simpl. simpl in IH.
    rewrite admitted_count_cons, IH. simpl.
    rewrite Hafter, Hm2, Hm1, Hl1. simpl. subst b.
    destruct (item_count (lock_item s g h) + 1 <? maxRequests5Seconds s) eqn:E.
    + apply Z.ltb_lt in E. lia.
    + apply Z.ltb_ge in E. lia.
Qed.

(** C1: on a store that answers, admit increments the stored counter of
    the pair first, and returns true exactly when the incremented value is
    strictly below MaxReq5s; a true answer leaves the counter with a TTL of
    5 seconds from the call, a false answer leaves the TTL as it was. *)
Theorem admit_increments_then_tests g h s :
  Redis.healthy (client s) →
  let post := item_count (lock_item s g h) + 1 in
  let r := IncrAndTestGuildTokenComboLock g h s in
  item_count (lock_item r.2 g h) = post
  ∧ (r.1 = true ↔ post < maxRequests5Seconds s)
  ∧ (r.1 = true →
     item_deadline (lock_item r.2 g h)
     = Some (Redis.clock (client r.2) + 5 * Time.Second))
  ∧ (r.1 = false →
     item_deadline (lock_item r.2 g h) = item_deadline (lock_item s g h))
  ∧ Redis.clock (client r.2) = Redis.clock (client s).
Proof.
  intros Hh post r.
  pose proof (admit_lock_after g h s Hh) as Hafter.
  pose proof (admit_healthy_client g h s Hh) as (_ & Hclk & _).
  assert (Hb : r.1 = (post <? maxRequests5Seconds s)).
  { unfold r. by rewrite (admit_healthy g h s Hh). }
  fold r in Hafter, Hclk. simpl in Hafter. fold post in Hafter.
  rewrite Hafter. simpl. split; [done|]. split.
  - rewrite Hb. apply Z.ltb_lt.
  - split; [|split; [|done]].
    + intros ->. unfold item_deadline. simpl. by rewrite Hclk.
    + intros ->. by unfold item_deadline.
Qed.

Lemma admit_increments_then_tests_witness :
  let s := fresh_api [] 7 in
  let post := item_count (lock_item s "100" "h1") + 1 in
  let r := IncrAndTestGuildTokenComboLock "100" "h1" s in
  item_count (lock_item r.2 "100" "h1") = post
  ∧ (r.1 = true ↔ post < maxRequests5Seconds s)
  ∧ (r.1 = true →
     item_deadline (lock_item r.2 "100" "h1")
     = Some (Redis.clock (client r.2) + 5 * Time.Second))
  ∧ (r.1 = false →
     item_deadline (lock_item r.2 "100" "h1") = item_deadline (lock_item s "100" "h1"))
  ∧ Redis.clock (client r.2) = Redis.clock (client s).
Proof.
  apply (admit_increments_then_tests "100" "h1" (fresh_api [] 7)). reflexivity.
Defined.

(** C6 (as stated) fails: with MaxReq5s = 0 the increment fails and the
    call is refused. *)
Lemma admit_on_store_error_counterexample :
  let s := fresh_api [true] 0 in
  (Redis.Incr (GuildTokenLock "100" "h1") (client s)).1.2 = Some StoreError
  ∧ (IncrAndTestGuildTokenComboLock "100" "h1" s).1 = false.
Proof. split; reflexivity. Qed.

(** C6 (amended): when the increment fails, the error is logged and the
    call is judged on the zero value the failed command hands back: it is
    admitted exactly when 0 < MaxReq5s, so for every positive limit the
    caller is admitted. *)
Theorem admit_on_store_error g h s e :
  (Redis.Incr (GuildTokenLock g h) (client s)).1.2 = Some e →
  ((IncrAndTestGuildTokenComboLock g h s).1 = true ↔ 0 < maxRequests5Seconds s)
  ∧ LogErr e ∈ stdlog (IncrAndTestGuildTokenComboLock g h s).2.
Proof.
  destruct s as [[clk strs sets fl] sess mx lg]. simpl.
  unfold Redis.Incr, Redis.next_fault. simpl.
  destruct fl as [|[] fl]; simpl; try done. intros [= <-].
  unfold IncrAndTestGuildTokenComboLock. unfold_m. simpl.
  unfold Redis.Incr, Redis.next_fault. simpl.
  destruct (0 <? mx) eqn:E; simpl.
  - apply Z.ltb_lt in E.
    destruct (Redis.Expire _ _ _) as [[e'|] c']; simpl;
      (split; [done|]); set_solver.
  - apply Z.ltb_ge in E. split; [split; [done|lia]|]. set_solver.
Qed.

Lemma admit_on_store_error_witness :
  ((IncrAndTestGuildTokenComboLock "100" "h1" (fresh_api [true] 7)).1 = true
   ↔ 0 < maxRequests5Seconds (fresh_api [true] 7))
  ∧ LogErr StoreError ∈ stdlog (IncrAndTestGuildTokenComboLock "100" "h1" (fresh_api [true] 7)).2.
Proof.
  apply (admit_on_store_error "100" "h1" (fresh_api [true] 7) StoreError).
  reflexivity.
Defined.

(** C5 (as stated) fails: with MaxReq5s = 0 a burst of one call admits
    nobody, which is more than MaxReq5s - 1 = -1. *)
Lemma burst_admissions_counterexample :
  let s := fresh_api [] 0 in
  lock_item s "100" "h1" = None
  ∧ ¬ (admitted_count (run_gate (burst "100" "h1" [0%N]) s).1
       ≤ maxRequests5Seconds s - 1).
Proof. split; [reflexivity|]. intros H. vm_compute in H. by apply H. Qed.

(** C5 (amended): on a store that answers, a burst of k calls for one
    pair that starts with the counter absent and stays within 5 seconds of
    its first call admits min(k, MaxReq5s - 1) callers, none when that is
    negative: at most MaxReq5s - 1 for every limit of at least 1, and 0
    otherwise. *)
Theorem burst_admissions_bounded g h ds s :
  Redis.healthy (client s) →
  lock_item s g h = None →
  total_delay (tail ds) < 5 * Time.Second →
  let n := admitted_count (run_gate (burst g h ds) s).1 in
  n = Z.max 0 (Z.min (Z.of_nat (length ds)) (maxRequests5Seconds s - 1))
  ∧ n ≤ Z.max 0 (maxRequests5Seconds s - 1)
  ∧ (1 ≤ maxRequests5Seconds s → n ≤ maxRequests5Seconds s - 1).
Proof.
  intros Hh Habs Hw n.
  assert (Hn : n = Z.max 0 (Z.min (Z.of_nat (length ds)) (maxRequests5Seconds s - 1))).
  { unfold n. rewrite (burst_count g h ds s Hh); [|by unfold outlives; rewrite Habs|done].
    rewrite Habs. simpl. f_equal. f_equal. lia. }
  split; [done|]. lia.
Qed.

Lemma burst_admissions_bounded_witness :
  let s := fresh_api [] 3 in
  let ds := [0; 1000; 1000; 1000]%N in
  let n := admitted_count (run_gate (burst "100" "h1" ds) s).1 in
  n = Z.max 0 (Z.min (Z.of_nat (length ds)) (maxRequests5Seconds s - 1))
  ∧ n ≤ Z.max 0 (maxRequests5Seconds s - 1)
  ∧ (1 ≤ maxRequests5Seconds s → n ≤ maxRequests5Seconds s - 1).
Proof.
  apply (burst_admissions_bounded "100" "h1" [0; 1000; 1000; 1000]%N (fresh_api [] 3));
    reflexivity.
Defined.

(** A timeout of the capture bridge leaves the sentinel shut for the
    blacklist duration, counted from the end of the wait. *)
Lemma capture_timeout_shut sentinel g cc gid timeout request ack coin s :
  Redis.healthy (client s) →
  select_ready timeout ack coin = TimerFired →
  let c := attemptOnCaptureBot sentinel g cc gid timeout request ack coin s in
  c.1.1 = false
  ∧ closed c.1.2 = true
  ∧ Redis.clock (client c.2) = Redis.clock (client s) + Z.max 0 timeout
  ∧ shut g sentinel
      (Redis.clock (client c.2) + UnresponsiveCaptureBlacklistDuration) c.2.
Proof.
  intros Hh Hsel c.
  assert (Hc : c = ((false, PubSub_Close (MkPubSub ("ack:" +:+ cc) false)),
                    (BlacklistTokenForDuration g sentinel
                       UnresponsiveCaptureBlacklistDuration
                       (tick_api (Z.to_N timeout) s).2).2)).
  { unfold c, attemptOnCaptureBot, waitForAck, ack_wait_time. rewrite Hsel.
    unfold bind, ret. simpl.
    by destruct (BlacklistTokenForDuration _ _ _ _). }
  rewrite Hc. clear Hc c. cbn [fst snd].
  set (s1 := (tick_api (Z.to_N timeout) s).2).
  assert (Hh1 : Redis.healthy (client s1)) by exact Hh.
  assert (Hc1 : Redis.clock (client s1) = Redis.clock (client s) + Z.max 0 timeout).
  { unfold s1. simpl. lia. }
  assert (H5 : 0 < UnresponsiveCaptureBlacklistDuration) by reflexivity.
  pose proof (blacklist_shut g sentinel _ s1 Hh1 H5) as Hs.
  assert (Hc2 : Redis.clock (client (BlacklistTokenForDuration g sentinel
                   UnresponsiveCaptureBlacklistDuration s1).2)
                = Redis.clock (client s1)).
  { by rewrite (blacklist_healthy g sentinel _ s1 Hh1 H5). }
  split; [done|]. split; [done|]. rewrite Hc2. split; [done|]. done.
Qed.

(** C4: on a store that answers, a blacklist with a positive duration
    stores MaxReq5s under the pair's counter with that TTL, and from then on
    every admit for the pair is refused until the TTL has elapsed, whatever
    other calls reach the gate in between; a timeout of the capture bridge
    blacklists the capture sentinel for 5 minutes, so every admit on the
    sentinel is refused for the following 5 minutes. *)
Theorem blacklist_refuses_until_expiry g h d s :
  Redis.healthy (client s) → 0 < d →
  let r := BlacklistTokenForDuration g h d s in
  let now := Redis.clock (client s) in
  r.1 = None
  ∧ lock_item r.2 g h = Some (Redis.Item (maxRequests5Seconds s) (Some (now + d)))
  ∧ refused_until g h (now + d) r.2
  ∧ UnresponsiveCaptureBlacklistDuration = 5 * Time.Minute
  ∧ ∀ sentinel connectCode gid timeout request ack coin,
      select_ready timeout ack coin = TimerFired →
      let c := attemptOnCaptureBot sentinel g connectCode gid timeout request
                 ack coin s in
      let t := Redis.clock (client c.2) in
      c.1.1 = false
      ∧ closed c.1.2 = true
      ∧ t = now + Z.max 0 timeout
      ∧ refused_until g sentinel (t + 5 * Time.Minute) c.2.
Proof.
  intros Hh Hd r now. subst r now.
  pose proof (blacklist_shut g h d s Hh Hd) as Hshut.
  rewrite (blacklist_healthy g h d s Hh Hd) in *. simpl.
  split; [done|]. split.
  { unfold lock_item, Redis.live. simpl. rewrite lookup_insert_eq.
    unfold Redis.fresh. simpl.
    assert (Hlt : Redis.clock (client s) < Redis.clock (client s) + d) by lia.
    by rewrite (proj2 (Z.ltb_lt _ _) Hlt). }
  split; [by apply shut_refused|]. split; [reflexivity|].
  intros sentinel cc gid timeout request ack coin Hsel.
  destruct (capture_timeout_shut sentinel g cc gid timeout request ack coin s Hh Hsel)
    as (Hres & Hcl & Hclk & Hsh).
  cbv zeta. split; [done|]. split; [done|]. split; [done|].
  by apply shut_refused.
Qed.

Lemma blacklist_refuses_until_expiry_witness :
  let s := fresh_api [] 7 in
  let r := BlacklistTokenForDuration "100" "h1" (30 * Time.Second) s in
  let now := Redis.clock (client s) in
  r.1 = None
  ∧ lock_item r.2 "100" "h1"
    = Some (Redis.Item (maxRequests5Seconds s) (Some (now + 30 * Time.Second)))
  ∧ refused_until "100" "h1" (now + 30 * Time.Second) r.2
  ∧ UnresponsiveCaptureBlacklistDuration = 5 * Time.Minute
  ∧ ∀ sentinel connectCode gid timeout request ack coin,
      select_ready timeout ack coin = TimerFired →
      let c := attemptOnCaptureBot sentinel "100" connectCode gid timeout request
                 ack coin s in
      let t := Redis.clock (client c.2) in
      c.1.1 = false
      ∧ closed c.1.2 = true
      ∧ t = now + Z.max 0 timeout
      ∧ refused_until "100" sentinel (t + 5 * Time.Minute) c.2.
Proof.
  apply (blacklist_refuses_until_expiry "100" "h1" (30 * Time.Second) (fresh_api [] 7));
    reflexivity.
Defined.

(** ** Selecting a secondary session *)

(** One turn of the loop. *)
Lemma getAnySession_from_cons i g h rest limit s :
  getAnySession_from i g (h :: rest) limit s
  = if Z.of_nat i =? limit then ((None, ""), s)
    else
      let a := IncrAndTestGuildTokenComboLock g h s in
      if a.1 then
        match activeSessions a.2 !! h with
        | Some x => ((Some x, h), a.2)
        | None => getAnySession_from (S i) g rest limit (after_srem g h a.2)
        end
      else getAnySession_from (S i) g rest limit (after_skip a.2).
Proof.
  cbn [getAnySession_from]. destruct (Z.of_nat i =? limit); [done|].
  unfold bind at 1. destruct (IncrAndTestGuildTokenComboLock g h s) as [[] s1]; simpl.
  - unfold bind at 1, lookup_session. destruct (activeSessions s1 !! h); [done|].
    unfold bind, after_srem.
    by destruct (on_client (Redis.SRem (GuildTokensKey g) h) s1).
  - by unfold bind, after_skip, log_line.
Qed.

Lemma append_inj_l (p a b : string) : p +:+ a = p +:+ b → a = b.
Proof. induction p as [|c p IH]; simpl; [done|]. intros [= H]. by apply IH. Qed.

Lemma GuildTokenLock_inj g h h' : GuildTokenLock g h = GuildTokenLock g h' → h = h'.
Proof.
  unfold GuildTokenLock. intros H.
  by do 3 apply append_inj_l in H.
Qed.

Lemma faults_admit g h s :
  Redis.healthy (client s) →
  let s1 := (IncrAndTestGuildTokenComboLock g h s).2 in
  Redis.healthy (client s1)
  ∧ Redis.clock (client s1) = Redis.clock (client s)
  ∧ activeSessions s1 = activeSessions s
  ∧ maxRequests5Seconds s1 = maxRequests5Seconds s
  ∧ Redis.sets (client s1) = Redis.sets (client s)
  ∧ (∀ k, k ≠ GuildTokenLock g h →
          Redis.strings (client s1) !! k = Redis.strings (client s) !! k).
Proof.
  intros Hh. simpl. rewrite (admit_healthy g h s Hh). simpl.
  repeat split. intros k Hk. by rewrite lookup_insert_ne.
Qed.

Lemma after_srem_healthy g h s :
  Redis.healthy (client s) →
  let s2 := after_srem g h s in
  Redis.healthy (client s2)
  ∧ Redis.clock (client s2) = Redis.clock (client s)
  ∧ activeSessions s2 = activeSessions s
  ∧ maxRequests5Seconds s2 = maxRequests5Seconds s
  ∧ Redis.strings (client s2) = Redis.strings (client s)
  ∧ stdlog s2 = stdlog s
  ∧ members s2 g = filter (λ m, m ≠ h) (members s g).
Proof.
  destruct s as [[clk strs sets fl] sess mx lg]. unfold Redis.healthy. simpl.
  intros ->. unfold after_srem, on_client, Redis.SRem, Redis.next_fault, members.
  simpl. destruct (sets !! GuildTokensKey g) as [ms|] eqn:E; simpl.
  - repeat split. by rewrite lookup_insert_eq.
  - repeat split. by rewrite E.
Qed.

(** What a run of the loop leaves alone on a healthy store. *)
Lemma getAnySession_from_frame g limit tokens :
  ∀ i s,
    Redis.healthy (client s) →
    let r := getAnySession_from i g tokens limit s in
    Redis.healthy (client r.2)
    ∧ Redis.clock (client r.2) = Redis.clock (client s)
    ∧ activeSessions r.2 = activeSessions s
    ∧ maxRequests5Seconds r.2 = maxRequests5Seconds s
    ∧ (∀ h, h ∉ tokens →
            Redis.strings (client r.2) !! GuildTokenLock g h
            = Redis.strings (client s) !! GuildTokenLock g h)
    ∧ (∀ x, x ∈ members r.2 g → x ∈ members s g)
    ∧ (∀ x t, r.1 = (Some x, t) → t ∈ tokens ∧ activeSessions s !! t = Some x).
Proof.
  induction tokens as [|h rest IH]; intros i s Hh.
  - simpl. unfold ret. simpl. repeat split; done.
  - cbv zeta. rewrite getAnySession_from_cons.
    destruct (Z.of_nat i =? limit); [simpl; repeat split; done|].
    destruct (faults_admit g h s Hh) as (Hh1 & Hc1 & Hs1 & Hm1 & Hsets1 & Hk1).
    cbv zeta.
    destruct (IncrAndTestGuildTokenComboLock g h s) as [b s1]. simpl in *.
    assert (Hfr : ∀ h', h' ∉ h :: rest →
              Redis.strings (client s1) !! GuildTokenLock g h'
              = Redis.strings (client s) !! GuildTokenLock g h').
    { intros h' Hn. apply Hk1. intros Heq%GuildTokenLock_inj. set_solver. }
    assert (Hmem1 : members s1 g = members s g) by (unfold members; by rewrite Hsets1).
    destruct b.
    + destruct (activeSessions s1 !! h) as [x|] eqn:Hx.
      * simpl. repeat split; try done.
        -- by rewrite Hmem1.
        -- injection H as <- <-. set_solver.
        -- injection H as <- <-. by rewrite <- Hs1.
      * destruct (after_srem_healthy g h s1 Hh1) as (Hh2 & Hc2 & Hs2 & Hm2 & Hstr2 & _ & Hmem2).
        destruct (IH (S i) (after_srem g h s1) Hh2) as (A & B & C & D & E & F & G).
        repeat split; try congruence.
        -- intros h' Hn. rewrite E by set_solver. rewrite Hstr2. by apply Hfr.
        -- intros x Hx'. apply F in Hx'. rewrite Hmem2 in Hx'.
           apply list_elem_of_filter in Hx' as [_ Hx']. by rewrite <- Hmem1.
        -- apply G in H as [H _]. set_solver.
        -- apply G in H as [_ H]. congruence.
    + assert (Hh2 : Redis.healthy (client (after_skip s1))) by done.
      destruct (IH (S i) (after_skip s1) Hh2) as (A & B & C & D & E & F & G).
      repeat split; try (simpl in *; congruence).
      * intros h' Hn. rewrite E by set_solver. simpl. by apply Hfr.
      * intros x Hx'. apply F in Hx'. by rewrite <- Hmem1.
      * apply G in H as [H _]. set_solver.
      * apply G in H as [_ H]. simpl in H. congruence.
Qed.

Lemma tried_tokens_app l1 l2 :
  tried_tokens (l1 ++ l2) = tried_tokens l1 ++ tried_tokens l2.
Proof. unfold tried_tokens. apply omap_app. Qed.

(** Every call of the gate logs its counter line, whatever the store does. *)
Lemma admit_log g h s :
  ∃ pre b post,
    stdlog (IncrAndTestGuildTokenComboLock g h s).2
    = stdlog s ++ pre ++ [LogTokenCount h g b.1 b.2] ++ post
    ∧ tried_tokens pre = [] ∧ tried_tokens post = []
    ∧ b.2 = (IncrAndTestGuildTokenComboLock g h s).1.
Proof.
  destruct s as [c sess mx lg].
  unfold IncrAndTestGuildTokenComboLock. unfold_m. simpl.
  destruct (Redis.Incr (GuildTokenLock g h) c) as [[n e] c1]. simpl.
  destruct e as [e|]; simpl; destruct (n <? mx) eqn:E; simpl;
    try destruct (Redis.Expire _ _ c1) as [[e'|] c2]; simpl;
    rewrite <- ?app_assoc; simpl.
  - by exists [LogErr e], (n, true), [LogErr e'].
  - by exists [LogErr e], (n, true), [].
  - by exists [LogErr e], (n, false), [].
  - by exists [], (n, true), [LogErr e'].
  - by exists [], (n, true), [].
  - by exists [], (n, false), [].
Qed.

Lemma admit_tried g h s :
  tried_tokens (stdlog (IncrAndTestGuildTokenComboLock g h s).2)
  = tried_tokens (stdlog s) ++ [h].
Proof.
  destruct (admit_log g h s) as (pre & b & post & -> & Hpre & Hpost & _).
  rewrite !tried_tokens_app, Hpre, Hpost. done.
Qed.

Lemma after_srem_log g h s : stdlog (after_srem g h s) = stdlog s.
Proof.
  unfold after_srem, on_client.
  by destruct (Redis.SRem (GuildTokensKey g) h (client s)).
Qed.

(** The identities a run of the loop tries are the leading tokens, up to
    the limit. *)
Lemma getAnySession_from_tried g limit tokens :
  ∀ i s,
    Z.of_nat i ≤ limit →
    ∃ tried,
      tried_tokens (stdlog (getAnySession_from i g tokens limit s).2)
      = tried_tokens (stdlog s) ++ tried
      ∧ tried `prefix_of` take (Z.to_nat (limit - Z.of_nat i)) tokens.
Proof.
  induction tokens as [|h rest IH]; intros i s Hi.
  - exists []. simpl. unfold ret. simpl. rewrite app_nil_r. split; [done|].
    by rewrite take_nil.
  - rewrite getAnySession_from_cons.
    destruct (Z.of_nat i =? limit) eqn:E.
    { exists []. simpl. rewrite app_nil_r. split; [done|]. apply prefix_nil. }
    apply Z.eqb_neq in E.
    assert (Ht : take (Z.to_nat (limit - Z.of_nat i)) (h :: rest)
                 = h :: take (Z.to_nat (limit - Z.of_nat (S i))) rest).
    { replace (Z.to_nat (limit - Z.of_nat i))
        with (S (Z.to_nat (limit - Z.of_nat (S i)))) by lia. done. }
    rewrite Ht. cbv zeta.
    pose proof (admit_tried g h s) as Ha.
    destruct (IncrAndTestGuildTokenComboLock g h s) as [b s1]. simpl in *.
    assert (HSi : Z.of_nat (S i) ≤ limit) by lia.
    destruct b.
    + destruct (activeSessions s1 !! h) as [x|].
      * exists [h]. simpl. split; [done|]. apply prefix_cons, prefix_nil.
      * destruct (IH (S i) (after_srem g h s1) HSi) as (tried & Hl & Hp).
        exists (h :: tried). rewrite Hl, after_srem_log, Ha, <- app_assoc.
        split; [done|]. by apply prefix_cons.
    + destruct (IH (S i) (after_skip s1) HSi) as (tried & Hl & Hp).
      exists (h :: tried). rewrite Hl. simpl.
      rewrite tried_tokens_app, Ha. simpl. rewrite app_nil_r.
      split; [by rewrite <- app_assoc|]. by apply prefix_cons.
Qed.

Lemma premium_limit_cases tier : premium_limit tier ∈ [0; 1; 3; 10; 100].
Proof.
  unfold premium_limit, PremiumBotConstraints. simpl.
  repeat (rewrite lookup_insert; case_decide; [simpl; set_solver|]).
  rewrite lookup_empty. simpl. set_solver.
Qed.

(** C3: one selection of a secondary session tries at most limit entries
    of the guild's token sequence, the leading ones, where limit is
    PremiumBotConstraints[premium] under the mapping 0:0, 1:0, 2:1, 3:3,
    4:10, 5:100 and 0 for any other tier; with limit = 0 it tries nothing
    and yields no session. *)
Theorem secondary_attempts_bounded premium g tokens s :
  let limit := premium_limit premium in
  let r := getAnySession g tokens limit s in
  (premium_limit 0 = 0 ∧ premium_limit 1 = 0 ∧ premium_limit 2 = 1
   ∧ premium_limit 3 = 3 ∧ premium_limit 4 = 10 ∧ premium_limit 5 = 100)
  ∧ (premium ∉ [0; 1; 2; 3; 4; 5] → limit = 0)
  ∧ (∃ tried,
       tried_tokens (stdlog r.2) = tried_tokens (stdlog s) ++ tried
       ∧ tried `prefix_of` take (Z.to_nat limit) tokens
       ∧ Z.of_nat (length tried) ≤ limit)
  ∧ (limit = 0 → r = ((None, ""), s)).
Proof.
  intros limit r. split; [by repeat split|]. split.
  { intros Hn. unfold limit, premium_limit, PremiumBotConstraints.
    rewrite not_elem_of_list_to_map_1; [done|]. simpl. set_solver. }
  assert (H0 : 0 ≤ limit).
  { pose proof (premium_limit_cases premium) as Hc. fold limit in Hc.
    set_unfold in Hc. lia. }
  split.
  - destruct (getAnySession_from_tried g limit tokens 0%nat s H0) as (tried & Hl & Hp).
    exists tried. split; [exact Hl|]. rewrite Z.sub_0_r in Hp. split; [done|].
    apply prefix_length in Hp. rewrite length_take in Hp. lia.
  - intros Hz. unfold r, getAnySession. destruct tokens as [|h rest]; [done|].
    rewrite getAnySession_from_cons. by rewrite Hz.
Qed.

(** Counter lines the loop adds for admitted identities belong to tokens
    that, if they have no session, are gone from the guild's set. *)
Lemma getAnySession_from_prunes g limit tokens :
  ∀ i s,
    Redis.healthy (client s) →
    ∃ new,
      stdlog (getAnySession_from i g tokens limit s).2 = stdlog s ++ new
      ∧ ∀ h n,
          LogTokenCount h g n true ∈ new →
          activeSessions s !! h = None →
          h ∉ members (getAnySession_from i g tokens limit s).2 g.
Proof.
  induction tokens as [|h0 rest IH]; intros i s Hh.
  - exists []. simpl. unfold ret. simpl. rewrite app_nil_r. split; [done|].
    by intros h n ?%elem_of_nil.
  - rewrite getAnySession_from_cons.
    destruct (Z.of_nat i =? limit).
    { exists []. simpl. rewrite app_nil_r. split; [done|].
      by intros h n ?%elem_of_nil. }
    cbv zeta.
    destruct (faults_admit g h0 s Hh) as (Hh1 & _ & Hs1 & _ & _ & _).
    pose proof (admit_healthy g h0 s Hh) as Ha. simpl in Ha.
    destruct (IncrAndTestGuildTokenComboLock g h0 s) as [b s1]. simpl in *.
    assert (Hlog : stdlog s1
                   = stdlog s ++ [LogTokenCount h0 g (item_count (lock_item s g h0) + 1) b]).
    { injection Ha as Hb ->. simpl. by rewrite Hb. }
    clear Ha. destruct b.
    + destruct (activeSessions s1 !! h0) as [x|] eqn:Hx.
      * eexists. split; [exact Hlog|]. simpl.
        intros h n [= -> _]%list_elem_of_singleton Hnone. congruence.
      * destruct (after_srem_healthy g h0 s1 Hh1)
          as (Hh2 & _ & Hs2 & _ & _ & Hl2 & Hmem2).
        destruct (IH (S i) (after_srem g h0 s1) Hh2) as (new & Hnew & Hpr).
        destruct (getAnySession_from_frame g limit rest (S i) _ Hh2)
          as (_ & _ & _ & _ & _ & Hsub & _).
        eexists. split.
        { rewrite Hnew, Hl2, Hlog, <- app_assoc. done. }
        intros h n [Hhd|Htl]%elem_of_cons Hnone.
        -- injection Hhd as -> _. intros Hin%Hsub. rewrite Hmem2 in Hin.
           by apply list_elem_of_filter in Hin as [? _].
        -- apply (Hpr h n Htl). congruence.
    + assert (Hh2 : Redis.healthy (client (after_skip s1))) by done.
      destruct (IH (S i) (after_skip s1) Hh2) as (new & Hnew & Hpr).
      eexists. split.
      { rewrite Hnew. simpl. rewrite Hlog, <- !app_assoc. done. }
      intros h n [Hhd|[Hhd|Htl]%elem_of_cons]%elem_of_cons Hnone; [done|done|].
      apply (Hpr h n Htl). simpl. congruence.
Qed.

Lemma lock_item_eq s s' g h :
  Redis.clock (client s') = Redis.clock (client s) →
  Redis.strings (client s') !! GuildTokenLock g h
  = Redis.strings (client s) !! GuildTokenLock g h →
  lock_item s' g h = lock_item s g h.
Proof. unfold lock_item, Redis.live. by intros -> ->. Qed.

(** The turn of the loop for an admitted token without a session. *)
Lemma getAnySession_from_stale i g h rest limit s :
  Z.of_nat i ≠ limit →
  (IncrAndTestGuildTokenComboLock g h s).1 = true →
  activeSessions (IncrAndTestGuildTokenComboLock g h s).2 !! h = None →
  getAnySession_from i g (h :: rest) limit s
  = getAnySession_from (S i) g rest limit
      (after_srem g h (IncrAndTestGuildTokenComboLock g h s).2).
Proof.
  intros Hi Ha Hs. rewrite getAnySession_from_cons.
  rewrite (proj2 (Z.eqb_neq _ _) Hi). cbv zeta. by rewrite Ha, Hs.
Qed.

(** C7: on a store that answers, when the loop of the secondary-session
    tier admits a token whose session is absent from the registry, it
    removes that token from the guild's token set in the store and goes on
    with the next entry; the token is still gone when the call returns, and
    this holds for every token the call admits without finding a session. *)
Theorem stale_membership_removed g limit i h rest s :
  Redis.healthy (client s) →
  Z.of_nat i ≠ limit →
  (IncrAndTestGuildTokenComboLock g h s).1 = true →
  activeSessions s !! h = None →
  let s1 := (IncrAndTestGuildTokenComboLock g h s).2 in
  let s2 := after_srem g h s1 in
  let r := getAnySession_from i g (h :: rest) limit s in
  members s2 g = filter (λ m, m ≠ h) (members s g)
  ∧ r = getAnySession_from (S i) g rest limit s2
  ∧ (h ∉ members (r.2) g)
  ∧ ∀ tokens, ∃ new,
      stdlog (getAnySession g tokens limit s).2 = stdlog s ++ new
      ∧ (∀ h' n,
          LogTokenCount h' g n true ∈ new →
          activeSessions s !! h' = None →
          h' ∉ members (getAnySession g tokens limit s).2 g).
Proof.
  intros Hh Hi Ha Hnone s1 s2 r.
  destruct (faults_admit g h s Hh) as (Hh1 & _ & Hs1 & _ & Hsets1 & _).
  fold s1 in Hh1, Hs1, Hsets1.
  destruct (after_srem_healthy g h s1 Hh1) as (Hh2 & _ & _ & _ & _ & _ & Hmem2).
  fold s2 in Hh2, Hmem2.
  assert (Hmem1 : members s1 g = members s g) by (unfold members; by rewrite Hsets1).
  assert (Hr : r = getAnySession_from (S i) g rest limit s2).
  { apply getAnySession_from_stale; [done|done|]. fold s1. by rewrite Hs1. }
  split; [by rewrite Hmem2, Hmem1|]. split; [done|]. split.
  - rewrite Hr.
    destruct (getAnySession_from_frame g limit rest (S i) s2 Hh2)
      as (_ & _ & _ & _ & _ & Hsub & _).
    intros Hin%Hsub. rewrite Hmem2 in Hin.
    by apply list_elem_of_filter in Hin as [? _].
  - intros tokens. by apply getAnySession_from_prunes.
Qed.

Lemma stale_membership_removed_witness :
  let g := "100" in
  let h := "h1" in
  let rest := ["h2"] in
  let s := guild_api in
  let s1 := (IncrAndTestGuildTokenComboLock g h s).2 in
  let s2 := after_srem g h s1 in
  let r := getAnySession_from 0 g (h :: rest) 3 s in
  members s2 g = filter (λ m, m ≠ h) (members s g)
  ∧ r = getAnySession_from 1 g rest 3 s2
  ∧ (h ∉ members (r.2) g)
  ∧ ∀ tokens, ∃ new,
      stdlog (getAnySession g tokens 3 s).2 = stdlog s ++ new
      ∧ (∀ h' n,
          LogTokenCount h' g n true ∈ new →
          activeSessions s !! h' = None →
          h' ∉ members (getAnySession g tokens 3 s).2 g).
Proof.
  apply (stale_membership_removed "100" 3 0 "h1" ["h2"] guild_api);
    [reflexivity | simpl; lia | reflexivity | reflexivity].
Defined.

(** C10: in the loop of the secondary-session tier the counter of the
    pair is incremented and its TTL set to 5 seconds before the registry is
    consulted, so a token that is admitted but has no session has used one
    unit of its quota when the loop moves on, and still has when the call
    returns, although no session of that token is handed out. *)
Theorem stale_entry_consumes_quota g limit i h rest s :
  Redis.healthy (client s) →
  Z.of_nat i ≠ limit →
  (IncrAndTestGuildTokenComboLock g h s).1 = true →
  activeSessions s !! h = None →
  h ∉ rest →
  let s1 := (IncrAndTestGuildTokenComboLock g h s).2 in
  let r := getAnySession_from i g (h :: rest) limit s in
  let used := Redis.Item (item_count (lock_item s g h) + 1)
                (Some (Redis.clock (client s) + 5 * Time.Second)) in
  lock_item s1 g h = Some used
  ∧ activeSessions s1 !! h = None
  ∧ r = getAnySession_from (S i) g rest limit (after_srem g h s1)
  ∧ lock_item r.2 g h = Some used
  ∧ ∀ x, r.1 ≠ (Some x, h).
Proof.
  intros Hh Hi Ha Hnone Hrest s1 r used. subst used.
  destruct (faults_admit g h s Hh) as (Hh1 & Hc1 & Hs1 & _ & _ & _).
  fold s1 in Hh1, Hc1, Hs1.
  pose proof (admit_lock_after g h s Hh) as Hafter. simpl in Hafter.
  rewrite Ha in Hafter. fold s1 in Hafter.
  destruct (after_srem_healthy g h s1 Hh1) as (Hh2 & Hc2 & Hs2 & _ & Hstr2 & _ & _).
  assert (Hr : r = getAnySession_from (S i) g rest limit (after_srem g h s1)).
  { apply getAnySession_from_stale; [done|done|]. fold s1. by rewrite Hs1. }
  destruct (getAnySession_from_frame g limit rest (S i) _ Hh2)
    as (_ & Hc3 & Hs3 & _ & Hfr & _ & Hret).
  rewrite <- Hr in Hc3, Hs3, Hfr, Hret.
  split; [done|]. split; [by rewrite Hs1|]. split; [done|]. split.
  - rewrite <- Hafter. apply lock_item_eq; [congruence|].
    rewrite (Hfr h Hrest). by rewrite Hstr2.
  - intros x Hx. apply Hret in Hx as [Hin _]. done.
Qed.

Lemma stale_entry_consumes_quota_witness :
  let g := "100" in
  let h := "h1" in
  let rest := ["h2"] in
  let s := guild_api in
  let s1 := (IncrAndTestGuildTokenComboLock g h s).2 in
  let r := getAnySession_from 0 g (h :: rest) 3 s in
  let used := Redis.Item (item_count (lock_item s g h) + 1)
                (Some (Redis.clock (client s) + 5 * Time.Second)) in
  lock_item s1 g h = Some used
  ∧ activeSessions s1 !! h = None
  ∧ r = getAnySession_from 1 g rest 3 (after_srem g h s1)
  ∧ lock_item r.2 g h = Some used
  ∧ ∀ x, r.1 ≠ (Some x, h).
Proof.
  apply (stale_entry_consumes_quota "100" 3 0 "h1" ["h2"] guild_api);
    [reflexivity | simpl; lia | reflexivity | reflexivity
    | apply (bool_decide_unpack _); vm_compute; exact I].
Defined.

(** ** The acknowledgement wait *)

(** C8: waitForAck reports success exactly when the payload it receives
    is the string "true": a payload delivered before the timeout decides
    the answer by that comparison, no delivery or a delivery after the
    timeout gives failure, and the subscription is closed on every path;
    without ACK_TIMEOUT_MS the timeout is one second, 1000 ms. *)
Theorem waitForAck_reports pubsub waitTime ack coin :
  let r := waitForAck pubsub waitTime ack coin in
  (r.1 = true ↔ select_ready waitTime ack coin = Received "true")
  ∧ (∀ at_ payload, ack = Some (at_, payload) → at_ < waitTime →
       (r.1 = true ↔ payload = "true"))
  ∧ (ack = None → r.1 = false)
  ∧ (∀ at_ payload, ack = Some (at_, payload) → waitTime < at_ → r.1 = false)
  ∧ closed r.2 = true
  ∧ DefaultCaptureBotTimeout = 1000 * Time.Millisecond
  ∧ (∀ mw, taskTimeout (MkEnv "" mw) = 1000 * Time.Millisecond).
Proof.
  simpl. unfold waitForAck. simpl. split; [|split; [|split; [|split]]].
  - destruct (select_ready waitTime ack coin) as [|p]; [done|].
    rewrite bool_decide_eq_true. split; [by intros ->|by intros [= ->]].
  - intros at_ p -> Hlt. unfold select_ready.
    rewrite (proj2 (Z.ltb_lt _ _) Hlt). apply bool_decide_eq_true.
  - by intros ->.
  - intros at_ p -> Hlt. unfold select_ready.
    assert (H1 : (at_ <? waitTime) = false) by (apply Z.ltb_ge; lia).
    by rewrite H1, (proj2 (Z.ltb_lt _ _) Hlt).
  - done.
Qed.

(** ** The worker pool of a batch *)

Lemma total_app f ws1 ws2 : total f (ws1 ++ ws2) = total f ws1 + total f ws2.
Proof. induction ws1 as [|w ws1 IH]; simpl; [done|]. unfold total in *. simpl. lia. Qed.

Lemma total_cons f w ws : total f (w :: ws) = f w + total f ws.
Proof. done. Qed.

Lemma holding_nonneg w : 0 ≤ holding w.
Proof. unfold holding. destruct (wjob w); lia. Qed.

Lemma unfinished_nonneg w : 0 ≤ unfinished w.
Proof. destruct w; simpl; lia. Qed.

Lemma unfinished_le_holding w : unfinished w ≤ holding w.
Proof. destruct w; unfold holding; simpl; lia. Qed.

Lemma total_nonneg f ws : (∀ w, 0 ≤ f w) → 0 ≤ total f ws.
Proof.
  intros Hf. induction ws as [|w ws IH]; [done|]. rewrite total_cons.
  specialize (Hf w). lia.
Qed.

Lemma total_le f g ws : (∀ w, f w ≤ g w) → total f ws ≤ total g ws.
Proof.
  intros Hf. induction ws as [|w ws IH]; [done|]. rewrite !total_cons.
  specialize (Hf w). lia.
Qed.

Lemma total_holding_zero ws w :
  total holding ws = 0 → w ∈ ws → wjob w = None.
Proof.
  induction ws as [|w' ws IH]; [by intros _ ?%elem_of_nil|].
  rewrite total_cons. intros Hz Hin.
  pose proof (holding_nonneg w'). pose proof (total_nonneg holding ws holding_nonneg).
  apply elem_of_cons in Hin as [->|Hin]; [|apply IH; [lia|done]].
  unfold holding in *. destruct (wjob w'); [lia|done].
Qed.

Lemma list_insert_split {A} (l : list A) i x :
  l !! i = Some x →
  ∃ l1 l2, l = l1 ++ x :: l2 ∧ ∀ y, <[i := y]> l = l1 ++ y :: l2.
Proof.
  intros H. apply list_elem_of_split_length in H as (l1 & l2 & -> & ->).
  exists l1, l2. split; [done|]. intros y.
  rewrite insert_app_r_alt by lia. by rewrite Nat.sub_diag.
Qed.

Lemma history_app i evs es :
  history i (evs ++ es) = history i evs ++ history i es.
Proof. unfold history. by rewrite filter_app, fmap_app. Qed.

Lemma history_all i es :
  Forall (λ e, event_entry e = i) es → history i es = event_mark <$> es.
Proof.
  intros H. unfold history. f_equal. induction H as [|e es He _ IH]; [done|].
  rewrite filter_cons. case_decide; [by rewrite IH|done].
Qed.

Lemma history_none i k es :
  Forall (λ e, event_entry e = k) es → i ≠ k → history i es = [].
Proof.
  intros H Hne. unfold history. induction H as [|e es He _ IH]; [done|].
  rewrite filter_cons. case_decide; [congruence|done].
Qed.

Lemma charges_app t evs es : charges t (evs ++ es) = charges t evs + charges t es.
Proof. unfold charges. rewrite filter_app, length_app. lia. Qed.

Lemma unaccounted_app evs es :
  unaccounted (evs ++ es) = unaccounted evs + unaccounted es.
Proof. unfold unaccounted. rewrite filter_app, length_app. lia. Qed.

Lemma charges_nonneg t evs : 0 ≤ charges t evs.
Proof. unfold charges. lia. Qed.

Lemma unaccounted_nonneg evs : 0 ≤ unaccounted evs.
Proof. unfold unaccounted. lia. Qed.

Lemma wrap64_small z : - 2 ^ 63 ≤ z < 2 ^ 63 → wrap64 z = z.
Proof. intros H. unfold wrap64. rewrite Z.mod_small; lia. Qed.

Lemma busy_entries_split ws1 w ws2 :
  (omap wjob (ws1 ++ w :: ws2)).*1
  = (omap wjob ws1).*1 ++ (from_option (λ j, [j.1]) [] (wjob w))
    ++ (omap wjob ws2).*1.
Proof.
  rewrite omap_app, fmap_app. f_equal. simpl.
  by destruct (wjob w).
Qed.

(** A worker moving on with the entry it holds keeps the invariant, when
    the events it emits are about that entry and fit its new program
    point. *)
Lemma inv_stage N p ws1 w ws2 j w' m' err' es :
  pool_inv N p →
  workers p = ws1 ++ w :: ws2 →
  wjob w = Some j → wjob w' = Some j →
  Forall (λ e, event_entry e = j.1) es →
  (∀ h, wstage_ok w h → wstage_ok w' (h ++ (event_mark <$> es))) →
  unfinished w
  = unfinished w' + charges Secondary es + charges CaptureBot es
    + charges Primary es + unaccounted es →
  m' = MkCounts (charges Secondary (events p ++ es))
                (charges CaptureBot (events p ++ es))
                (charges Primary (events p ++ es)) 0 →
  pool_inv N (MkPool (main p) (ws1 ++ w' :: ws2) (tasksChannel p)
                     (chanClosed p) (wg p) m' err' (events p ++ es)).
Proof.
  intros [Hnd Hq Hw Ho Hwg Htot Hcnt Hmain] Hws Hj Hj' Hes Hst Hunf Hm.
  unfold busy_entries in *. rewrite Hws in *.
  rewrite busy_entries_split, Hj in Hnd, Ho. simpl in Hnd, Ho.
  assert (HjQ : j.1 ∉ (queued p).*1).
  { apply NoDup_app in Hnd as (_ & Hd & _). intros Hin. apply (Hd _ Hin). set_solver. }
  assert (Hj1 : j.1 ∉ (omap wjob ws1).*1).
  { apply NoDup_app in Hnd as (_ & _ & Hd).
    apply NoDup_app in Hd as (_ & Hd & _). intros Hin. apply (Hd _ Hin). set_solver. }
  assert (Hj2 : j.1 ∉ (omap wjob ws2).*1).
  { apply NoDup_app in Hnd as (_ & _ & Hd).
    apply NoDup_app in Hd as (_ & _ & Hd). by apply NoDup_cons in Hd as [? _]. }
  assert (Hother : ∀ w0 j0, w0 ∈ ws1 ++ ws2 → wjob w0 = Some j0 → j0.1 ≠ j.1).
  { intros w0 j0 Hin Hj0 Heq.
    assert (j0.1 ∈ (omap wjob ws1).*1 ++ (omap wjob ws2).*1).
    { rewrite <- fmap_app, <- omap_app. apply list_elem_of_fmap. exists j0.
      split; [done|]. apply list_elem_of_omap. by exists w0. }
    rewrite Heq in H. by apply elem_of_app in H as [H|H]. }
  constructor; unfold busy_entries, queued in *; simpl in *.
  - by rewrite busy_entries_split, Hj'.
  - intros j0 Hin. destruct (Hq j0 Hin) as [Hlt Hh]. split; [done|].
    rewrite history_app, Hh. simpl. apply (history_none _ j.1); [done|].
    intros Heq. apply HjQ. rewrite <- Heq. by apply list_elem_of_fmap_2.
  - intros w0 j0 Hin Hj0. rewrite history_app.
    apply elem_of_app in Hin as [Hin|[->|Hin]%elem_of_cons].
    + assert (Hn : history j0.1 es = []).
      { apply (history_none _ j.1); [done|].
        apply (Hother w0); [|done]. apply elem_of_app. by left. }
      rewrite Hn, app_nil_r. apply Hw; [|done]. apply elem_of_app. by left.
    + assert (j0 = j) as -> by congruence.
      destruct (Hw w j) as [Hlt Hok]; [|done|].
      { apply elem_of_app. right. by left. }
      split; [done|]. rewrite (history_all _ es Hes). by apply Hst.
    + assert (Hn : history j0.1 es = []).
      { apply (history_none _ j.1); [done|].
        apply (Hother w0); [|done]. apply elem_of_app. by right. }
      rewrite Hn, app_nil_r. apply Hw; [|done].
      apply elem_of_app. right. by right.
  - rewrite busy_entries_split, Hj'. simpl. intros i Hi1 Hi2.
    assert (Hn : history i es = []).
    { apply (history_none _ j.1); [done|]. intros ->. apply Hi2.
      apply elem_of_app. right. by left. }
    rewrite history_app, Hn, app_nil_r. by apply Ho.
  - rewrite Hwg. rewrite !total_app, !total_cons. unfold holding. by rewrite Hj, Hj'.
  - rewrite !total_app, !total_cons, !charges_app, unaccounted_app in *. lia.
  - done.
  - assert (Hpos : 1 ≤ total holding (ws1 ++ w :: ws2)).
    { rewrite total_app, total_cons.
      pose proof (total_nonneg holding ws1 holding_nonneg).
      pose proof (total_nonneg holding ws2 holding_nonneg).
      unfold holding at 2. rewrite Hj. lia. }
    destruct (main p); try done; lia.
Qed.

(** The same for a step that emits nothing. *)
Lemma inv_stage_silent N p ws1 w ws2 j w' :
  pool_inv N p →
  workers p = ws1 ++ w :: ws2 →
  wjob w = Some j → wjob w' = Some j →
  (∀ h, wstage_ok w h → wstage_ok w' h) →
  unfinished w = unfinished w' →
  pool_inv N (MkPool (main p) (ws1 ++ w' :: ws2) (tasksChannel p)
                     (chanClosed p) (wg p) (mdsc p) (err p) (events p)).
Proof.
  intros Hinv Hws Hj Hj' Hst Hunf.
  pose proof (inv_stage N p ws1 w ws2 j w' (mdsc p) (err p) [] Hinv Hws Hj Hj') as H.
  rewrite app_nil_r in H. apply H.
  - constructor.
  - intros h Hh. rewrite app_nil_r. by apply Hst.
  - unfold charges, unaccounted. simpl. lia.
  - apply (inv_counts N p Hinv).
Qed.

(** Transport [NoDup] along a rearrangement of the list. *)
Ltac nodup_perm H :=
  match goal with
  | |- NoDup ?l =>
      match type of H with
      | NoDup ?k =>
          let Hp := fresh "Hp" in
          assert (Hp : l ≡ₚ k) by solve_Permutation; by rewrite Hp
      end
  end.

(** A worker taking the next entry off the channel. *)
Lemma inv_receive N p ws1 ws2 j q :
  pool_inv N p →
  workers p = ws1 ++ Receiving :: ws2 →
  tasksChannel p = j :: q →
  pool_inv N (MkPool (main p) (ws1 ++ CallSecondary j :: ws2) q
                     (chanClosed p) (wg p) (mdsc p) (err p) (events p)).
Proof.
  intros [Hnd Hq Hw Ho Hwg Htot Hcnt Hmain] Hws Hch.
  unfold busy_entries, queued in *. rewrite Hws, Hch in *.
  rewrite busy_entries_split in Hnd, Ho. simpl in Hnd, Ho.
  rewrite fmap_app, fmap_cons in Hnd, Ho.
  constructor; unfold busy_entries, queued; simpl.
  - rewrite busy_entries_split, fmap_app. simpl.
    nodup_perm Hnd.
  - intros j0 Hin. apply Hq. set_solver.
  - intros w0 j0 Hin Hj0.
    apply elem_of_app in Hin as [Hin|[->|Hin]%elem_of_cons].
    + apply Hw; [set_solver|done].
    + injection Hj0 as <-. simpl. apply Hq. set_solver.
    + apply Hw; [set_solver|done].
  - rewrite busy_entries_split, fmap_app. simpl. intros i Hi1 Hi2.
    apply Ho; set_solver.
  - rewrite Hwg, !total_app, !total_cons. unfold holding. simpl.
    lia.
  - rewrite !total_app, !total_cons, !length_app in *. simpl in *. lia.
  - done.
  - destruct (main p); try done; simpl in *; set_solver.
Qed.

(** A worker with nothing in hand changing to another such point. *)
Lemma inv_idle N p ws1 w ws2 w' :
  pool_inv N p →
  workers p = ws1 ++ w :: ws2 →
  wjob w = None → wjob w' = None → unfinished w = unfinished w' →
  pool_inv N (MkPool (main p) (ws1 ++ w' :: ws2) (tasksChannel p)
                     (chanClosed p) (wg p) (mdsc p) (err p) (events p)).
Proof.
  intros [Hnd Hq Hw Ho Hwg Htot Hcnt Hmain] Hws Hj Hj' Hunf.
  unfold busy_entries, queued in *. rewrite Hws in *.
  rewrite busy_entries_split, Hj in Hnd, Ho. simpl in Hnd, Ho.
  constructor; unfold busy_entries, queued; simpl.
  - by rewrite busy_entries_split, Hj'.
  - done.
  - intros w0 j0 Hin Hj0.
    apply elem_of_app in Hin as [Hin|[->|Hin]%elem_of_cons].
    + apply Hw; [set_solver|done].
    + congruence.
    + apply Hw; [set_solver|done].
  - by rewrite busy_entries_split, Hj'.
  - rewrite Hwg, !total_app, !total_cons. unfold holding. by rewrite Hj, Hj'.
  - rewrite !total_app, !total_cons in *. lia.
  - done.
  - done.
Qed.

(** A worker calling [wg.Done()] for the entry it has finished. *)
Lemma inv_done N p ws1 ws2 j :
  pool_inv N p →
  workers p = ws1 ++ CallDone j :: ws2 →
  pool_inv N (MkPool (main p) (ws1 ++ Receiving :: ws2) (tasksChannel p)
                     (chanClosed p) (wg p - 1) (mdsc p) (err p) (events p)).
Proof.
  intros [Hnd Hq Hw Ho Hwg Htot Hcnt Hmain] Hws.
  unfold busy_entries, queued in *. rewrite Hws in *.
  rewrite busy_entries_split in Hnd, Ho. simpl in Hnd, Ho.
  constructor; unfold busy_entries, queued; simpl.
  - rewrite busy_entries_split. simpl.
    apply NoDup_app in Hnd as (H1 & H2 & H3).
    apply NoDup_app in H3 as (H3 & H4 & H5). apply NoDup_cons in H5 as [H5 H6].
    apply NoDup_app. split; [done|]. split.
    + intros x Hx. specialize (H2 x Hx). set_solver.
    + apply NoDup_app. split; [done|]. split; [|done].
      intros x Hx. specialize (H4 x Hx). set_solver.
  - done.
  - intros w0 j0 Hin Hj0.
    apply elem_of_app in Hin as [Hin|[->|Hin]%elem_of_cons].
    + apply Hw; [set_solver|done].
    + done.
    + apply Hw; [set_solver|done].
  - rewrite busy_entries_split. simpl. intros i Hi1 Hi2.
    destruct (decide (i = j.1)) as [->|Hne].
    + destruct (Hw (CallDone j) j) as [Hlt Hok]; [set_solver|done|].
      simpl in Hok. by rewrite decide_True.
    + apply Ho; set_solver.
  - rewrite Hwg, !total_app, !total_cons. unfold holding. simpl. lia.
  - rewrite !total_app, !total_cons in *. simpl in *. lia.
  - done.
  - assert (Hpos : 1 ≤ total holding (ws1 ++ CallDone j :: ws2)).
    { rewrite total_app, total_cons.
      pose proof (total_nonneg holding ws1 holding_nonneg).
      pose proof (total_nonneg holding ws2 holding_nonneg).
      unfold holding at 2. simpl. lia. }
    destruct (main p); try done; lia.
Qed.

(** The handler goroutine keeps the invariant. *)
Lemma step_main_inv N p p' :
  pool_inv N p → step_main p = Some p' → pool_inv N p'.
Proof.
  intros [Hnd Hq Hw Ho Hwg Htot Hcnt Hmain] Hstep.
  unfold step_main in Hstep. unfold busy_entries, queued in *.
  destruct (main p) as [[|j rest]| | | |r] eqn:Hm; simpl in *.
  - injection Hstep as <-. constructor; unfold busy_entries, queued; simpl; done.
  - injection Hstep as <-. constructor; unfold busy_entries, queued; simpl.
    + rewrite !fmap_app in *. simpl in Hnd |- *. nodup_perm Hnd.
    + intros j0 Hin. apply Hq. set_solver.
    + done.
    + intros i Hi1 Hi2. apply Ho; [|done]. set_solver.
    + rewrite length_app. simpl. lia.
    + rewrite !length_app in *. simpl in *. lia.
    + done.
    + done.
  - destruct (wg p =? 0) eqn:E; [|done]. injection Hstep as <-.
    apply Z.eqb_eq in E.
    pose proof (total_nonneg holding (workers p) holding_nonneg).
    assert (Hc : tasksChannel p = []) by (apply length_zero_iff_nil; lia).
    constructor; unfold busy_entries, queued; simpl; try done.
  - injection Hstep as <-. constructor; unfold busy_entries, queued; simpl; done.
  - injection Hstep as <-. constructor; unfold busy_entries, queued; simpl; try done.
    by destruct Hmain.
  - done.
Qed.

Lemma charges_bound N p t :
  pool_inv N p → 0 ≤ charges t (events p) ≤ Z.of_nat N - total unfinished (workers p).
Proof.
  intros [_ _ _ _ _ Htot _ _].
  pose proof (charges_nonneg Secondary (events p)).
  pose proof (charges_nonneg CaptureBot (events p)).
  pose proof (charges_nonneg Primary (events p)).
  pose proof (unaccounted_nonneg (events p)).
  destruct t; lia.
Qed.

(** Every step of the batch keeps the invariant. *)
Lemma step_inv N a p p' :
  Z.of_nat N < 2 ^ 63 →
  pool_inv N p → step a p = Some p' → pool_inv N p'.
Proof.
  intros HN Hinv Hstep. destruct a as [|i outcome]; [by eapply step_main_inv|].
  unfold step in Hstep.
  destruct (workers p !! i) as [w|] eqn:Hl; [|done].
  destruct (list_insert_split _ _ _ Hl) as (ws1 & ws2 & Hws & Hins).
  assert (Hcb : ∀ t, unfinished w = 1 →
            - 2 ^ 63 ≤ charges t (events p) + 1 < 2 ^ 63).
  { intros t Hu. pose proof (charges_bound N p t Hinv) as Hb.
    rewrite Hws, total_app, total_cons, Hu in Hb.
    pose proof (total_nonneg unfinished ws1 unfinished_nonneg).
    pose proof (total_nonneg unfinished ws2 unfinished_nonneg). lia. }
  pose proof (inv_counts N p Hinv) as Hcnt.
  destruct w as [|j|j|j|j|j|j|j|j|]; simpl in Hstep.
  - destruct (tasksChannel p) as [|j q] eqn:Hch.
    + destruct (chanClosed p); [|done]. injection Hstep as <-. simpl.
      rewrite Hins. by apply (inv_idle N p ws1 Receiving ws2 Exited).
    + injection Hstep as <-. simpl. rewrite Hins. by apply (inv_receive N p ws1 ws2 j q).
  - injection Hstep as <-. simpl. rewrite Hins.
    apply (inv_stage N p ws1 (CallSecondary j) ws2 j); try done.
    + by destruct outcome.
    + by repeat constructor.
    + intros h ->. by destruct outcome.
    + by destruct outcome.
    + rewrite Hcnt, !charges_app. simpl. f_equal; unfold charges; simpl; lia.
  - injection Hstep as <-. simpl. rewrite Hins.
    apply (inv_stage N p ws1 (IncWorker j) ws2 j); try done.
    + by repeat constructor.
    + intros h ->. simpl. set_solver.
    + rewrite Hcnt, !charges_app. unfold incWorker. simpl.
      rewrite wrap64_small by (by apply Hcb).
      f_equal; unfold charges; simpl; lia.
  - injection Hstep as <-. simpl. rewrite Hins.
    apply (inv_stage N p ws1 (CallCapture j) ws2 j); try done.
    + by destruct outcome.
    + by repeat constructor.
    + intros h ->. by destruct outcome.
    + by destruct outcome.
    + rewrite Hcnt, !charges_app. simpl. f_equal; unfold charges; simpl; lia.
  - injection Hstep as <-. simpl. rewrite Hins.
    apply (inv_stage N p ws1 (IncCapture j) ws2 j); try done.
    + by repeat constructor.
    + intros h ->. simpl. set_solver.
    + rewrite Hcnt, !charges_app. unfold incCapture. simpl.
      rewrite wrap64_small by (by apply Hcb).
      f_equal; unfold charges; simpl; lia.
  - injection Hstep as <-. simpl. rewrite Hins.
    apply (inv_stage N p ws1 (CallPrimary j) ws2 j); try done.
    + by repeat constructor.
    + by intros h ->.
    + rewrite Hcnt, !charges_app. simpl. f_equal; unfold charges; simpl; lia.
  - destruct (err p) as [e|]; injection Hstep as <-; simpl; rewrite Hins.
    + apply (inv_stage N p ws1 (CheckErr j) ws2 j); try done.
      * by repeat constructor.
      * intros h ->. simpl. set_solver.
      * rewrite Hcnt, !charges_app. simpl. f_equal; unfold charges; simpl; lia.
    + by apply (inv_stage_silent N p ws1 (CheckErr j) ws2 j).
  - injection Hstep as <-. simpl. rewrite Hins.
    apply (inv_stage N p ws1 (IncOfficial j) ws2 j); try done.
    + by repeat constructor.
    + intros h ->. simpl. set_solver.
    + rewrite Hcnt, !charges_app. unfold incOfficial. simpl.
      rewrite wrap64_small by (by apply Hcb).
      f_equal; unfold charges; simpl; lia.
  - injection Hstep as <-. simpl. rewrite Hins. by apply (inv_done N p ws1 ws2 j).
  - done.
Qed.

Lemma total_replicate_zero f n w : f w = 0 → total f (replicate n w) = 0.
Proof.
  intros Hf. induction n as [|n IH]; [done|].
  change (total f (replicate (S n) w)) with (f w + total f (replicate n w)). lia.
Qed.

Lemma busy_replicate_idle n : (omap wjob (replicate n Receiving)).*1 = [].
Proof. induction n as [|n IH]; [done|]. done. Qed.

Lemma positions_imap (users : list UserModify) :
  (imap (λ i u, (i, u)) users).*1 = seq 0 (length users).
Proof.
  rewrite fmap_imap.
  rewrite (imap_ext _ (λ j _, j)) by done.
  by rewrite imap_seq_0, list_fmap_id.
Qed.

(** The batch starts within the invariant. *)
Lemma start_workers_inv mw users :
  pool_inv (length users) (start_workers mw users).
Proof.
  constructor; unfold busy_entries, queued; simpl.
  - rewrite busy_replicate_idle, !app_nil_r, positions_imap. apply NoDup_seq.
  - intros j Hin. rewrite app_nil_r in Hin.
    apply elem_of_lookup_imap_1 in Hin as (i & u & -> & Hl).
    split; [|done]. simpl. by apply lookup_lt_Some in Hl.
  - intros w j Hin Hj. apply elem_of_replicate_inv in Hin as ->. done.
  - rewrite app_nil_r, positions_imap. intros i Hi _.
    case_decide; [|done]. exfalso. apply Hi. apply elem_of_seq. lia.
  - by rewrite total_replicate_zero.
  - rewrite app_nil_r, length_imap, total_replicate_zero by done.
    unfold charges, unaccounted. simpl. lia.
  - done.
  - done.
Qed.

Lemma exec_inv N sched :
  Z.of_nat N < 2 ^ 63 →
  ∀ p p', pool_inv N p → exec sched p = Some p' → pool_inv N p'.
Proof.
  intros HN. induction sched as [|a sched IH]; intros p p' Hinv; simpl.
  - by intros [= <-].
  - destruct (step a p) as [p1|] eqn:Hs; [|done].
    apply IH. by eapply step_inv.
Qed.

Lemma stage_prefix w h :
  wstage_ok w h → is_Some (wjob w) →
  ∃ c, c ∈ complete_histories ∧ h `prefix_of` c.
Proof.
  unfold complete_histories.
  destruct w; simpl; intros Hok [j0 Hj]; try done; try subst h.
  - exists [Tried Secondary; Charged Secondary]. split; [set_solver|apply prefix_nil].
  - exists [Tried Secondary; Charged Secondary]. split; [set_solver|].
    by exists [Charged Secondary].
  - exists [Tried Secondary; Charged Secondary]. split; [set_solver|].
    by exists [Charged Secondary].
  - exists [Tried Secondary; Tried CaptureBot; Charged CaptureBot].
    split; [set_solver|]. by exists [Charged CaptureBot].
  - exists [Tried Secondary; Tried CaptureBot; Charged CaptureBot].
    split; [set_solver|]. by exists [Charged CaptureBot].
  - exists [Tried Secondary; Tried CaptureBot; Tried Primary; NotCounted].
    split; [set_solver|]. by exists [NotCounted].
  - exists [Tried Secondary; Tried CaptureBot; Tried Primary; NotCounted].
    split; [set_solver|]. by exists [NotCounted].
  - exists h. done.
Qed.

Lemma idle_workers_busy ws : total holding ws = 0 → (omap wjob ws).*1 = [].
Proof.
  intros Hz. induction ws as [|w ws IH]; [done|].
  rewrite total_cons in Hz.
  pose proof (holding_nonneg w). pose proof (total_nonneg holding ws holding_nonneg).
  simpl. unfold holding in *. destruct (wjob w); [lia|]. apply IH. lia.
Qed.

Lemma history_cons i e evs :
  history i (e :: evs)
  = if decide (event_entry e = i) then event_mark e :: history i evs
    else history i evs.
Proof. unfold history. rewrite filter_cons. by case_decide. Qed.

Lemma sum_list_with_add {A} (f g : A → nat) l :
  sum_list_with (λ i, f i + g i)%nat l
  = (sum_list_with f l + sum_list_with g l)%nat.
Proof. induction l as [|x l IH]; simpl; [done|]. rewrite IH. lia. Qed.

Lemma sum_list_with_ext_in {A} (f g : A → nat) l :
  (∀ i, i ∈ l → f i = g i) → sum_list_with f l = sum_list_with g l.
Proof.
  induction l as [|x l IH]; simpl; [done|]. intros H.
  rewrite (H x) by (by left). rewrite IH; [done|].
  intros i Hi. apply H. by right.
Qed.

Lemma sum_list_with_zero {A} (l : list A) : sum_list_with (λ _, 0%nat) l = 0%nat.
Proof. induction l as [|x l IH]; simpl; [done|]. by rewrite IH. Qed.

Lemma sum_list_with_indicator (k : nat) (c : nat) l :
  NoDup l → k ∈ l →
  sum_list_with (λ i, if decide (k = i) then c else 0%nat) l = c.
Proof.
  induction 1 as [|x l Hx Hnd IH]; [by intros ?%elem_of_nil|].
  simpl. intros [->|Hin]%elem_of_cons.
  - rewrite decide_True by done.
    rewrite (sum_list_with_ext_in _ (λ _, 0%nat)), sum_list_with_zero; [lia|].
    intros i Hi. rewrite decide_False; [done|]. by intros ->.
  - rewrite decide_False by (by intros ->). by rewrite IH.
Qed.

Lemma sum_list_with_filter {A} (P : A → Prop) `{∀ x, Decision (P x)} l :
  sum_list_with (λ i, if decide (P i) then 1%nat else 0%nat) l
  = length (filter P l).
Proof.
  induction l as [|x l IH]; simpl; [done|]. rewrite filter_cons, IH.
  by case_decide.
Qed.

(** The events with a given mark, counted entry by entry. *)
Lemma count_by_entry (m : Mark) idx evs :
  NoDup idx →
  (∀ e, e ∈ evs → event_entry e ∈ idx) →
  length (filter (λ e, event_mark e = m) evs)
  = sum_list_with (λ i, occurrences m (history i evs)) idx.
Proof.
  intros Hnd. induction evs as [|e evs IH]; intros Hin.
  - simpl. by rewrite sum_list_with_zero.
  - rewrite filter_cons.
    rewrite (sum_list_with_ext_in _
               (λ i, (if decide (event_entry e = i)
                      then (if decide (event_mark e = m) then 1 else 0)
                      else 0)
                     + occurrences m (history i evs))%nat).
    + rewrite sum_list_with_add, sum_list_with_indicator; [|done|apply Hin; by left].
      rewrite <- IH by (intros e' He'; apply Hin; by right).
      by case_decide.
    + intros i _. rewrite history_cons. unfold occurrences.
      case_decide; [|done]. rewrite filter_cons. by case_decide.
Qed.

Lemma occurrences_NoDup m h :
  NoDup h → occurrences m h = if decide (m ∈ h) then 1%nat else 0%nat.
Proof.
  unfold occurrences. induction 1 as [|x h Hx Hnd IH]; [done|].
  rewrite filter_cons. destruct (decide (x = m)) as [->|Hne].
  - simpl. rewrite IH, decide_False by done.
    rewrite decide_True; [done|by left].
  - rewrite IH. case_decide.
    + rewrite decide_True; [done|by right].
    + rewrite decide_False; [done|]. intros [->|?]%elem_of_cons; done.
Qed.

Lemma complete_NoDup h : h ∈ complete_histories → NoDup h.
Proof.
  unfold complete_histories. intros Hin.
  repeat (apply elem_of_cons in Hin as [->|Hin];
          [apply (bool_decide_unpack _); vm_compute; exact I|]).
  by apply elem_of_nil in Hin.
Qed.

(** When every entry below [N] has run its course and nothing else left
    a mark, the events with a mark are as many as the entries with it. *)
Lemma marked_events_entries (m : Mark) N evs :
  (∀ i, if decide (i < N)%nat then history i evs ∈ complete_histories
        else history i evs = []) →
  Z.of_nat (length (filter (λ e, event_mark e = m) evs)) = marked_entries m N evs.
Proof.
  intros Hall. unfold marked_entries. f_equal.
  rewrite (count_by_entry m (seq 0 N) evs).
  - rewrite <- sum_list_with_filter. apply sum_list_with_ext_in.
    intros i Hi%elem_of_seq. specialize (Hall i).
    rewrite decide_True in Hall by lia.
    by apply occurrences_NoDup, complete_NoDup.
  - apply NoDup_seq.
  - intros e He. apply elem_of_seq. split; [lia|]. simpl.
    destruct (decide (event_entry e < N)%nat) as [Hlt|Hge]; [done|].
    specialize (Hall (event_entry e)). rewrite decide_False in Hall by done.
    assert (Hm : event_mark e ∈ history (event_entry e) evs).
    { unfold history. apply list_elem_of_fmap_2. by apply list_elem_of_filter. }
    rewrite Hall in Hm. by apply elem_of_nil in Hm.
Qed.

(** C2: in every run of the worker pool on a batch of N entries, each
    entry goes through the tiers in the order secondary sessions, capture
    bot, primary bot, stopping at the first that succeeds; once the handler
    has responded each entry has been charged to exactly one of Worker,
    Capture and Official or to none, the response carries the numbers of
    entries charged to each, and worker + capture + official + unaccounted
    = N with nothing negative, unaccounted being the entries charged to
    none. *)
Theorem modify_batch_accounting mw users sched p :
  Z.of_nat (length users) < 2 ^ 63 →
  exec sched (start_workers mw users) = Some p →
  (∀ i, ∃ c, c ∈ complete_histories ∧ history i (events p) `prefix_of` c)
  ∧ ∀ resp, main p = Responded resp →
      ∃ m, resp = MkResponse StatusOK (CountsJSON m)
        ∧ Worker m = marked_entries (Charged Secondary) (length users) (events p)
        ∧ Capture m = marked_entries (Charged CaptureBot) (length users) (events p)
        ∧ Official m = marked_entries (Charged Primary) (length users) (events p)
        ∧ RateLimit m = 0
        ∧ 0 ≤ Worker m ∧ 0 ≤ Capture m ∧ 0 ≤ Official m
        ∧ 0 ≤ marked_entries NotCounted (length users) (events p)
        ∧ Worker m + Capture m + Official m
          + marked_entries NotCounted (length users) (events p)
          = Z.of_nat (length users)
        ∧ (∀ i, (i < (length users))%nat →
                history i (events p) ∈ complete_histories).
Proof.
  intros HN Hexec.
  pose proof (exec_inv _ sched HN _ _ (start_workers_inv mw users) Hexec)
    as [Hnd Hq Hw Ho Hwg Htot Hcnt Hmain].
  split.
  - intros i.
    destruct (decide (i ∈ (queued p).*1)) as [Hin|Hnq].
    { apply list_elem_of_fmap in Hin as (j & -> & Hin).
      destruct (Hq j Hin) as [_ ->].
      exists [Tried Secondary; Charged Secondary].
      split; [unfold complete_histories; set_solver|apply prefix_nil]. }
    destruct (decide (i ∈ busy_entries p)) as [Hin|Hnb].
    { unfold busy_entries in Hin.
      apply list_elem_of_fmap in Hin as (j & -> & Hin).
      apply list_elem_of_omap in Hin as (w & Hin & Hj).
      destruct (Hw w j Hin Hj) as [_ Hok].
      apply (stage_prefix w); [done|by exists j]. }
    specialize (Ho i Hnq Hnb). case_decide.
    + by exists (history i (events p)).
    + rewrite Ho. exists [Tried Secondary; Charged Secondary].
      split; [unfold complete_histories; set_solver|apply prefix_nil].
  - intros resp Hresp. rewrite Hresp in Hmain. destruct Hmain as (Hz & Hqe & ->).
    exists (mdsc p). rewrite Hcnt. simpl.
    pose proof (total_nonneg holding (workers p) holding_nonneg) as Hh.
    assert (Hidle : total holding (workers p) = 0) by lia.
    assert (Hunf : total unfinished (workers p) = 0).
    { pose proof (total_le unfinished holding (workers p) unfinished_le_holding).
      pose proof (total_nonneg unfinished (workers p) unfinished_nonneg). lia. }
    rewrite Hqe, Hunf in Htot. simpl in Htot.
    assert (Hall : ∀ i, if decide (i < length users)%nat
                        then history i (events p) ∈ complete_histories
                        else history i (events p) = []).
    { intros i. apply Ho.
      - rewrite Hqe. apply not_elem_of_nil.
      - unfold busy_entries. rewrite idle_workers_busy by done.
        apply not_elem_of_nil. }
    assert (Hch : ∀ t, charges t (events p)
                       = marked_entries (Charged t) (length users) (events p)).
    { intros t. by apply marked_events_entries. }
    assert (Hun : unaccounted (events p)
                  = marked_entries NotCounted (length users) (events p)).
    { by apply marked_events_entries. }
    rewrite !Hch, Hun in Htot. rewrite !Hch.
    pose proof (charges_nonneg Secondary (events p)) as H1.
    pose proof (charges_nonneg CaptureBot (events p)) as H2.
    pose proof (charges_nonneg Primary (events p)) as H3.
    pose proof (unaccounted_nonneg (events p)) as H4.
    rewrite Hch in H1, H2, H3. rewrite Hun in H4.
    repeat (split; [done || lia|]).
    intros i Hi. specialize (Hall i). by rewrite decide_True in Hall.
Qed.

Lemma modify_batch_accounting_witness :
  let p := two_users_final in
  (∀ i, ∃ c, c ∈ complete_histories ∧ history i (events p) `prefix_of` c)
  ∧ ∀ resp, main p = Responded resp →
      ∃ m, resp = MkResponse StatusOK (CountsJSON m)
        ∧ Worker m = marked_entries (Charged Secondary) (length two_users) (events p)
        ∧ Capture m = marked_entries (Charged CaptureBot) (length two_users) (events p)
        ∧ Official m = marked_entries (Charged Primary) (length two_users) (events p)
        ∧ RateLimit m = 0
        ∧ 0 ≤ Worker m ∧ 0 ≤ Capture m ∧ 0 ≤ Official m
        ∧ 0 ≤ marked_entries NotCounted (length two_users) (events p)
        ∧ Worker m + Capture m + Official m
          + marked_entries NotCounted (length two_users) (events p)
          = Z.of_nat (length two_users)
        ∧ (∀ i, (i < (length two_users))%nat →
                history i (events p) ∈ complete_histories).
Proof.
  apply (modify_batch_accounting 2 two_users two_users_schedule two_users_final);
    reflexivity.
Defined.

(** ** The empty batch *)

Lemma empty_step n a p p' : empty_inv n p → step a p = Some p' → empty_inv n p'.
Proof.
  intros (Hm & He & Hc & Hw & Hi & Hl & Hmain) Hstep.
  destruct a as [|i outcome]; simpl in Hstep.
  - unfold step_main in Hstep.
    destruct (main p) as [rest| | | |r] eqn:Hmp.
    + subst rest. injection Hstep as <-. by repeat split.
    + rewrite Hw in Hstep. simpl in Hstep. injection Hstep as <-. by repeat split.
    + injection Hstep as <-. by repeat split.
    + injection Hstep as <-. repeat split; try done. simpl. by rewrite Hm.
    + done.
  - destruct (workers p !! i) as [w|] eqn:Hlk; [|done].
    assert (Hw0 : idle w).
    { eapply Forall_forall in Hi; [exact Hi|]. by eapply list_elem_of_lookup_2. }
    destruct Hw0 as [-> | ->]; simpl in Hstep; [|done].
    rewrite Hc in Hstep. destruct (chanClosed p); [|done].
    injection Hstep as <-. repeat split; try done; simpl.
    + apply Forall_insert; [done|by right].
    + by rewrite length_insert.
Qed.

Lemma empty_exec n sched :
  ∀ p p', empty_inv n p → exec sched p = Some p' → empty_inv n p'.
Proof.
  induction sched as [|a sched IH]; intros p p' Hinv; simpl.
  - by intros [= <-].
  - destruct (step a p) as [p1|] eqn:Hs; [|done]. apply IH. by eapply empty_step.
Qed.

(** From any point of such a run the handler can go on to its response,
    whatever the workers do. *)
Lemma empty_progress n p :
  empty_inv n p →
  ∃ sched p', exec sched p = Some p' ∧ main p' = Responded zero_response.
Proof.
  intros (Hm & He & Hc & Hw & Hi & Hl & Hmain).
  destruct p as [m ws ch cl w md er ev]. simpl in *. subst.
  destruct m as [rest| | | |r]; subst.
  - exists [RunMain; RunMain; RunMain; RunMain]. eexists. split; [reflexivity|done].
  - exists [RunMain; RunMain; RunMain]. eexists. split; [reflexivity|done].
  - exists [RunMain; RunMain]. eexists. split; [reflexivity|done].
  - exists [RunMain]. eexists. split; [reflexivity|done].
  - exists []. eexists. split; [reflexivity|done].
Qed.

(** C9 (as stated) fails: for a valid guildID and a body that decodes to
    an empty users array the handler, with the default of 8 workers, has
    started 8 workers by the time it feeds the batch. *)
Lemma empty_batch_counterexample :
  ParseUint (guildID_var empty_request) = Some 100
  ∧ (∃ body, readBody empty_request = inr body
       ∧ Users <$> (match unmarshal empty_request body with
                    | inr u => Some u
                    | inl _ => None
                    end) = Some [])
  ∧ ∃ b, (modify_begin default_env empty_request (fresh_api [] 7)).1 = inr b
       ∧ workers (pool b) = replicate 8 Receiving
       ∧ length (workers (pool b)) ≠ 0%nat.
Proof.
  split; [reflexivity|]. split; [by exists "{}"|].
  eexists. split; [reflexivity|]. split; [reflexivity|]. simpl. lia.
Qed.

(** C9 (amended): for every POST /modify request with a valid guildID
    and a body that decodes to an empty users array, the handler starts its
    MAX_WORKERS workers (8 by default) all the same, none of them ever
    receives an entry or touches a counter, the handler can always go on to
    respond, and the response is 200 with all four counters zero. *)
Theorem empty_batch_response env r body premium s :
  is_Some (ParseUint (guildID_var r)) →
  readBody r = inr body →
  unmarshal r body = inr (MkUserModifyRequest premium []) →
  ∃ b, (modify_begin env r s).1 = inr b
    ∧ workers (pool b) = replicate (Z.to_nat (maxWorkers env)) Receiving
    ∧ maxWorkers default_env = 8
    ∧ (∃ p, exec [RunMain; RunMain; RunMain; RunMain] (pool b) = Some p
            ∧ main p = Responded zero_response)
    ∧ ∀ sched p, exec sched (pool b) = Some p →
        mdsc p = no_counts ∧ events p = []
        ∧ Forall idle (workers p)
        ∧ length (workers p) = Z.to_nat (maxWorkers env)
        ∧ (∀ resp, main p = Responded resp → resp = zero_response)
        ∧ (∃ rest p', exec rest p = Some p' ∧ main p' = Responded zero_response).
Proof.
  intros [gid Hgid] Hbody Hdec.
  unfold modify_begin. rewrite Hgid, Hbody, Hdec. simpl.
  unfold bind at 1. destruct (getAllTokensForGuild (guildID_var r) s) as [tokens s'].
  unfold ret. simpl. eexists. split; [reflexivity|]. simpl.
  split; [done|]. split; [reflexivity|].
  set (n := Z.to_nat (maxWorkers env)).
  assert (Hinv : empty_inv n (start_workers (maxWorkers env) [])).
  { unfold empty_inv, start_workers. simpl. repeat split; try done.
    - apply Forall_replicate. by left.
    - by rewrite length_replicate. }
  split.
  - eexists. split; [reflexivity|done].
  - intros sched p Hexec.
    pose proof (empty_exec n sched _ _ Hinv Hexec) as Hp.
    pose proof (empty_progress n p Hp) as Hprog.
    destruct Hp as (Hm & He & Hc & Hw & Hi & Hl & Hmain).
    repeat split; try done.
    intros resp Hr. by rewrite Hr in Hmain.
Qed.

Lemma empty_batch_response_witness :
  ∃ b, (modify_begin default_env empty_request (fresh_api [] 7)).1 = inr b
    ∧ workers (pool b) = replicate (Z.to_nat (maxWorkers default_env)) Receiving
    ∧ maxWorkers default_env = 8
    ∧ (∃ p, exec [RunMain; RunMain; RunMain; RunMain] (pool b) = Some p
            ∧ main p = Responded zero_response)
    ∧ ∀ sched p, exec sched (pool b) = Some p →
        mdsc p = no_counts ∧ events p = []
        ∧ Forall idle (workers p)
        ∧ length (workers p) = Z.to_nat (maxWorkers default_env)
        ∧ (∀ resp, main p = Responded resp → resp = zero_response)
        ∧ (∃ rest p', exec rest p = Some p' ∧ main p' = Responded zero_response).
Proof.
  apply (empty_batch_response default_env empty_request "{}" 0 (fresh_api [] 7));
    [by exists 100 | reflexivity | reflexivity].
Defined.

(** * Further properties of the code *)

(** ** The rate gate over time *)

(** The gate touches neither the registry nor the limit, whatever the
    store does. *)
Lemma admit_keeps_registry g h s :
  activeSessions (IncrAndTestGuildTokenComboLock g h s).2 = activeSessions s
  ∧ maxRequests5Seconds (IncrAndTestGuildTokenComboLock g h s).2
    = maxRequests5Seconds s.
Proof.
  destruct s as [c sess mx lg].
  unfold IncrAndTestGuildTokenComboLock. unfold_m. simpl.
  destruct (Redis.Incr (GuildTokenLock g h) c) as [[n e] c1]. simpl.
  destruct e as [e|]; simpl; destruct (n <? mx); simpl;
    try destruct (Redis.Expire _ _ c1) as [[e'|] c2]; simpl; done.
Qed.

Lemma run_gate_keeps_limit ops :
  ∀ s, maxRequests5Seconds (run_gate ops s).2 = maxRequests5Seconds s.
Proof.
  induction ops as [|[d|g h] ops IH]; intros s; simpl.
  - done.
  - unfold bind at 1. simpl. by rewrite IH.
  - unfold bind at 1.
    pose proof (admit_keeps_registry g h s) as [_ Hm].
    destruct (IncrAndTestGuildTokenComboLock g h s) as [b s1]. simpl in Hm.
    unfold bind at 1. specialize (IH s1).
    destruct (run_gate ops s1) as [rs s2]. unfold ret. simpl in *. congruence.
Qed.

Lemma run_gate_shut g h until ops :
  ∀ s, shut g h until s → shut g h until (run_gate ops s).2.
Proof.
  induction ops as [|[d|g' h'] ops IH]; intros s Hs; simpl.
  - done.
  - unfold bind at 1. apply IH. by apply (shut_tick g h until d s).
  - unfold bind at 1.
    destruct (shut_admit g h until g' h' s Hs) as [Hs' _].
    destruct (IncrAndTestGuildTokenComboLock g' h' s) as [b s1]. simpl in Hs'.
    unfold bind at 1. specialize (IH s1 Hs').
    by destruct (run_gate ops s1) as [rs s2].
Qed.

(** X1: refused calls never postpone the end of a blacklist: whatever
    calls and pauses follow a blacklist while it lasts, the first admit for
    the pair at or after the original deadline finds the counter expired,
    restarts it at 1 and is admitted exactly when MaxReq5s is above 1. *)
Theorem blacklist_reopens_at_deadline g h d s ops wait :
  Redis.healthy (client s) → 0 < d →
  let until := Redis.clock (client s) + d in
  let s1 := (run_gate ops (BlacklistTokenForDuration g h d s).2).2 in
  Redis.clock (client s1) < until →
  until ≤ Redis.clock (client s1) + Z.of_N wait →
  let r := IncrAndTestGuildTokenComboLock g h (tick_api wait s1).2 in
  (r.1 = true ↔ 1 < maxRequests5Seconds s)
  ∧ lock_item r.2 g h
    = Some (Redis.Item 1 (if r.1
                          then Some (Redis.clock (client s1) + Z.of_N wait
                                     + 5 * Time.Second)
                          else None)).
Proof.
  intros Hh Hd until s1 Hbefore Hafter r.
  assert (Hshut : shut g h until s1).
  { apply run_gate_shut. by apply blacklist_shut. }
  assert (Hmax : maxRequests5Seconds s1 = maxRequests5Seconds s).
  { unfold s1. rewrite run_gate_keeps_limit.
    by rewrite (blacklist_healthy g h d s Hh Hd). }
  destruct Hshut as [Hh1 Hk]. destruct (Hk Hbefore) as (v & Hv & Hit).
  set (s2 := (tick_api wait s1).2) in *.
  assert (Hh2 : Redis.healthy (client s2)) by exact Hh1.
  assert (Hgone : lock_item s2 g h = None).
  { unfold lock_item, Redis.live. simpl. rewrite Hit. unfold Redis.fresh. simpl.
    assert (Hge : until ≤ Redis.clock (client s1) + Z.of_N wait) by done.
    by rewrite (proj2 (Z.ltb_ge _ _) Hge). }
  pose proof (admit_lock_after g h s2 Hh2) as Hl. simpl in Hl. fold r in Hl.
  assert (Hb : r.1 = (1 <? maxRequests5Seconds s)).
  { unfold r. rewrite (admit_healthy g h s2 Hh2). simpl.
    rewrite Hgone. simpl. by rewrite <- Hmax. }
  rewrite Hgone in Hl. simpl in Hl. split.
  - rewrite Hb. apply Z.ltb_lt.
  - rewrite Hl. by destruct (r.1).
Qed.

Lemma blacklist_reopens_at_deadline_witness :
  let s := fresh_api [] 7 in
  let ops := [Admit "100" "h1"; Tick 1000; Admit "100" "h1"] in
  let until := Redis.clock (client s) + 5000 in
  let s1 := (run_gate ops (BlacklistTokenForDuration "100" "h1" 5000 s).2).2 in
  let r := IncrAndTestGuildTokenComboLock "100" "h1" (tick_api 4000 s1).2 in
  (r.1 = true ↔ 1 < maxRequests5Seconds s)
  ∧ lock_item r.2 "100" "h1"
    = Some (Redis.Item 1 (if r.1
                          then Some (Redis.clock (client s1) + Z.of_N 4000
                                     + 5 * Time.Second)
                          else None)).
Proof.
  apply (blacklist_reopens_at_deadline "100" "h1" 5000 (fresh_api [] 7)
           [Admit "100" "h1"; Tick 1000; Admit "100" "h1"] 4000);
    reflexivity.
Defined.

(** X2: when the increment succeeds and the EXPIRE after it fails, the
    call is still answered from the incremented count, the error is only
    logged, and the counter keeps the deadline it had: an admitted call
    then leaves the TTL unrefreshed, and a counter created by that call has
    no TTL at all. *)
Theorem admit_expire_failure g h s fs :
  Redis.faults (client s) = false :: true :: fs →
  let post := item_count (lock_item s g h) + 1 in
  let r := IncrAndTestGuildTokenComboLock g h s in
  (r.1 = true ↔ post < maxRequests5Seconds s)
  ∧ lock_item r.2 g h
    = Some (Redis.Item post (item_deadline (lock_item s g h)))
  ∧ (r.1 = true → LogErr StoreError ∈ stdlog r.2).
Proof.
  destruct s as [[clk strs sets fl] sess mx lg]. simpl. intros ->.
  unfold lock_item, IncrAndTestGuildTokenComboLock. unfold_m. simpl.
  unfold Redis.Incr, Redis.next_fault. simpl.
  set (k := GuildTokenLock g h).
  assert (Hany : ∀ f, Redis.live (Redis.Client clk strs sets f) k
                      = Redis.live (Redis.Client clk strs sets []) k) by done.
  rewrite (Hany (false :: true :: fs)), (Hany (true :: fs)).
  unfold item_deadline.
  destruct (Redis.live (Redis.Client clk strs sets []) k) as [it|] eqn:Hl; simpl.
  - pose proof (live_fresh _ _ _ Hl) as Hf. simpl in Hf.
    assert (Hkeep : Redis.live
              (Redis.Client clk
                 (<[k:=Redis.Item (Redis.value it + 1) (Redis.deadline it)]> strs)
                 sets fs) k
            = Some (Redis.Item (Redis.value it + 1) (Redis.deadline it))).
    { unfold Redis.live. simpl. rewrite lookup_insert_eq.
      unfold Redis.fresh in *. simpl. by rewrite Hf. }
    destruct (Redis.value it + 1 <? mx) eqn:Hb; simpl.
    + apply Z.ltb_lt in Hb. unfold Redis.Expire, Redis.next_fault. simpl.
      unfold Redis.with_strings. simpl. rewrite Hkeep.
      split; [done|]. split; [done|]. intros _. set_solver.
    + apply Z.ltb_ge in Hb. unfold Redis.with_strings. simpl.
      assert (Hkeep' : Redis.live
                (Redis.Client clk
                   (<[k:=Redis.Item (Redis.value it + 1) (Redis.deadline it)]> strs)
                   sets (true :: fs)) k
              = Some (Redis.Item (Redis.value it + 1) (Redis.deadline it))) by exact Hkeep.
      rewrite Hkeep'. split; [split; [done|lia]|]. split; [done|]. done.
  - assert (Hkeep : ∀ f, Redis.live
              (Redis.Client clk (<[k:=Redis.Item 1 None]> strs) sets f) k
            = Some (Redis.Item 1 None)).
    { intros f. unfold Redis.live. simpl. by rewrite lookup_insert_eq. }
    change (0 + 1) with 1.
    destruct (1 <? mx) eqn:Hb; simpl.
    + apply Z.ltb_lt in Hb. unfold Redis.Expire, Redis.next_fault. simpl.
      unfold Redis.with_strings. simpl. rewrite Hkeep.
      split; [done|]. split; [done|]. intros _. set_solver.
    + apply Z.ltb_ge in Hb. unfold Redis.with_strings. simpl. rewrite Hkeep.
      split; [split; [done|lia]|]. split; [done|]. done.
Qed.

Lemma admit_expire_failure_witness :
  let s := fresh_api [false; true] 7 in
  let post := item_count (lock_item s "100" "h1") + 1 in
  let r := IncrAndTestGuildTokenComboLock "100" "h1" s in
  (r.1 = true ↔ post < maxRequests5Seconds s)
  ∧ lock_item r.2 "100" "h1"
    = Some (Redis.Item post (item_deadline (lock_item s "100" "h1")))
  ∧ (r.1 = true → LogErr StoreError ∈ stdlog r.2).
Proof.
  apply (admit_expire_failure "100" "h1" (fresh_api [false; true] 7) []).
  reflexivity.
Defined.

Lemma counter_nonneg_count g h s :
  counter_nonneg g h s → 0 ≤ item_count (lock_item s g h).
Proof.
  intros Hn. unfold lock_item, Redis.live.
  destruct (Redis.strings (client s) !! GuildTokenLock g h) as [it|] eqn:E; [|done].
  destruct (Redis.fresh _ it); simpl; [by apply Hn|done].
Qed.

Lemma small_limit_admit g h g' h' s :
  Redis.healthy (client s) → maxRequests5Seconds s ≤ 1 → counter_nonneg g h s →
  let r := IncrAndTestGuildTokenComboLock g' h' s in
  Redis.healthy (client r.2) ∧ maxRequests5Seconds r.2 ≤ 1
  ∧ counter_nonneg g h r.2
  ∧ (GuildTokenLock g' h' = GuildTokenLock g h → r.1 = false).
Proof.
  intros Hh Hm Hn. simpl. rewrite (admit_healthy g' h' s Hh). simpl.
  split; [done|]. split; [done|].
  destruct (decide (GuildTokenLock g' h' = GuildTokenLock g h)) as [Heq|Hne].
  - pose proof (counter_nonneg_count g h s Hn) as Hc.
    assert (Hl : lock_item s g' h' = lock_item s g h) by (unfold lock_item; by rewrite Heq).
    rewrite Hl. split.
    + intros it. simpl. rewrite Heq, lookup_insert_eq. intros [= <-]. simpl. lia.
    + intros _. apply Z.ltb_ge. lia.
  - split; [|done]. intros it. simpl. rewrite lookup_insert_ne by done. apply Hn.
Qed.

(** X3: with MaxReq5s at 1 or below the gate admits nobody: on a store
    that answers, starting from a counter that is absent or not negative,
    every admit for the pair is refused, whenever it comes and whatever
    else reaches the gate in between. *)
Theorem small_limit_never_admits g h s :
  Redis.healthy (client s) → maxRequests5Seconds s ≤ 1 → counter_nonneg g h s →
  refused_always g h s.
Proof.
  intros Hh Hm Hn ops. revert s Hh Hm Hn.
  induction ops as [|[d|g' h'] ops IH]; intros s Hh Hm Hn t b; simpl.
  - unfold ret. simpl. by intros ?%elem_of_nil.
  - unfold bind at 1. simpl. by apply IH.
  - unfold bind at 1.
    destruct (small_limit_admit g h g' h' s Hh Hm Hn) as (Hh1 & Hm1 & Hn1 & Hb).
    destruct (IncrAndTestGuildTokenComboLock g' h' s) as [b' s1]. simpl in *.
    unfold bind at 1. destruct (run_gate ops s1) as [rs s2] eqn:Hr.
    unfold ret. simpl. intros [Hhd|Htl]%elem_of_cons.
    + injection Hhd as -> -> -> ->. by apply Hb.
    + apply (IH s1 Hh1 Hm1 Hn1 t b). by rewrite Hr.
Qed.

Lemma small_limit_never_admits_witness : refused_always "100" "h1" (fresh_api [] 1).
Proof.
  apply (small_limit_never_admits "100" "h1" (fresh_api [] 1));
    [reflexivity | simpl; lia | intros it; simpl; by rewrite lookup_empty].
Defined.

Lemma shut_for_good_admit g h g' h' s :
  shut_for_good g h s →
  let r := IncrAndTestGuildTokenComboLock g' h' s in
  shut_for_good g h r.2
  ∧ (GuildTokenLock g' h' = GuildTokenLock g h → r.1 = false).
Proof.
  intros (Hh & v & Hv & Hit). simpl. rewrite (admit_healthy g' h' s Hh). simpl.
  destruct (decide (GuildTokenLock g' h' = GuildTokenLock g h)) as [Heq|Hne].
  - assert (Hl : lock_item s g' h' = Some (Redis.Item v None)).
    { unfold lock_item, Redis.live. by rewrite Heq, Hit. }
    rewrite Hl. simpl.
    assert (Hb : (v + 1 <? maxRequests5Seconds s) = false) by (apply Z.ltb_ge; lia).
    rewrite Hb. split; [|done]. split; [done|]. exists (v + 1). simpl.
    split; [lia|]. by rewrite Heq, lookup_insert_eq.
  - split; [|done]. split; [done|]. exists v. simpl. split; [done|].
    by rewrite lookup_insert_ne.
Qed.

Lemma shut_for_good_refused g h s : shut_for_good g h s → refused_always g h s.
Proof.
  intros Hs ops. revert s Hs.
  induction ops as [|[d|g' h'] ops IH]; intros s Hs t b; simpl.
  - unfold ret. simpl. by intros ?%elem_of_nil.
  - unfold bind at 1. simpl. by apply IH.
  - unfold bind at 1.
    destruct (shut_for_good_admit g h g' h' s Hs) as [Hs1 Hb].
    destruct (IncrAndTestGuildTokenComboLock g' h' s) as [b' s1]. simpl in *.
    unfold bind at 1. destruct (run_gate ops s1) as [rs s2] eqn:Hr.
    unfold ret. simpl. intros [Hhd|Htl]%elem_of_cons.
    + injection Hhd as -> -> -> ->. by apply Hb.
    + apply (IH s1 Hs1 t b). by rewrite Hr.
Qed.

(** X4: a blacklist with a zero or negative duration (other than the
    client's KeepTTL value) stores MaxReq5s without any TTL, so on a store
    that answers the pair is refused from then on, for good. *)
Theorem blacklist_without_duration_is_permanent g h d s :
  Redis.healthy (client s) → d ≤ 0 → d ≠ Redis.KeepTTL →
  let r := BlacklistTokenForDuration g h d s in
  r.1 = None
  ∧ lock_item r.2 g h = Some (Redis.Item (maxRequests5Seconds s) None)
  ∧ refused_always g h r.2.
Proof.
  destruct s as [[clk strs sets fl] sess mx lg]. unfold Redis.healthy. simpl.
  intros -> Hd Hk. unfold BlacklistTokenForDuration. unfold_m. simpl.
  unfold Redis.Set_, Redis.next_fault. simpl.
  rewrite (proj2 (Z.ltb_ge _ _) Hd), (proj2 (Z.eqb_neq _ _) Hk). simpl.
  split; [done|]. split.
  - unfold lock_item, Redis.live. simpl. by rewrite lookup_insert_eq.
  - apply shut_for_good_refused. split; [done|]. exists mx. simpl.
    split; [lia|]. by rewrite lookup_insert_eq.
Qed.

Lemma blacklist_without_duration_is_permanent_witness :
  let s := fresh_api [] 7 in
  let r := BlacklistTokenForDuration "100" "h1" 0 s in
  r.1 = None
  ∧ lock_item r.2 "100" "h1" = Some (Redis.Item (maxRequests5Seconds s) None)
  ∧ refused_always "100" "h1" r.2.
Proof.
  apply (blacklist_without_duration_is_permanent "100" "h1" 0 (fresh_api [] 7));
    [reflexivity | lia | unfold Redis.KeepTTL; lia].
Defined.

(** ** What a selection of a secondary session does *)

Lemma cands_from_cons i limit h rest :
  Z.of_nat i ≠ limit →
  cands_from i limit (h :: rest) = h :: cands_from (S i) limit rest.
Proof.
  intros Hne. unfold cands_from.
  destruct (decide (Z.of_nat i ≤ limit)) as [Hle|Hgt].
  - rewrite decide_True by lia.
    replace (Z.to_nat (limit - Z.of_nat i))
      with (S (Z.to_nat (limit - Z.of_nat (S i)))) by lia. done.
  - by rewrite decide_False by lia.
Qed.

Lemma cands_from_limit i h rest : cands_from i (Z.of_nat i) (h :: rest) = [].
Proof.
  unfold cands_from. rewrite decide_True by lia. by rewrite Z.sub_diag.
Qed.

Lemma cands_from_subseteq i limit tokens x :
  x ∈ cands_from i limit tokens → x ∈ tokens.
Proof.
  unfold cands_from. case_decide; [|done]. apply subseteq_take.
Qed.

Lemma visited_subseteq s g cands x : x ∈ visited s g cands → x ∈ cands.
Proof.
  induction cands as [|h rest IH]; simpl; [done|].
  destruct (under_quota s g h && registered s h).
  - intros ->%list_elem_of_singleton. by left.
  - intros [->|Hin]%elem_of_cons; [by left|]. right. by apply IH.
Qed.

Lemma filter_ext_in {A} (P Q : A → Prop) `{∀ x, Decision (P x)}
    `{∀ x, Decision (Q x)} (l : list A) :
  (∀ x, x ∈ l → P x ↔ Q x) → filter P l = filter Q l.
Proof.
  induction l as [|x l IH]; intros Hpq; [done|]. rewrite !filter_cons.
  rewrite IH by (intros y Hy; apply Hpq; by right).
  destruct (decide (P x)) as [Hp|Hn].
  - rewrite decide_True; [done|]. apply Hpq; [by left|done].
  - rewrite decide_False; [done|]. intros Hq. apply Hn. apply Hpq; [by left|done].
Qed.

(** The selection notions only look at the counters of the candidates, the
    limit and the registry. *)
Lemma selection_ext s s' g cands :
  maxRequests5Seconds s' = maxRequests5Seconds s →
  activeSessions s' = activeSessions s →
  (∀ h, h ∈ cands → lock_item s' g h = lock_item s g h) →
  chosen s' g cands = chosen s g cands
  ∧ visited s' g cands = visited s g cands
  ∧ stale s' g cands = stale s g cands.
Proof.
  intros Hm Hs Hl.
  assert (Hu : ∀ h, h ∈ cands → under_quota s' g h = under_quota s g h).
  { intros h Hin. unfold under_quota. by rewrite Hm, (Hl h Hin). }
  assert (Hr : ∀ h, registered s' h = registered s h).
  { intros h. unfold registered. by rewrite Hs. }
  assert (Hcv : chosen s' g cands = chosen s g cands
                ∧ visited s' g cands = visited s g cands).
  { clear Hl. induction cands as [|h rest IH]; simpl; [done|].
    rewrite (Hu h) by (by left). rewrite Hr.
    destruct (IH (λ x Hx, Hu x (list_elem_of_further _ _ _ Hx))) as [-> ->]. done. }
  destruct Hcv as [Hc Hv]. split; [done|]. split; [done|].
  unfold stale. rewrite Hv. apply filter_ext_in.
  intros h Hin. rewrite Hr, Hu; [done|]. by apply (visited_subseteq s g).
Qed.

Lemma filter_not_in_nil (l : list string) : filter (λ m, m ∉ []) l = l.
Proof.
  induction l as [|x l IH]; [done|]. rewrite filter_cons.
  rewrite decide_True by apply not_elem_of_nil. by rewrite IH.
Qed.

Lemma filter_not_in_cons (h : string) (st l : list string) :
  filter (λ m, m ∉ st) (filter (λ m, m ≠ h) l) = filter (λ m, m ∉ h :: st) l.
Proof.
  induction l as [|x l IH]; [done|]. rewrite !filter_cons.
  destruct (decide (x ≠ h)) as [Hne|Heq].
  - rewrite filter_cons. destruct (decide (x ∉ st)) as [Hn|Hi].
    + rewrite decide_True by (rewrite not_elem_of_cons; done). by rewrite IH.
    + rewrite decide_False; [done|]. intros Hn. apply Hi.
      by apply not_elem_of_cons in Hn as [_ ?].
  - rewrite decide_False; [done|]. intros Hn. apply Heq.
    by apply not_elem_of_cons in Hn as [? _].
Qed.

Lemma stale_nil s g : stale s g [] = [].
Proof. done. Qed.

Lemma stale_cons_chosen s g h rest :
  under_quota s g h = true → registered s h = true →
  stale s g (h :: rest) = [].
Proof.
  intros Hu Hr. unfold stale. simpl. rewrite Hu, Hr. simpl.
  rewrite filter_cons. rewrite Hu, Hr. simpl.
  destruct (decide False) as [[]|_]. done.
Qed.

Lemma stale_cons_stale s g h rest :
  under_quota s g h = true → registered s h = false →
  stale s g (h :: rest) = h :: stale s g rest.
Proof.
  intros Hu Hr. unfold stale. simpl. rewrite Hu, Hr. simpl.
  rewrite filter_cons. rewrite Hu, Hr. simpl.
  destruct (decide True) as [_|Hn]; [done|]. by destruct Hn.
Qed.

Lemma stale_cons_refused s g h rest :
  under_quota s g h = false → stale s g (h :: rest) = stale s g rest.
Proof.
  intros Hu. unfold stale. simpl. rewrite Hu. simpl.
  rewrite filter_cons. rewrite Hu. simpl.
  destruct (decide False) as [[]|_]. done.
Qed.

(** One admission on a store that answers, seen from the selection. *)
Lemma admit_selection g h s :
  Redis.healthy (client s) →
  let a := IncrAndTestGuildTokenComboLock g h s in
  a.1 = under_quota s g h
  ∧ Redis.healthy (client a.2)
  ∧ Redis.clock (client a.2) = Redis.clock (client s)
  ∧ activeSessions a.2 = activeSessions s
  ∧ maxRequests5Seconds a.2 = maxRequests5Seconds s
  ∧ members a.2 g = members s g
  ∧ lock_item a.2 g h = Some (charged_item s g h)
  ∧ (∀ h', h' ≠ h → lock_item a.2 g h' = lock_item s g h').
Proof.
  intros Hh a.
  destruct (faults_admit g h s Hh) as (Hh1 & Hc1 & Hs1 & Hm1 & Hsets1 & Hk1).
  pose proof (admit_lock_after g h s Hh) as Hl. simpl in Hl.
  assert (Ha : a.1 = under_quota s g h).
  { unfold a. by rewrite (admit_healthy g h s Hh). }
  fold a in Hh1, Hc1, Hs1, Hm1, Hsets1, Hk1, Hl.
  repeat (split; [done|]). split; [unfold members; by rewrite Hsets1|]. split.
  - rewrite Hl. unfold charged_item. by rewrite Ha.
  - intros h' Hne. apply lock_item_eq; [done|]. apply Hk1.
    intros Heq%GuildTokenLock_inj. done.
Qed.

(** What one run of the loop does on a store that answers, when no token
    occurs twice. *)
Lemma getAnySession_from_spec g limit tokens :
  ∀ i s,
    Redis.healthy (client s) → NoDup tokens →
    let cands := cands_from i limit tokens in
    let r := getAnySession_from i g tokens limit s in
    r.1 = selection_answer s (chosen s g cands)
    ∧ (∀ h, lock_item r.2 g h
            = if decide (h ∈ visited s g cands) then Some (charged_item s g h)
              else lock_item s g h)
    ∧ members r.2 g = filter (λ m, m ∉ stale s g cands) (members s g).
Proof.
  induction tokens as [|h rest IH]; intros i s Hh Hnd.
  - assert (Hc : cands_from i limit [] = []).
    { unfold cands_from. case_decide; [apply take_nil|done]. }
    cbv zeta. rewrite Hc. simpl. unfold ret. simpl.
    split; [done|]. split; [done|]. change (stale s g []) with (@nil string). by rewrite filter_not_in_nil.
  - apply NoDup_cons in Hnd as [Hnotin Hnd].
    cbv zeta. rewrite getAnySession_from_cons.
    destruct (Z.of_nat i =? limit) eqn:E.
    { apply Z.eqb_eq in E. subst limit. rewrite cands_from_limit. simpl.
      split; [done|]. split; [done|].
      change (stale s g []) with (@nil string). by rewrite filter_not_in_nil. }
    apply Z.eqb_neq in E. rewrite (cands_from_cons i limit h rest E).
    set (cands := cands_from (S i) limit rest).
    assert (Hcsub : ∀ x, x ∈ cands → x ≠ h).
    { intros x Hx%cands_from_subseteq ->. done. }
    destruct (admit_selection g h s Hh) as (Ha & Hh1 & Hc1 & Hs1 & Hm1 & Hmem1 & Hl1 & Ho1).
    cbv zeta. destruct (IncrAndTestGuildTokenComboLock g h s) as [b s1].
    cbn [fst snd] in *. subst b.
    assert (Hreg : registered s h = bool_decide (is_Some (activeSessions s1 !! h))).
    { unfold registered. by rewrite Hs1. }
    cbn [chosen visited].
    destruct (under_quota s g h) eqn:Hu.
    + destruct (activeSessions s1 !! h) as [x|] eqn:Hx.
      * rewrite Hreg, bool_decide_eq_true_2 by (by exists x). simpl.
        rewrite <- Hs1, Hx. split; [done|]. split.
        -- intros h'. destruct (decide (h' = h)) as [->|Hne].
           ++ rewrite decide_True by (by left). done.
           ++ rewrite decide_False by (by intros ->%list_elem_of_singleton).
              by apply Ho1.
        -- assert (Hr : registered s h = true).
           { rewrite Hreg. apply bool_decide_eq_true_2. by exists x. }
           by rewrite (stale_cons_chosen s g h _ Hu Hr), filter_not_in_nil.
      * rewrite Hreg, bool_decide_eq_false_2 by (by intros [? ?]). simpl.
        destruct (after_srem_healthy g h s1 Hh1)
          as (Hh2 & Hc2 & Hs2 & Hm2 & Hstr2 & _ & Hmem2).
        set (s2 := after_srem g h s1) in *.
        assert (Hl2 : ∀ h', lock_item s2 g h' = lock_item s1 g h').
        { intros h'. apply lock_item_eq; [done|]. by rewrite Hstr2. }
        destruct (selection_ext s s2 g cands) as (Ech & Evi & Est).
        { congruence. } { congruence. }
        { intros h' Hin. rewrite Hl2. apply Ho1. by apply Hcsub. }
        destruct (IH (S i) s2 Hh2 Hnd) as (Hres & Hlock & Hmem).
        fold cands in Hres, Hlock, Hmem.
        rewrite Ech in Hres. rewrite Evi in Hlock. rewrite Est in Hmem.
        split; [|split].
        -- rewrite Hres. unfold selection_answer.
           destruct (chosen s g cands); [|done]. by rewrite Hs2, Hs1.
        -- intros h'. rewrite Hlock. destruct (decide (h' = h)) as [->|Hne].
           ++ rewrite decide_False.
              ** rewrite decide_True by (by left). by rewrite Hl2.
              ** intros Hin%visited_subseteq. by apply (Hcsub h).
           ++ destruct (decide (h' ∈ visited s g cands)) as [Hin|Hnin].
              ** rewrite decide_True by (by right). unfold charged_item.
                 unfold under_quota. rewrite !Hl2, !(Ho1 h' Hne), Hc2, Hc1, Hm2, Hm1.
                 done.
              ** rewrite decide_False by (intros [?|?]%elem_of_cons; done).
                 rewrite Hl2. by apply Ho1.
        -- assert (Hr : registered s h = false).
           { rewrite Hreg. apply bool_decide_eq_false_2. by intros [? ?]. }
           rewrite (stale_cons_stale s g h _ Hu Hr).
           by rewrite Hmem, Hmem2, Hmem1, filter_not_in_cons.
    + simpl.
      set (s2 := after_skip s1).
      assert (Hh2 : Redis.healthy (client s2)) by done.
      assert (Hl2 : ∀ h', lock_item s2 g h' = lock_item s1 g h') by done.
      destruct (selection_ext s s2 g cands) as (Ech & Evi & Est).
      { exact Hm1. } { exact Hs1. }
      { intros h' Hin. rewrite Hl2. apply Ho1. by apply Hcsub. }
      destruct (IH (S i) s2 Hh2 Hnd) as (Hres & Hlock & Hmem).
      fold cands in Hres, Hlock, Hmem.
      rewrite Ech in Hres. rewrite Evi in Hlock. rewrite Est in Hmem.
      split; [|split].
      * rewrite Hres. unfold selection_answer.
        destruct (chosen s g cands); [|done]. change (activeSessions s2) with (activeSessions s1).
        by rewrite Hs1.
      * intros h'. rewrite Hlock. destruct (decide (h' = h)) as [->|Hne].
        -- rewrite decide_False.
           ++ rewrite decide_True by (by left). by rewrite Hl2.
           ++ intros Hin%visited_subseteq. by apply (Hcsub h).
        -- destruct (decide (h' ∈ visited s g cands)) as [Hin|Hnin].
           ++ rewrite decide_True by (by right). unfold charged_item.
              unfold under_quota. rewrite !Hl2, !(Ho1 h' Hne).
              change (Redis.clock (client s2)) with (Redis.clock (client s1)).
              change (maxRequests5Seconds s2) with (maxRequests5Seconds s1).
              by rewrite Hc1, Hm1.
           ++ rewrite decide_False by (intros [?|?]%elem_of_cons; done).
              rewrite Hl2. by apply Ho1.
      * rewrite (stale_cons_refused s g h _ Hu).
        rewrite Hmem. change (members s2 g) with (members s1 g). by rewrite Hmem1.
Qed.

Lemma chosen_first s g cands :
  match chosen s g cands with
  | Some h =>
      ∃ pre post, cands = pre ++ h :: post
        ∧ under_quota s g h = true ∧ registered s h = true
        ∧ Forall (λ x, under_quota s g x && registered s x = false) pre
  | None => Forall (λ x, under_quota s g x && registered s x = false) cands
  end.
Proof.
  induction cands as [|h rest IH]; simpl; [done|].
  destruct (under_quota s g h && registered s h) eqn:E.
  - apply andb_true_iff in E as [Hu Hr]. by exists [], rest.
  - destruct (chosen s g rest) as [h'|].
    + destruct IH as (pre & post & -> & Hu & Hr & Hall).
      exists (h :: pre), post. repeat split; try done. by constructor.
    + by constructor.
Qed.

Lemma visited_prefix s g cands : visited s g cands `prefix_of` cands.
Proof.
  induction cands as [|h rest IH]; simpl; [done|].
  destruct (under_quota s g h && registered s h).
  - by exists rest.
  - by apply prefix_cons.
Qed.

(** X5: on a store that answers, and for tokens that are pairwise
    distinct, getAnySession hands out the session of the first token, among
    those before the index reaches limit, whose counter is under quota and
    which is registered, together with that token; when there is none it
    returns no session and the empty token. *)
Theorem getAnySession_selects_first_usable g tokens limit s :
  Redis.healthy (client s) → NoDup tokens →
  let cands := candidates limit tokens in
  let r := getAnySession g tokens limit s in
  r.1 = selection_answer s (chosen s g cands)
  ∧ match chosen s g cands with
    | Some h =>
        ∃ pre post, cands = pre ++ h :: post
          ∧ under_quota s g h = true ∧ registered s h = true
          ∧ Forall (λ x, under_quota s g x && registered s x = false) pre
    | None => Forall (λ x, under_quota s g x && registered s x = false) cands
    end.
Proof.
  intros Hh Hnd cands r.
  destruct (getAnySession_from_spec g limit tokens 0%nat s Hh Hnd) as (Hres & _ & _).
  split; [exact Hres|]. apply chosen_first.
Qed.

Lemma getAnySession_selects_first_usable_witness :
  let s := guild_api in
  let cands := candidates 3 ["h1"; "h2"] in
  let r := getAnySession "100" ["h1"; "h2"] 3 s in
  r.1 = selection_answer s (chosen s "100" cands)
  ∧ match chosen s "100" cands with
    | Some h =>
        ∃ pre post, cands = pre ++ h :: post
          ∧ under_quota s "100" h = true ∧ registered s h = true
          ∧ Forall (λ x, under_quota s "100" x && registered s x = false) pre
    | None => Forall (λ x, under_quota s "100" x && registered s x = false) cands
    end.
Proof.
  apply (getAnySession_selects_first_usable "100" ["h1"; "h2"] 3 guild_api);
    [reflexivity | apply (bool_decide_unpack _); vm_compute; exact I].
Defined.

(** X6: on a store that answers, and for tokens that are pairwise
    distinct, one call of getAnySession charges one unit to the counter of
    each token it visits (the candidates up to and including the one it
    hands out), giving it a 5-second TTL exactly when it was under quota,
    and leaves the counter of every other token of the guild as it was. *)
Theorem getAnySession_charges_visited g tokens limit s :
  Redis.healthy (client s) → NoDup tokens →
  let cands := candidates limit tokens in
  let r := getAnySession g tokens limit s in
  visited s g cands `prefix_of` cands
  ∧ ∀ h, lock_item r.2 g h
         = if decide (h ∈ visited s g cands) then Some (charged_item s g h)
           else lock_item s g h.
Proof.
  intros Hh Hnd cands r.
  destruct (getAnySession_from_spec g limit tokens 0%nat s Hh Hnd) as (_ & Hlock & _).
  split; [apply visited_prefix|exact Hlock].
Qed.

Lemma getAnySession_charges_visited_witness :
  let s := guild_api in
  let cands := candidates 3 ["h1"; "h2"; "h3"] in
  let r := getAnySession "100" ["h1"; "h2"; "h3"] 3 s in
  visited s "100" cands `prefix_of` cands
  ∧ ∀ h, lock_item r.2 "100" h
         = if decide (h ∈ visited s "100" cands) then Some (charged_item s "100" h)
           else lock_item s "100" h.
Proof.
  apply (getAnySession_charges_visited "100" ["h1"; "h2"; "h3"] 3 guild_api);
    [reflexivity | apply (bool_decide_unpack _); vm_compute; exact I].
Defined.

(** X7: on a store that answers, and for tokens that are pairwise
    distinct, one call of getAnySession removes from the guild's token set
    exactly the visited tokens that were under quota and had no session;
    every other member stays, in its place. *)
Theorem getAnySession_prunes_exactly_stale g tokens limit s :
  Redis.healthy (client s) → NoDup tokens →
  let cands := candidates limit tokens in
  let r := getAnySession g tokens limit s in
  members r.2 g = filter (λ m, m ∉ stale s g cands) (members s g)
  ∧ ∀ m, m ∈ members r.2 g
         ↔ m ∈ members s g
           ∧ ¬ (m ∈ visited s g cands ∧ under_quota s g m = true
                ∧ activeSessions s !! m = None).
Proof.
  intros Hh Hnd cands r.
  destruct (getAnySession_from_spec g limit tokens 0%nat s Hh Hnd) as (_ & _ & Hmem).
  split; [exact Hmem|]. intros m. subst r cands. unfold getAnySession, candidates.
  rewrite Hmem, list_elem_of_filter. unfold stale.
  rewrite list_elem_of_filter, andb_True, negb_True. unfold registered.
  rewrite Is_true_true, bool_decide_spec, <- eq_None_not_Some. tauto.
Qed.

Lemma getAnySession_prunes_exactly_stale_witness :
  let s := guild_api in
  let cands := candidates 3 ["h1"; "h2"] in
  let r := getAnySession "100" ["h1"; "h2"] 3 s in
  members r.2 "100" = filter (λ m, m ∉ stale s "100" cands) (members s "100")
  ∧ ∀ m, m ∈ members r.2 "100"
         ↔ m ∈ members s "100"
           ∧ ¬ (m ∈ visited s "100" cands ∧ under_quota s "100" m = true
                ∧ activeSessions s !! m = None).
Proof.
  apply (getAnySession_prunes_exactly_stale "100" ["h1"; "h2"] 3 guild_api);
    [reflexivity | apply (bool_decide_unpack _); vm_compute; exact I].
Defined.

Lemma after_srem_keeps_registry g h s :
  activeSessions (after_srem g h s) = activeSessions s
  ∧ maxRequests5Seconds (after_srem g h s) = maxRequests5Seconds s.
Proof.
  unfold after_srem, on_client.
  by destruct (Redis.SRem (GuildTokensKey g) h (client s)).
Qed.

(** What a run of the loop never does, whatever the store answers. *)
Lemma getAnySession_from_safe g limit tokens :
  ∀ i s,
    let r := getAnySession_from i g tokens limit s in
    activeSessions r.2 = activeSessions s
    ∧ maxRequests5Seconds r.2 = maxRequests5Seconds s
    ∧ (∀ x t, r.1 = (Some x, t) →
              activeSessions s !! t = Some x ∧ t ∈ cands_from i limit tokens)
    ∧ (r.1.1 = None → r.1.2 = "").
Proof.
  induction tokens as [|h rest IH]; intros i s.
  - simpl. unfold ret. simpl. repeat split; done.
  - cbv zeta. rewrite getAnySession_from_cons.
    destruct (Z.of_nat i =? limit) eqn:E; [simpl; repeat split; done|].
    apply Z.eqb_neq in E. rewrite (cands_from_cons i limit h rest E).
    destruct (admit_keeps_registry g h s) as [Hs1 Hm1]. cbv zeta.
    destruct (IncrAndTestGuildTokenComboLock g h s) as [b s1]. cbn [fst snd] in *.
    destruct b.
    + destruct (activeSessions s1 !! h) as [x|] eqn:Hx.
      * simpl. repeat split; try done.
        -- injection H as <- <-. by rewrite <- Hs1.
        -- injection H as <- <-. by left.
      * destruct (after_srem_keeps_registry g h s1) as [Hs2 Hm2].
        destruct (IH (S i) (after_srem g h s1)) as (A & B & C & D).
        repeat split; try congruence.
        -- apply C in H as [H _]. congruence.
        -- apply C in H as [_ H]. by right.
        -- done.
    + destruct (IH (S i) (after_skip s1)) as (A & B & C & D).
      repeat split; try (simpl in *; congruence).
      * apply C in H as [H _]. simpl in H. congruence.
      * apply C in H as [_ H]. by right.
      * done.
Qed.

(** X8: whatever the store answers, getAnySession changes neither the
    registry nor the limit, hands out a session only together with the
    token it is registered under, that token being one of the candidates,
    and returns the empty token when it hands out none. *)
Theorem getAnySession_returns_registered_only g tokens limit s :
  let r := getAnySession g tokens limit s in
  activeSessions r.2 = activeSessions s
  ∧ maxRequests5Seconds r.2 = maxRequests5Seconds s
  ∧ (∀ x t, r.1 = (Some x, t) →
            activeSessions s !! t = Some x ∧ t ∈ candidates limit tokens)
  ∧ (r.1.1 = None → r.1.2 = "").
Proof. apply getAnySession_from_safe. Qed.

(** ** The session registry *)

Section SessionsFacts.

Variable sha256_hex : string → string.
Variable WaitForToken : string → Redis.client → Redis.client.
Variable LockForToken : string → Redis.client → Redis.client.
Variable discordgo_New : string → error + Session.
Variable Session_Open : Session → option error.

Local Abbreviation openAndStart :=
  (openAndStartSessionWithToken sha256_hex WaitForToken LockForToken
     discordgo_New Session_Open).
Local Abbreviation connects_ := (connects discordgo_New Session_Open).
Local Abbreviation hash := (hashToken sha256_hex).

(** The two ways a call can end: nothing registered, or the new session
    registered under a key that was free. *)
Lemma openAndStart_cases tok s :
  let r := openAndStart tok s in
  (r.1 = false ∧ activeSessions r.2 = activeSessions s
   ∧ (is_Some (activeSessions s !! hash tok) ∨ ∀ sess, ¬ connects_ tok sess))
  ∨ (r.1 = true ∧ activeSessions s !! hash tok = None
     ∧ ∃ sess, connects_ tok sess
         ∧ activeSessions r.2 = <[hash tok := sess]> (activeSessions s)).
Proof.
  unfold openAndStartSessionWithToken, connects. unfold_m. simpl.
  destruct (activeSessions s !! hash tok) as [x|] eqn:Hk; simpl.
  { left. split; [done|]. split; [done|]. left. by exists x. }
  destruct (discordgo_New ("Bot " +:+ tok)) as [e|sess] eqn:Hn; simpl.
  { left. split; [done|]. split; [done|]. right. intros sess [H _]. congruence. }
  destruct (Session_Open sess) as [e|] eqn:Ho; simpl.
  { left. split; [done|]. split; [done|]. right. intros sess' [H H']. congruence. }
  right. split; [done|]. split; [done|]. exists sess. unfold register. simpl. done.
Qed.

(** X9: openAndStartSessionWithToken returns true exactly when the
    token's hash is not yet registered and the chat service accepts the
    credential; it then registers the new session under that hash and
    touches no other entry; in every other case the registry is left as it
    was, so a session once registered is never replaced, and a second call
    for the same credential registers nothing. *)
Theorem openAndStart_registers_once tok s :
  let k := hashToken sha256_hex tok in
  let r := openAndStartSessionWithToken sha256_hex WaitForToken LockForToken
             discordgo_New Session_Open tok s in
  (r.1 = true ↔ activeSessions s !! k = None ∧ ∃ sess, connects_ tok sess)
  ∧ (∀ sess, r.1 = true → connects_ tok sess →
             activeSessions r.2 = <[k := sess]> (activeSessions s))
  ∧ (r.1 = false → activeSessions r.2 = activeSessions s)
  ∧ (∀ k' x, activeSessions s !! k' = Some x → activeSessions r.2 !! k' = Some x)
  ∧ (r.1 = true →
     (openAndStart tok r.2).1 = false
     ∧ activeSessions (openAndStart tok r.2).2 = activeSessions r.2).
Proof.
  intros k r.
  destruct (openAndStart_cases tok s) as [(Hf & Hsame & Hwhy)|(Ht & Hfree & sess & Hc & Hins)];
    fold r in Hf || fold r in Ht.
  - fold r in Hsame. split; [|split; [|split; [|split]]].
    + split; [congruence|]. intros [Hnone [sess Hc]].
      destruct Hwhy as [[x Hx]|Hno]; [unfold k in *; congruence|by destruct (Hno sess)].
    + congruence.
    + done.
    + intros k' x Hx. by rewrite Hsame.
    + congruence.
  - fold r in Hins. split; [|split; [|split; [|split]]].
    + split; [intros _; split; [done|by exists sess]|done].
    + intros sess' _ [Hn' _]. destruct Hc as [Hn _].
      assert (sess' = sess) as -> by congruence. done.
    + congruence.
    + intros k' x Hx. rewrite Hins.
      destruct (decide (hash tok = k')) as [<-|Hne]; [congruence|].
      by rewrite lookup_insert_ne.
    + intros _.
      destruct (openAndStart_cases tok r.2)
        as [(Hf2 & Hsame2 & _)|(_ & Hfree2 & _)]; [done|].
      rewrite Hins, lookup_insert_eq in Hfree2. done.
Qed.

(** What the range over the credentials does to the registry. *)
Lemma start_each_registry tokens :
  ∀ s,
    let after := activeSessions (start_each sha256_hex WaitForToken LockForToken
                                   discordgo_New Session_Open tokens s).2 in
    (∀ k x, activeSessions s !! k = Some x → after !! k = Some x)
    ∧ (∀ k x, after !! k = Some x →
              activeSessions s !! k = Some x
              ∨ ∃ tok, tok ∈ tokens ∧ k = hash tok ∧ connects_ tok x)
    ∧ (∀ tok x, tok ∈ tokens → connects_ tok x → is_Some (after !! hash tok)).
Proof.
  induction tokens as [|tok rest IH]; intros s.
  - simpl. unfold ret. simpl. repeat split; [done|by left|].
    by intros tok x ?%elem_of_nil.
  - assert (Heq : (start_each sha256_hex WaitForToken LockForToken discordgo_New
                     Session_Open (tok :: rest) s).2
                  = (start_each sha256_hex WaitForToken LockForToken discordgo_New
                       Session_Open rest (openAndStart tok s).2).2).
    { cbn [start_each]. unfold bind. by destruct (openAndStart tok s). }
    cbv zeta. rewrite Heq. clear Heq.
    pose proof (openAndStart_cases tok s) as Hc. cbv zeta in Hc.
    destruct (openAndStart tok s) as [b s1]. cbn [fst snd] in *.
    destruct (IH s1) as (Hkeep & Hnew & Hall).
    destruct Hc as [(_ & Hsame & Hwhy)|(_ & Hfree & sess & Hcon & Hins)].
    + rewrite Hsame in *. split; [done|]. split.
      * intros k x Hx. destruct (Hnew k x Hx) as [?|(t & Ht & ? & ?)]; [by left|].
        right. exists t. split; [by right|done].
      * intros t x [->|Hin]%elem_of_cons Hcx; [|by eapply Hall].
        destruct Hwhy as [[y Hy]|Hno]; [|by destruct (Hno x)].
        exists y. by apply Hkeep.
    + split; [|split].
      * intros k x Hx. apply Hkeep. rewrite Hins.
        destruct (decide (hash tok = k)) as [<-|Hne]; [congruence|].
        by rewrite lookup_insert_ne.
      * intros k x Hx. destruct (Hnew k x Hx) as [Hold|(t & Ht & ? & ?)].
        -- rewrite Hins in Hold.
           destruct (decide (hash tok = k)) as [<-|Hne].
           ++ rewrite lookup_insert_eq in Hold. injection Hold as <-.
              right. exists tok. split; [by left|done].
           ++ rewrite lookup_insert_ne in Hold by done. by left.
        -- right. exists t. split; [by right|done].
      * intros t x [->|Hin]%elem_of_cons Hcx; [|by eapply Hall].
        exists sess. apply Hkeep. by rewrite Hins, lookup_insert_eq.
Qed.

(** X10: PopulateAndStartSessions only ever adds to the registry: every
    session registered before is still registered under its key; every new
    entry is the session of a stored credential the chat service accepted,
    under that credential's hash; every stored credential the service
    accepts has its hash registered afterwards; and when reading the stored
    credentials fails the registry is left as it was. *)
Theorem PopulateAndStartSessions_only_adds stored s :
  let r := PopulateAndStartSessions sha256_hex WaitForToken LockForToken
             discordgo_New Session_Open stored s in
  let after := activeSessions r.2 in
  (∀ k x, activeSessions s !! k = Some x → after !! k = Some x)
  ∧ (∀ k x, after !! k = Some x →
            activeSessions s !! k = Some x
            ∨ ∃ tok, tok ∈ stored.*2 ∧ k = hash tok ∧ connects_ tok x)
  ∧ ((Redis_HGetAll stored (client s)).1.2 = None →
     ∀ tok x, tok ∈ stored.*2 → connects_ tok x → is_Some (after !! hash tok))
  ∧ ((Redis_HGetAll stored (client s)).1.2 ≠ None → after = activeSessions s).
Proof.
  unfold PopulateAndStartSessions, Redis_HGetAll. unfold_m.
  destruct (Redis.next_fault (client s)) as [[] c1] eqn:Hf; simpl.
  - repeat split; try done. by left.
  - pose proof (start_each_registry stored.*2
                  (MkAPI c1 (activeSessions s) (maxRequests5Seconds s) (stdlog s)))
      as (Hkeep & Hnew & Hall). simpl in *.
    repeat split; try done.
Qed.

End SessionsFacts.

(** Reading the guild's tokens on a store that answers. *)
Lemma getAllTokensForGuild_healthy g s :
  Redis.healthy (client s) → getAllTokensForGuild g s = (members s g, s).
Proof.
  destruct s as [[clk strs sets fl] sess mx lg]. unfold Redis.healthy. simpl.
  intros ->. reflexivity.
Qed.

Lemma visited_unregistered s g cands :
  activeSessions s = ∅ → visited s g cands = cands.
Proof.
  intros He. induction cands as [|h rest IH]; simpl; [done|].
  assert (Hr : registered s h = false).
  { unfold registered. rewrite He, lookup_empty. apply bool_decide_eq_false_2.
    by intros [? ?]. }
  rewrite Hr, andb_false_r. by rewrite IH.
Qed.

(** X11: after Close the registry is empty and the store is as it was;
    from then on getAnySession hands out no session, whatever the store
    answers, and on a store that answers (tokens pairwise distinct) it
    removes from the guild's token set every candidate that is under
    quota, and nothing else. *)
Theorem after_Close_nothing_is_selected stopAll g tokens limit s :
  let s0 := (Close stopAll s).2 in
  let r := getAnySession g tokens limit s0 in
  activeSessions s0 = ∅
  ∧ client s0 = client s
  ∧ r.1 = (None, "")
  ∧ (Redis.healthy (client s) → NoDup tokens →
     ∀ m, m ∈ members r.2 g
          ↔ m ∈ members s g
            ∧ ¬ (m ∈ candidates limit tokens ∧ under_quota s g m = true)).
Proof.
  intros s0 r.
  assert (He : activeSessions s0 = ∅) by (by destruct stopAll).
  assert (Hc : client s0 = client s) by (by destruct stopAll).
  assert (Hm : maxRequests5Seconds s0 = maxRequests5Seconds s) by (by destruct stopAll).
  split; [done|]. split; [done|]. split.
  - destruct (getAnySession_from_safe g limit tokens 0%nat s0) as (_ & _ & Hreg & Hnone).
    fold (getAnySession g tokens limit s0) in Hreg, Hnone. fold r in Hreg, Hnone.
    destruct r.1 as [[x|] t] eqn:Hr.
    + destruct (Hreg x t eq_refl) as [Hx _]. by rewrite He, lookup_empty in Hx.
    + simpl in Hnone. by rewrite Hnone.
  - intros Hh Hnd m.
    assert (Hh0 : Redis.healthy (client s0)) by (by rewrite Hc).
    destruct (getAnySession_from_spec g limit tokens 0%nat s0 Hh0 Hnd) as (_ & _ & Hmem).
    fold (getAnySession g tokens limit s0) in Hmem. fold r in Hmem.
    fold (candidates limit tokens) in Hmem.
    assert (Hu : ∀ h, under_quota s0 g h = under_quota s g h).
    { intros h. unfold under_quota, lock_item. by rewrite Hc, Hm. }
    assert (Hmem0 : members s0 g = members s g) by (unfold members; by rewrite Hc).
    rewrite Hmem, Hmem0, list_elem_of_filter. unfold stale.
    rewrite list_elem_of_filter, (visited_unregistered s0 g _ He).
    assert (Hr : registered s0 m = false).
    { unfold registered. rewrite He, lookup_empty. apply bool_decide_eq_false_2.
      by intros [? ?]. }
    rewrite Hr, Hu, andb_true_r, Is_true_true. tauto.
Qed.

Lemma newGuild_range_absent h g keys :
  ∀ s, h ∉ keys → newGuild_range h g keys s = (tt, s).
Proof.
  induction keys as [|t rest IH]; intros s Hn; [done|].
  apply not_elem_of_cons in Hn as [Hne Hn].
  cbn [newGuild_range]. rewrite decide_False by done.
  unfold bind at 1, ret at 1. by apply IH.
Qed.

(** The range over the keys of the registry comes down to one command for
    a registered token, and to nothing for any other. *)
Lemma newGuild_range_spec h g keys :
  ∀ s, NoDup keys →
    newGuild_range h g keys s
    = if decide (h ∈ keys)
      then (tt, (on_client (Redis_SAdd (GuildTokensKey g) h) s).2)
      else (tt, s).
Proof.
  induction keys as [|t rest IH]; intros s Hnd.
  - by rewrite decide_False by apply not_elem_of_nil.
  - apply NoDup_cons in Hnd as [Hnotin Hnd]. cbn [newGuild_range].
    destruct (decide (h = t)) as [->|Hne].
    + rewrite decide_True by (by left). unfold bind at 1. unfold bind at 1.
      destruct (on_client (Redis_SAdd (GuildTokensKey g) t) s) as [e s1].
      unfold ret at 1. cbn [snd]. by apply newGuild_range_absent.
    + unfold bind at 1, ret at 1. rewrite (IH s Hnd).
      destruct (decide (h ∈ rest)) as [Hin|Hnin].
      * rewrite decide_True by (by right). done.
      * rewrite decide_False; [done|]. by intros [?|?]%elem_of_cons.
Qed.

Lemma registry_keys (m : gmap string Session) h :
  h ∈ (map_to_list m).*1 ↔ is_Some (m !! h).
Proof.
  rewrite list_elem_of_fmap. split.
  - intros ([k x] & -> & Hin). apply elem_of_map_to_list in Hin. by exists x.
  - intros [x Hx]. exists (h, x). split; [done|]. by apply elem_of_map_to_list.
Qed.

Lemma SAdd_healthy g h s :
  Redis.healthy (client s) →
  let s1 := (on_client (Redis_SAdd (GuildTokensKey g) h) s).2 in
  Redis.healthy (client s1)
  ∧ members s1 g = (if decide (h ∈ members s g) then members s g
                    else members s g ++ [h])
  ∧ (∀ g', GuildTokensKey g' ≠ GuildTokensKey g → members s1 g' = members s g')
  ∧ Redis.strings (client s1) = Redis.strings (client s)
  ∧ Redis.clock (client s1) = Redis.clock (client s)
  ∧ activeSessions s1 = activeSessions s
  ∧ maxRequests5Seconds s1 = maxRequests5Seconds s.
Proof.
  destruct s as [[clk strs sets fl] sess mx lg]. unfold Redis.healthy. simpl.
  intros ->. unfold members. simpl. rewrite lookup_insert_eq. simpl.
  repeat split; try done. intros g' Hne. by rewrite lookup_insert_ne.
Qed.

Lemma newGuild_unfold h g s :
  newGuild h g s
  = if decide (is_Some (activeSessions s !! h))
    then (tt, (on_client (Redis_SAdd (GuildTokensKey g) h) s).2)
    else (tt, s).
Proof.
  unfold newGuild.
  rewrite newGuild_range_spec by apply NoDup_fst_map_to_list.
  destruct (decide (h ∈ (map_to_list (activeSessions s)).*1)) as [Hin|Hnin].
  - rewrite decide_True; [done|]. by apply registry_keys.
  - rewrite decide_False; [done|]. by rewrite <- registry_keys.
Qed.

(** X12: the handler newGuild issues its SADD exactly when the token is
    registered: for an unregistered token it changes nothing at all; for a
    registered one, on a store that answers, the token is a member of the
    guild's set afterwards (appended when it was not one), the sets of other
    keys, the counters and the registry are untouched, and a repeated
    event changes nothing more. *)
Theorem newGuild_announces_registered h g s :
  (activeSessions s !! h = None → newGuild h g s = (tt, s))
  ∧ (is_Some (activeSessions s !! h) → Redis.healthy (client s) →
     let s1 := (newGuild h g s).2 in
     members s1 g = (if decide (h ∈ members s g) then members s g
                     else members s g ++ [h])
     ∧ h ∈ members s1 g
     ∧ (∀ g', GuildTokensKey g' ≠ GuildTokensKey g → members s1 g' = members s g')
     ∧ Redis.strings (client s1) = Redis.strings (client s)
     ∧ activeSessions s1 = activeSessions s
     ∧ members (newGuild h g s1).2 g = members s1 g).
Proof.
  pose proof (newGuild_unfold h g) as Hspec.
  split.
  - intros Hnone. rewrite Hspec, decide_False; [done|]. rewrite Hnone. by intros [? ?].
  - intros Hreg Hh s1. unfold s1. rewrite Hspec, decide_True by done. cbn [snd].
    destruct (SAdd_healthy g h s Hh) as (Hh1 & Hmem & Hoth & Hstr & Hclk & Hses & Hmx).
    set (s2 := (on_client (Redis_SAdd (GuildTokensKey g) h) s).2) in *.
    assert (Hin : h ∈ members s2 g).
    { rewrite Hmem. case_decide; [done|]. apply elem_of_app. right. by left. }
    repeat (split; [done|]).
    rewrite Hspec, decide_True by (by rewrite Hses). cbn [snd].
    destruct (SAdd_healthy g h s2 Hh1) as (_ & Hmem2 & _).
    by rewrite Hmem2, decide_True.
Qed.

(** X13: a token announced for a guild can be handed out: on a store
    that answers, after newGuild for a registered token, the token is among
    those getAllTokensForGuild reads for the guild, and when the guild had
    no token before, the token is under quota and limit is at least 1,
    getAnySession on what was read hands out the token's session. *)
Theorem announced_token_is_selected h x g limit s :
  Redis.healthy (client s) →
  activeSessions s !! h = Some x →
  let s1 := (newGuild h g s).2 in
  let t := getAllTokensForGuild g s1 in
  h ∈ t.1
  ∧ (members s g = [] → under_quota s g h = true → 1 ≤ limit →
     t.1 = [h] ∧ (getAnySession g t.1 limit t.2).1 = (Some x, h)).
Proof.
  intros Hh Hx s1 t.
  destruct (SAdd_healthy g h s Hh) as (Hh1 & Hmem & _ & Hstr & Hclk & Hses & Hmx).
  assert (Hs1 : s1 = (on_client (Redis_SAdd (GuildTokensKey g) h) s).2).
  { unfold s1. rewrite newGuild_unfold, decide_True; [done|]. by exists x. }
  rewrite <- Hs1 in Hh1, Hmem, Hstr, Hclk, Hses, Hmx. clear Hs1.
  assert (Hin : h ∈ members s1 g).
  { rewrite Hmem. case_decide; [done|]. apply elem_of_app. right. by left. }
  unfold t. rewrite (getAllTokensForGuild_healthy g s1 Hh1). cbn [fst snd].
  split; [done|]. intros Hempty Hu Hlim.
  rewrite Hempty in Hmem. rewrite decide_False in Hmem by apply not_elem_of_nil.
  simpl in Hmem. rewrite Hmem. split; [done|].
  assert (Hnd : NoDup [h]) by (apply NoDup_singleton).
  destruct (getAnySession_from_spec g limit [h] 0%nat s1 Hh1 Hnd) as (Hres & _ & _).
  fold (getAnySession g [h] limit s1) in Hres. rewrite Hres.
  assert (Hc : cands_from 0 limit [h] = [h]).
  { unfold cands_from. rewrite decide_True by lia.
    replace (Z.to_nat (limit - Z.of_nat 0)) with (S (Z.to_nat (limit - 1))) by lia.
    simpl. by rewrite take_nil. }
  rewrite Hc. simpl.
  assert (Hu1 : under_quota s1 g h = true).
  { rewrite <- Hu. unfold under_quota. rewrite Hmx. f_equal. f_equal. f_equal.
    apply lock_item_eq; [done|]. by rewrite Hstr. }
  assert (Hr1 : registered s1 h = true).
  { unfold registered. rewrite Hses. apply bool_decide_eq_true_2. by exists x. }
  rewrite Hu1, Hr1. simpl. by rewrite Hses, Hx.
Qed.

Lemma announced_token_is_selected_witness :
  let s := registry_api in
  let s1 := (newGuild "h2" "100" s).2 in
  let t := getAllTokensForGuild "100" s1 in
  "h2" ∈ t.1
  ∧ (members s "100" = [] → under_quota s "100" "h2" = true → 1 ≤ 3 →
     t.1 = ["h2"] ∧ (getAnySession "100" t.1 3 t.2).1 = (Some (SessionOf "token2"), "h2")).
Proof.
  apply (announced_token_is_selected "h2" (SessionOf "token2") "100" 3 registry_api);
    reflexivity.
Defined.

(** ** The /modify handler *)

Lemma digit_range c d : digit c = Some d → 0 ≤ d ≤ 9.
Proof.
  unfold digit. destruct (_ && _) eqn:E; [|done]. intros [= <-].
  apply andb_true_iff in E as [H1 H2]. apply Z.leb_le in H1, H2. lia.
Qed.

Lemma parse_digits_range bound cs :
  ∀ acc n, 0 ≤ acc ≤ bound → parse_digits bound acc cs = Some n → 0 ≤ n ≤ bound.
Proof.
  induction cs as [|c cs IH]; intros acc n Hacc; simpl.
  - by intros [= <-].
  - destruct (digit c) as [d|] eqn:Hd; [|done].
    apply digit_range in Hd.
    destruct (acc * 10 + d <=? bound) eqn:E; [|done].
    apply Z.leb_le in E. apply IH. lia.
Qed.

Lemma ParseUint_range s n : ParseUint s = Some n → 0 ≤ n < 2 ^ 64.
Proof.
  unfold ParseUint. destruct (String.list_ascii_of_string s) as [|c cs]; [done|].
  intros H. apply parse_digits_range in H; lia.
Qed.

(** X14: the /modify handler answers 400 exactly when the guildID is not
    a decimal unsigned 64-bit number, the body cannot be read, or the body
    does not decode; it then issues no store command and starts no worker,
    and for a bad guildID it does not even log. Otherwise it goes on with
    the parsed guild id (below 2^64), the limit of the request's premium
    tier, the guild's tokens as the store returns them (none when the read
    fails), and MAX_WORKERS workers for the decoded users. *)
Theorem modify_begin_validation env r s :
  let out := modify_begin env r s in
  ((∃ resp, out.1 = inl resp)
   ↔ ParseUint (guildID_var r) = None
     ∨ (∃ e, readBody r = inl e)
     ∨ (∃ body e, readBody r = inr body ∧ unmarshal r body = inl e))
  ∧ (∀ resp, out.1 = inl resp →
       status resp = StatusBadRequest
       ∧ client out.2 = client s ∧ activeSessions out.2 = activeSessions s)
  ∧ (ParseUint (guildID_var r) = None → out.2 = s)
  ∧ (∀ b, out.1 = inr b →
       ParseUint (guildID_var r) = Some (gid b) ∧ 0 ≤ gid b < 2 ^ 64
       ∧ guildID b = guildID_var r ∧ connectCode b = connectCode_var r
       ∧ (∃ body um, readBody r = inr body ∧ unmarshal r body = inr um
            ∧ limit b = premium_limit (Premium um)
            ∧ pool b = start_workers (maxWorkers env) (Users um))
       ∧ stdlog out.2 = stdlog s
       ∧ Redis.strings (client out.2) = Redis.strings (client s)
       ∧ Redis.sets (client out.2) = Redis.sets (client s)
       ∧ (tokens b = members s (guildID_var r) ∨ tokens b = [])
       ∧ (Redis.healthy (client s) → tokens b = members s (guildID_var r))).
Proof.
  unfold modify_begin.
  destruct (ParseUint (guildID_var r)) as [n|] eqn:Hp.
  2:{ simpl. unfold ret. simpl. split; [|split; [|split]]; try done.
      - split; [by left|]. intros _. by eexists.
      - by intros resp [= <-]. }
  pose proof (ParseUint_range _ _ Hp) as Hrange.
  destruct (readBody r) as [e|body] eqn:Hb.
  { unfold_m. simpl. split; [|split; [|split]]; try done.
    - split; [intros _; right; left; by exists e|]. intros _. by eexists.
    - by intros resp [= <-]. }
  destruct (unmarshal r body) as [e|um] eqn:Hu.
  { unfold_m. simpl. split; [|split; [|split]]; try done.
    - split; [intros _; right; right; by exists body, e|]. intros _. by eexists.
    - by intros resp [= <-]. }
  unfold getAllTokensForGuild, Redis.SMembers. unfold_m.
  destruct s as [[clk strs sets fl] sess mx lg]. unfold Redis.next_fault, members.
  simpl. destruct fl as [|[] fl]; simpl.
  - split; [|split; [|split]]; try done.
    + split; [by intros [? [=]]|]. intros [?|[[? ?]|(b' & e' & Hb' & He')]]; try done.
      congruence.
    + intros b [= <-]. simpl. repeat split; try done; try lia.
      * by exists body, um.
      * by left.
  - split; [|split; [|split]]; try done.
    + split; [by intros [? [=]]|]. intros [?|[[? ?]|(b' & e' & Hb' & He')]]; try done.
      congruence.
    + intros b [= <-]. simpl. repeat split; try done; try lia.
      * by exists body, um.
      * by right.
  - split; [|split; [|split]]; try done.
    + split; [by intros [? [=]]|]. intros [?|[[? ?]|(b' & e' & Hb' & He')]]; try done.
      congruence.
    + intros b [= <-]. simpl. repeat split; try done; try lia.
      * by exists body, um.
      * by left.
Qed.

(** ** The worker pool: starvation and progress *)

Lemma starved_step a p p' : starved p → step a p = Some p' → starved p'.
Proof.
  intros (Hw & Hwg & Hm & He & Hmain) Hstep.
  destruct a as [|i outcome]; simpl in Hstep.
  - unfold step_main in Hstep.
    destruct (main p) as [[|j rest]| | | |] eqn:Em; try done.
    + injection Hstep as <-. unfold starved. simpl.
      repeat split; try done. by destruct Hmain.
    + injection Hstep as <-. unfold starved. simpl.
      rewrite length_app. simpl. repeat split; try done; [lia|].
      right. by destruct (tasksChannel p).
    + destruct (wg p =? 0) eqn:E; [|done]. apply Z.eqb_eq in E.
      destruct (tasksChannel p); [done|]. simpl in Hwg. lia.
  - by rewrite Hw in Hstep.
Qed.

Lemma starved_exec sched :
  ∀ p p', starved p → exec sched p = Some p' → starved p'.
Proof.
  induction sched as [|a sched IH]; intros p p' Hinv; simpl.
  - by intros [= <-].
  - destruct (step a p) as [p1|] eqn:Hstep; [|done].
    apply IH. by eapply starved_step.
Qed.

Lemma feed_all rest :
  ∀ p, main p = Feeding rest →
    exec (replicate (S (length rest)) RunMain) p
    = Some (MkPool Waiting (workers p) (tasksChannel p ++ rest) (chanClosed p)
                   (wg p + Z.of_nat (length rest)) (mdsc p) (err p) (events p)).
Proof.
  induction rest as [|j rest IH]; intros [m ws ch cl n c e ev] Hm;
    simpl in Hm; subst m.
  - simpl. rewrite app_nil_r. do 2 f_equal. lia.
  - change (replicate (S (length (j :: rest))) RunMain)
      with (RunMain :: replicate (S (length rest)) RunMain).
    cbn [exec step]. unfold step_main. cbn [main].
    rewrite IH by done. cbn -[Z.of_nat]. rewrite <- app_assoc. simpl app.
    do 2 f_equal. rewrite Nat2Z.inj_succ. lia.
Qed.

(** X15: with [MAX_WORKERS] zero or negative the loop starts no worker, and
    a request with at least one user is never answered: whatever the
    scheduler does, the handler stays in the feeding loop or blocked in
    [wg.Wait()], no counter moves and no tier is tried; after feeding the
    whole batch it is in [wg.Wait()] with every entry still in the channel,
    and nothing can run any more. *)
Theorem no_workers_never_responds mw users :
  mw ≤ 0 → users ≠ [] →
  (∀ sched p, exec sched (start_workers mw users) = Some p →
     (∀ resp, main p ≠ Responded resp)
     ∧ workers p = [] ∧ mdsc p = no_counts ∧ events p = []
     ∧ chanClosed p = false)
  ∧ ∃ p, exec (replicate (S (length users)) RunMain) (start_workers mw users)
         = Some p
       ∧ main p = Waiting
       ∧ tasksChannel p = imap (λ i u, (i, u)) users
       ∧ wg p = Z.of_nat (length users)
       ∧ ∀ a, step a p = None.
Proof.
  intros Hmw Hu.
  assert (Hz : Z.to_nat mw = 0%nat) by lia.
  assert (Hne : imap (λ i u, (i, u)) users ≠ ([] : list Job)).
  { intros Heq. apply (f_equal length) in Heq. rewrite length_imap in Heq.
    by destruct users. }
  assert (Hstart : starved (start_workers mw users)).
  { unfold starved, start_workers. simpl. rewrite Hz. repeat split; try done.
    by left. }
  split.
  - intros sched p Hexec.
    assert (Hclosed : ∀ sched p, starved p → chanClosed p = false →
              ∀ p', exec sched p = Some p' → chanClosed p' = false).
    { clear. induction sched as [|a sched IH]; intros p Hs Hc p'; simpl.
      - by intros [= <-].
      - destruct (step a p) as [p1|] eqn:Hstep; [|done].
        apply IH; [by eapply starved_step|].
        destruct Hs as (Hw & Hwg & _ & _ & Hmain).
        destruct a as [|i outcome]; simpl in Hstep.
        + unfold step_main in Hstep.
          destruct (main p) as [[|j rest]| | | |] eqn:Em; try done.
          * by injection Hstep as <-.
          * by injection Hstep as <-.
          * destruct (wg p =? 0); [|done]. by injection Hstep as <-.
        + by rewrite Hw in Hstep. }
    pose proof (Hclosed sched _ Hstart eq_refl _ Hexec) as Hc.
    destruct (starved_exec _ _ _ Hstart Hexec) as (Hw & Hwg & Hm & He & Hmain).
    repeat split; try done.
    intros resp Hr. by rewrite Hr in Hmain.
  - eexists. split.
    { rewrite <- (length_imap (λ i u, (i, u)) users). by apply feed_all. }
    simpl. rewrite length_imap. repeat split; try done.
    intros [|i outcome]; simpl.
    + unfold step_main. simpl.
      destruct (0 + Z.of_nat (length users) =? 0) eqn:E; [|done].
      apply Z.eqb_eq in E. destruct users; [done|]. simpl in E. lia.
    + by rewrite Hz.
Qed.

Lemma no_workers_never_responds_witness :
  (∀ sched p, exec sched (start_workers 0 two_users) = Some p →
     (∀ resp, main p ≠ Responded resp)
     ∧ workers p = [] ∧ mdsc p = no_counts ∧ events p = []
     ∧ chanClosed p = false)
  ∧ ∃ p, exec (replicate (S (length two_users)) RunMain) (start_workers 0 two_users)
         = Some p
       ∧ main p = Waiting
       ∧ tasksChannel p = imap (λ i u, (i, u)) two_users
       ∧ wg p = Z.of_nat (length two_users)
       ∧ ∀ a, step a p = None.
Proof. apply (no_workers_never_responds 0 two_users); [lia|done]. Defined.

Lemma rank_nonneg w : 0 ≤ rank w.
Proof. destruct w; simpl; lia. Qed.

Lemma potential_nonneg p : 0 ≤ potential p.
Proof.
  unfold potential. pose proof (total_nonneg rank (workers p) rank_nonneg).
  destruct (main p); simpl mrank; lia.
Qed.

Lemma step_worker_frame outcome w p w' p' :
  step_worker outcome w p = Some (w', p') →
  main p' = main p ∧ chanClosed p' = chanClosed p ∧ workers p' = workers p
  ∧ (w' = Exited → chanClosed p = true).
Proof.
  destruct w; simpl; try (intros [= <- <-]; by repeat split; try by destruct outcome).
  - destruct (tasksChannel p) as [|j q].
    + destruct (chanClosed p) eqn:E; [|done]. by intros [= <- <-].
    + by intros [= <- <-].
  - destruct (err p); by intros [= <- <-].
Qed.

Lemma open_start mw users : 1 ≤ mw → open_pool (start_workers mw users).
Proof.
  intros Hmw. unfold open_pool, start_workers. simpl.
  destruct (Z.to_nat mw) as [|n] eqn:E; [lia|].
  split; [done|]. split; [done|]. intros _.
  apply Forall_forall. by intros w ->%elem_of_replicate_inv.
Qed.

Lemma open_step a p p' : open_pool p → step a p = Some p' → open_pool p'.
Proof.
  intros (Hne & Hmain & Hex) Hstep.
  destruct a as [|i outcome]; simpl in Hstep.
  - unfold step_main in Hstep.
    destruct (main p) as [[|j rest]| | | |] eqn:Em; try done.
    + by injection Hstep as <-.
    + by injection Hstep as <-.
    + destruct (wg p =? 0); [|done]. by injection Hstep as <-.
    + injection Hstep as <-. by unfold open_pool.
    + by injection Hstep as <-.
  - destruct (workers p !! i) as [w|] eqn:Hl; [|done].
    destruct (step_worker outcome w p) as [[w' p1]|] eqn:Hw; [|done].
    injection Hstep as <-.
    apply step_worker_frame in Hw as (Hm1 & Hc1 & Hw1 & Hexit).
    unfold open_pool. simpl. rewrite Hm1, Hc1, Hw1.
    split; [|split; [done|]].
    + intros Heq. apply (f_equal length) in Heq.
      rewrite length_insert in Heq. by destruct (workers p).
    + intros Hc. apply Forall_insert; [by apply Hex|].
      intros ->. rewrite Hexit in Hc; done.
Qed.

Lemma idle_total ws : Forall (λ w, wjob w = None) ws → total holding ws = 0.
Proof.
  induction 1 as [|w ws Hw _ IH]; [done|].
  rewrite total_cons, IH. unfold holding. by rewrite Hw.
Qed.

(** A worker with an entry in hand can always take its next step. *)
Lemma worker_progress i w p :
  workers p !! i = Some w → is_Some (wjob w) →
  ∃ p', step (RunWorker i true) p = Some p' ∧ potential p' < potential p.
Proof.
  intros Hl [j Hj].
  destruct (list_insert_split _ _ _ Hl) as (l1 & l2 & Hws & Hins).
  unfold step. rewrite Hl.
  destruct w; simpl in Hj; try done; cbn [step_worker].
  6:{ destruct (err p); (eexists; split; [reflexivity|]);
      unfold potential; cbn [main workers tasksChannel];
      rewrite Hins, Hws, !total_app, !total_cons; simpl rank; lia. }
  all: (eexists; split; [reflexivity|]);
    unfold potential; cbn [main workers tasksChannel];
    rewrite Hins, Hws, !total_app, !total_cons; simpl rank; lia.
Qed.

(** When every worker is at the channel, the handler or the first worker
    can move. *)
Lemma idle_progress N p :
  pool_inv N p → open_pool p → Forall (λ w, wjob w = None) (workers p) →
  (∀ r, main p ≠ Responded r) →
  ∃ a p', step a p = Some p' ∧ potential p' < potential p.
Proof.
  intros Hinv (Hne & Hmain & Hex) Hidle Hr.
  pose proof (inv_wg _ _ Hinv) as Hwg. rewrite (idle_total _ Hidle) in Hwg.
  destruct p as [m ws ch cl n c e ev]. simpl in *.
  destruct m as [[|j rest]| | | |].
  - exists RunMain. eexists. split; [reflexivity|]. unfold potential. simpl mrank.
    cbn [main workers tasksChannel feeding_rest length]. lia.
  - exists RunMain. eexists. split; [reflexivity|]. unfold potential. simpl mrank.
    cbn [main workers tasksChannel feeding_rest]. rewrite length_app.
    cbn [length]. lia.
  - destruct ch as [|j q].
    + exists RunMain. simpl in Hwg. subst n. eexists. split; [reflexivity|].
      unfold potential. simpl mrank. cbn [main workers tasksChannel feeding_rest]. lia.
    + destruct ws as [|w ws]; [done|]. subst cl.
      specialize (Hex eq_refl).
      apply Forall_cons in Hex as [Hw _]. apply Forall_cons in Hidle as [Hi _].
      destruct w; try done.
      exists (RunWorker 0 true). eexists. split; [reflexivity|].
      unfold potential. cbn [main workers tasksChannel feeding_rest length].
      cbn [list_insert insert]. rewrite !total_cons. simpl rank. simpl mrank. lia.
  - exists RunMain. eexists. split; [reflexivity|]. unfold potential. simpl mrank.
    cbn [main workers tasksChannel feeding_rest length]. lia.
  - exists RunMain. eexists. split; [reflexivity|]. unfold potential. simpl mrank.
    cbn [main workers tasksChannel feeding_rest length]. lia.
  - by destruct (Hr r).
Qed.

Lemma busy_count ws :
  Z.of_nat (length (omap wjob ws)) = total holding ws.
Proof.
  induction ws as [|w ws IH]; [done|]. rewrite total_cons. unfold holding at 1.
  cbn [omap list_omap]. destruct (wjob w); cbn [length]; lia.
Qed.

(** The entries not yet taken and those in hand are entries of the batch,
    each at most once. *)
Lemma pending_bound N p :
  pool_inv N p →
  Z.of_nat (length (queued p)) + total holding (workers p) ≤ Z.of_nat N.
Proof.
  intros Hinv.
  assert (Hsub : (queued p).*1 ++ busy_entries p ⊆+ seq 0 N).
  { apply NoDup_submseteq; [apply (inv_nodup _ _ Hinv)|].
    intros i Hi. apply elem_of_seq. split; [lia|]. simpl.
    apply elem_of_app in Hi as [Hi|Hi].
    - apply list_elem_of_fmap in Hi as (j & -> & Hj).
      by apply (inv_queued _ _ Hinv).
    - unfold busy_entries in Hi.
      apply list_elem_of_fmap in Hi as (j & -> & Hj).
      apply list_elem_of_omap in Hj as (w & Hw & Hwj).
      by apply (inv_workers _ _ Hinv w j). }
  apply submseteq_length in Hsub.
  unfold busy_entries in Hsub.
  rewrite length_app, !length_fmap, length_seq in Hsub.
  rewrite <- busy_count. apply Nat2Z.inj_le in Hsub.
  rewrite Nat2Z.inj_add in Hsub. exact Hsub.
Qed.

Lemma rank_holding ws : total rank ws ≤ 7 * total holding ws.
Proof.
  induction ws as [|w ws IH]; [done|]. rewrite !total_cons.
  assert (rank w ≤ 7 * holding w) by (destruct w; vm_compute; congruence). lia.
Qed.

Lemma potential_bound N p : pool_inv N p → potential p ≤ 9 * Z.of_nat N + 4.
Proof.
  intros Hinv. pose proof (pending_bound N p Hinv) as Hb.
  pose proof (rank_holding (workers p)).
  pose proof (total_nonneg holding (workers p) holding_nonneg).
  unfold potential. unfold queued in Hb. rewrite length_app in Hb.
  destruct (main p); simpl mrank; simpl feeding_rest in *; simpl length in *; lia.
Qed.

Lemma pool_progress N p :
  pool_inv N p → open_pool p → (∀ r, main p ≠ Responded r) →
  ∃ a p', step a p = Some p' ∧ potential p' < potential p.
Proof.
  intros Hinv Hopen Hr.
  destruct (decide (Exists (λ w, is_Some (wjob w)) (workers p))) as [Hbusy|Hidle].
  - apply Exists_exists in Hbusy as (w & Hin & Hj).
    apply list_elem_of_lookup in Hin as [i Hl].
    destruct (worker_progress i w p Hl Hj) as (p' & Hs & Hlt).
    by exists (RunWorker i true), p'.
  - apply (idle_progress N); try done.
    apply not_Exists_Forall in Hidle; [|intros w; apply _].
    eapply Forall_impl; [exact Hidle|]. intros w Hw. simpl in Hw.
    destruct (wjob w); [|done]. exfalso. apply Hw. by eexists.
Qed.

Lemma pool_finishes N :
  Z.of_nat N < 2 ^ 63 →
  ∀ n p, pool_inv N p → open_pool p → potential p ≤ Z.of_nat n →
    ∃ sched p' resp, exec sched p = Some p' ∧ main p' = Responded resp
      ∧ Z.of_nat (length sched) ≤ potential p.
Proof.
  intros HN. induction n as [|n IH]; intros p Hinv Hopen Hpot.
  - pose proof (potential_nonneg p).
    destruct (main p) as [rest| | | |resp] eqn:Em.
    5:{ exists [], p, resp. simpl. repeat split; try done. }
    all: destruct (pool_progress N p Hinv Hopen) as (a & p' & Hs & Hlt);
      [by rewrite Em|]; pose proof (potential_nonneg p'); lia.
  - destruct (main p) as [rest| | | |resp] eqn:Em.
    5:{ exists [], p, resp. simpl. pose proof (potential_nonneg p).
        repeat split; try done. }
    all: destruct (pool_progress N p Hinv Hopen) as (a & p1 & Hs & Hlt);
      [by rewrite Em|];
      destruct (IH p1) as (sched & p' & resp & He & Hm & Hlen);
      [by eapply step_inv|by eapply open_step|lia|];
      exists (a :: sched), p', resp; simpl; rewrite Hs;
      repeat split; try done; lia.
Qed.

(** X16: with at least one worker the handler never deadlocks: from every
    state a batch can reach, whatever the scheduler and the tiers have done
    so far, some continuation leads to the response, within as many steps
    as the entries still to be fed, those in the channel and the program
    points of the workers allow (nine per entry not yet taken, at most
    seven per entry in hand). *)
Theorem batch_can_always_finish mw users sched p :
  1 ≤ mw → Z.of_nat (length users) < 2 ^ 63 →
  exec sched (start_workers mw users) = Some p →
  ∃ rest p' resp, exec rest p = Some p' ∧ main p' = Responded resp
    ∧ Z.of_nat (length rest) ≤ potential p
    ∧ potential p ≤ 9 * Z.of_nat (length users) + 4.
Proof.
  intros Hmw HN Hexec.
  assert (Hinv : pool_inv (length users) p).
  { eapply exec_inv; [done|apply (start_workers_inv mw)|done]. }
  assert (Hopen : open_pool p).
  { revert Hexec. generalize (open_start mw users Hmw).
    generalize (start_workers mw users). clear.
    induction sched as [|a sched IH]; intros q Hq; simpl.
    - by intros [= <-].
    - destruct (step a q) as [q1|] eqn:Hs; [|done].
      apply IH. by eapply open_step. }
  destruct (pool_finishes (length users) HN (Z.to_nat (potential p)) p Hinv Hopen)
    as (rest & p' & resp & He & Hm & Hlen).
  { pose proof (potential_nonneg p). lia. }
  exists rest, p', resp. repeat split; try done.
  by apply potential_bound.
Qed.

Lemma batch_can_always_finish_witness :
  ∃ rest p' resp,
    exec rest two_users_midway = Some p' ∧ main p' = Responded resp
    ∧ Z.of_nat (length rest) ≤ potential two_users_midway
    ∧ potential two_users_midway ≤ 9 * Z.of_nat (length two_users) + 4.
Proof.
  apply (batch_can_always_finish 2 two_users (take 7 two_users_schedule));
    [lia|simpl; lia|reflexivity].
Defined.

(** ** The settings read from the environment *)

Lemma ParseInt_range s n : ParseInt s = Some n → - 2 ^ 63 ≤ n < 2 ^ 63.
Proof.
  unfold ParseInt. destruct (String.list_ascii_of_string s) as [|c cs]; [done|].
  case_bool_decide.
  - destruct cs as [|c' cs]; [done|].
    destruct (parse_digits (2 ^ 63) 0 (c' :: cs)) as [m|] eqn:E; [|done].
    intros [= <-]. apply parse_digits_range in E; lia.
  - case_bool_decide.
    + destruct cs as [|c' cs]; [done|].
      intros E. apply parse_digits_range in E; lia.
    + intros E. apply parse_digits_range in E; lia.
Qed.

Lemma wrap64_range z : - 2 ^ 63 ≤ wrap64 z < 2 ^ 63.
Proof.
  unfold wrap64. pose proof (Z.mod_pos_bound (z + 2 ^ 63) (2 ^ 64)). lia.
Qed.

(** X17: the acknowledgement timeout read by [Run]. An unset or
    unparsable [ACK_TIMEOUT_MS] leaves the default of one second. A parsed
    value is a signed 64-bit number of milliseconds, turned into
    nanoseconds by a 64-bit multiplication: exact up to 9223372036854 ms in
    absolute value, wrapped around beyond, so that from 9223372036855 ms to
    18446744073709 ms the timeout is negative. With a timeout of zero or
    less, an acknowledgement that arrives after the wait has begun is never
    received: [waitForAck] reports false whatever the payload. *)
Theorem ack_timeout_setting env :
  (ParseInt (ACK_TIMEOUT_MS env) = None → taskTimeout env = Time.Second)
  ∧ (∀ num, ParseInt (ACK_TIMEOUT_MS env) = Some num →
       - 2 ^ 63 ≤ num < 2 ^ 63
       ∧ - 2 ^ 63 ≤ taskTimeout env < 2 ^ 63
       ∧ (taskTimeout env - 1000000 * num) mod 2 ^ 64 = 0
       ∧ (- 9223372036854 ≤ num ≤ 9223372036854 →
            taskTimeout env = 1000000 * num)
       ∧ (9223372036855 ≤ num ≤ 18446744073709 →
            taskTimeout env = 1000000 * num - 2 ^ 64 ∧ taskTimeout env < 0))
  ∧ (taskTimeout env ≤ 0 →
       ∀ pubsub at_ payload coin, 0 < at_ →
         (waitForAck pubsub (taskTimeout env) (Some (at_, payload)) coin).1
         = false).
Proof.
  unfold taskTimeout. split; [|split].
  - by intros ->.
  - intros num Hp. rewrite Hp. pose proof (ParseInt_range _ _ Hp) as Hr.
    change Time.Millisecond with 1000000.
    split; [done|]. split; [apply wrap64_range|]. split; [|split].
    + unfold wrap64.
      replace ((1000000 * num + 2 ^ 63) mod 2 ^ 64 - 2 ^ 63 - 1000000 * num)
        with ((1000000 * num + 2 ^ 63) mod 2 ^ 64 - (1000000 * num + 2 ^ 63))
        by lia.
      rewrite Zminus_mod, Zmod_mod, Z.sub_diag. done.
    + intros Hn. apply wrap64_small. lia.
    + intros Hn. unfold wrap64.
      replace (1000000 * num + 2 ^ 63)
        with (1000000 * num - 2 ^ 63 + 1 * 2 ^ 64) by lia.
      rewrite Z_mod_plus_full, Z.mod_small by lia. lia.
  - intros Hle pubsub at_ payload coin Hat. unfold waitForAck, select_ready.
    simpl. destruct (at_ <? _) eqn:E1; [apply Z.ltb_lt in E1; lia|].
    destruct (_ <? at_) eqn:E2; [done|]. apply Z.ltb_ge in E2. lia.
Qed.
